(** * circular_buffer<T>: a shallow embedding of src/circular-buffer.h

    The container is modelled the way the C++ is written: a buffer object is
    the four fields [data_], [capacity_], [head_], [size_]; the storage it
    owns is a block of raw slots in a heap, each slot either holding a live
    [T] or nothing; member functions are computations over a world made of
    the heap, the buffer objects (addressed by identity, so that aliasing of
    [this] and [other] is visible) and the script of the failures that the
    throwing operations ([operator new], the copies of a [T]) will meet.

    [size_t] is a 64-bit unsigned integer and [ptrdiff_t] a 64-bit signed
    one; every arithmetic step of the source is written with its
    wrap-around. *)

From stdpp Require Import gmap list.
From Stdlib Require Import ZArith Lia.

Local Open Scope Z_scope.

(** ** Machine integers *)

Definition SIZE_WIDTH : Z := 64.
Definition SIZE_MOD : Z := 2 ^ SIZE_WIDTH.
Definition PTRDIFF_MAX : Z := 2 ^ 63 - 1.
Definition INT_MAX : Z := 2 ^ 31 - 1.

(** Reduction of a mathematical integer to [size_t]. *)
Definition wrap (z : Z) : Z := z mod SIZE_MOD.

(** Conversion of a [size_t] bit pattern to [ptrdiff_t]. *)
Definition to_ptrdiff (z : Z) : Z := (z + 2 ^ 63) mod SIZE_MOD - 2 ^ 63.

(** ** The element type

    [T] is a template parameter; the container only needs its size (for
    [operator new (sizeof (T) * n)]) and its copy constructor, which yields
    an equal value or throws. *)

Class Element (T : Type) := {
  sizeof : positive;
  sizeof_max : Z.pos sizeof ≤ PTRDIFF_MAX
}.

Abbreviation addr := positive.
Abbreviation objid := positive.

(** The allocator cannot satisfy a request of more than [PTRDIFF_MAX]
    bytes (no object can be that large); it then throws [std::bad_alloc]. *)
Definition max_bytes : Z := PTRDIFF_MAX.

Inductive exn : Type :=
| bad_alloc     (* thrown by operator new *)
| copy_failure. (* thrown by T's copy constructor *)

Section Container.

Context {T : Type} `{Element T}.

(** ** Data model *)

(** A storage block obtained from [operator new]: [slots] raw slots of
    [sizeof (T)] bytes; [cells] holds the objects that are alive. *)
Record block : Type := Block { slots : Z; cells : gmap Z T }.

(** The four data members of [circular_buffer]; [data_ = None] is
    [nullptr]. *)
Record circular_buffer : Type := Buf {
  data_ : option addr;
  capacity_ : Z;
  head_ : Z;
  size_ : Z
}.

(** [buffer_iterator]: the buffer it walks and a logical offset. *)
Record buffer_iterator : Type := Iter { buff_ : objid; offset_ : Z }.

Record world : Type := World {
  heap : gmap addr block;
  objs : gmap objid circular_buffer;
  pending : list bool  (* true: the next throwing operation fails *)
}.

Definition set_heap (h : gmap addr block) (w : world) : world :=
  World h (objs w) (pending w).
Definition set_objs (o : gmap objid circular_buffer) (w : world) : world :=
  World (heap w) o (pending w).
Definition set_pending (p : list bool) (w : world) : world :=
  World (heap w) (objs w) p.

(** ** Computations: state, exceptions, undefined behaviour *)

Inductive outcome (A : Type) : Type :=
| Done (a : A) (w : world)
| Thrown (e : exn) (w : world)   (* the exception leaves the call *)
| Undefined                      (* undefined behaviour *)
| Exhausted.                     (* recursion budget used up *)

Arguments Done {A} a w.
Arguments Thrown {A} e w.
Arguments Undefined {A}.
Arguments Exhausted {A}.

Definition M (A : Type) : Type := world → outcome A.

Definition ret {A} (a : A) : M A := λ w, Done a w.

Definition bind {A B} (m : M A) (f : A → M B) : M B := λ w,
  match m w with
  | Done a w' => f a w'
  | Thrown e w' => Thrown e w'
  | Undefined => Undefined
  | Exhausted => Exhausted
  end.

Definition throw {A} (e : exn) : M A := λ w, Thrown e w.
Definition undefined {A} : M A := λ _, Undefined.
Definition exhausted {A} : M A := λ _, Exhausted.

(** [try { m } catch (...) { h }] *)
Definition try_catch {A} (m : M A) (h : exn → M A) : M A := λ w,
  match m w with
  | Thrown e w' => h e w'
  | o => o
  end.

Notation "'let*' x ':=' m 'in' k" := (bind m (λ x, k))
  (at level 10, x name, m at level 100, k at level 200).
Notation "m '>>' k" := (bind m (λ _, k))
  (at level 190, right associativity).

(** A throwing operation consults the script. *)
Definition may_throw (e : exn) : M unit := λ w,
  match pending w with
  | true :: p => Thrown e (set_pending p w)
  | false :: p => Done tt (set_pending p w)
  | [] => Done tt w
  end.

(** ** Raw memory *)

(** [operator new (bytes)] *)
Definition operator_new (bytes : Z) : M addr :=
  may_throw bad_alloc >>
  λ w, if bool_decide (max_bytes < bytes) then Thrown bad_alloc w
       else let a := fresh (dom (heap w)) in
            Done a (set_heap (<[a := Block (bytes / Z.pos sizeof) ∅]> (heap w)) w).

(** [operator delete (p)] *)
Definition operator_delete (p : option addr) : M unit := λ w,
  match p with
  | None => Done tt w
  | Some a =>
      match heap w !! a with
      | Some _ => Done tt (set_heap (delete a (heap w)) w)
      | None => Undefined
      end
  end.

(** An element address [p + j]: base pointer and slot. *)
Definition ptr : Type := option addr * Z.

(** Read the live object at [q]. *)
Definition load (q : ptr) : M T := λ w,
  match q.1 with
  | None => Undefined
  | Some a =>
      match heap w !! a with
      | None => Undefined
      | Some blk =>
          if bool_decide (0 ≤ q.2 < slots blk) then
            match cells blk !! q.2 with
            | Some v => Done v w
            | None => Undefined
            end
          else Undefined
      end
  end.

Definition write_cell (q : ptr) (c : gmap Z T → gmap Z T) : M unit := λ w,
  match q.1 with
  | None => Undefined
  | Some a =>
      match heap w !! a with
      | None => Undefined
      | Some blk =>
          if bool_decide (0 ≤ q.2 < slots blk) then
            Done tt (set_heap (<[a := Block (slots blk) (c (cells blk))]> (heap w)) w)
          else Undefined
      end
  end.

(** [new (q) T (val)]: the copy may throw; then the slot holds the copy. *)
Definition construct (q : ptr) (val : T) : M unit :=
  may_throw copy_failure >> write_cell q (insert q.2 val).

(** [q->~T ()]: the object must be alive. *)
Definition destroy (q : ptr) : M unit :=
  load q >> write_cell q (delete q.2).

(** Assignment to the live object at [q]. *)
Definition assign (q : ptr) (val : T) : M unit :=
  load q >> write_cell q (insert q.2 val).

(** ** Buffer objects *)

Definition get_obj (this : objid) : M circular_buffer := λ w,
  match objs w !! this with
  | Some b => Done b w
  | None => Undefined
  end.

Definition put_obj (this : objid) (b : circular_buffer) : M unit := λ w,
  match objs w !! this with
  | Some _ => Done tt (set_objs (<[this := b]> (objs w)) w)
  | None => Undefined
  end.

(** A new object comes into existence (a local variable, a temporary). *)
Definition new_obj (b : circular_buffer) : M objid := λ w,
  let this := fresh (dom (objs w)) in
  Done this (set_objs (<[this := b]> (objs w)) w).

(** Its storage duration ends. *)
Definition end_obj (this : objid) : M unit := λ w,
  match objs w !! this with
  | Some _ => Done tt (set_objs (delete this (objs w)) w)
  | None => Undefined
  end.

Definition with_head (h : Z) (b : circular_buffer) : circular_buffer :=
  Buf (data_ b) (capacity_ b) h (size_ b).
Definition with_size (s : Z) (b : circular_buffer) : circular_buffer :=
  Buf (data_ b) (capacity_ b) (head_ b) s.

(** ** Observers *)

Definition data (this : objid) : M (option addr) :=
  let* b := get_obj this in ret (data_ b).
Definition size (this : objid) : M Z :=
  let* b := get_obj this in ret (size_ b).
Definition capacity (this : objid) : M Z :=
  let* b := get_obj this in ret (capacity_ b).
Definition empty (this : objid) : M bool :=
  let* s := size this in ret (s =? 0).

(** ** Iterators *)

Definition begin (this : objid) : buffer_iterator := Iter this 0.
Definition end_ (this : objid) : M buffer_iterator :=
  let* b := get_obj this in ret (Iter this (size_ b)).

Definition it_incr (i : buffer_iterator) : buffer_iterator :=
  Iter (buff_ i) (wrap (offset_ i + 1)).
Definition it_decr (i : buffer_iterator) : buffer_iterator :=
  Iter (buff_ i) (wrap (offset_ i - 1)).
(** [operator+ (ptrdiff_t)]: the signed offset is converted to [size_t]. *)
Definition it_add (i : buffer_iterator) (n : Z) : buffer_iterator :=
  Iter (buff_ i) (wrap (offset_ i + n)).
(** [operator- (ptrdiff_t)] is [*this + (-offset)]. *)
Definition it_sub (i : buffer_iterator) (n : Z) : buffer_iterator :=
  it_add i (- n).
(** [operator- (const buffer_iterator&)]: unsigned difference, returned as
    [ptrdiff_t]. *)
Definition it_diff (i j : buffer_iterator) : Z :=
  to_ptrdiff (wrap (offset_ i - offset_ j)).

Definition it_eq (i j : buffer_iterator) : bool :=
  bool_decide (buff_ i = buff_ j) && (offset_ i =? offset_ j).
Definition it_ne (i j : buffer_iterator) : bool := negb (it_eq i j).
Definition it_gt (i j : buffer_iterator) : bool :=
  bool_decide (buff_ i = buff_ j) && (offset_ j <? offset_ i).
Definition it_lt (i j : buffer_iterator) : bool :=
  negb (it_eq i j || it_gt i j).
Definition it_ge (i j : buffer_iterator) : bool := it_gt i j || it_eq i j.
Definition it_le (i j : buffer_iterator) : bool := it_lt i j || it_eq i j.

Definition get_real_index (i : buffer_iterator) (off : Z) : M Z :=
  let* b := get_obj (buff_ i) in
  if capacity_ b =? 0 then undefined
  else ret (wrap (wrap (offset_ i + head_ b) + off) mod capacity_ b).

(** The address of [*i]. *)
Definition deref (i : buffer_iterator) : M ptr :=
  let* p := data (buff_ i) in
  let* j := get_real_index i 0 in
  ret (p, j).

(** [std::iter_swap (i, j)], that is [std::swap (a, b)] on the two
    elements: [T tmp (move (a)); a = move (b); b = move (tmp);]. The
    element type need only be copyable, and then each of the three steps
    is a copy that may throw; a copy that throws changes nothing. *)
Definition iter_swap (i j : buffer_iterator) : M unit :=
  let* qi := deref i in
  let* qj := deref j in
  let* vi := load qi in
  may_throw copy_failure >>
  let* vj := load qj in
  may_throw copy_failure >>
  assign qi vj >>
  may_throw copy_failure >>
  assign qj vi.

(** The address of [operator[] (index)]. *)
Definition op_index (this : objid) (index : Z) : M ptr :=
  let* b := get_obj this in
  if capacity_ b =? 0 then undefined
  else ret (data_ b, wrap (head_ b + index) mod capacity_ b).

Definition tail (this : objid) : M Z :=
  let* b := get_obj this in
  if capacity_ b =? 0 then undefined
  else ret (wrap (head_ b + size_ b) mod capacity_ b).

(** ** Construction, destruction, capacity *)

(** [circular_buffer ()] *)
Definition circular_buffer_default : M objid :=
  new_obj (Buf None 0 0 0).

(** [pop_back ()] *)
Definition pop_back (this : objid) : M unit :=
  let* e := end_ this in
  let* q := deref (it_sub e 1) in
  destroy q >>
  let* b := get_obj this in
  put_obj this (with_size (wrap (size_ b - 1)) b).

(** [pop_front ()] *)
Definition pop_front (this : objid) : M unit :=
  (let* b := get_obj this in put_obj this (with_size (wrap (size_ b - 1)) b)) >>
  let* b := get_obj this in
  destroy (data_ b, head_ b) >>
  let* b := get_obj this in
  if capacity_ b =? 0 then undefined
  else put_obj this (with_head (wrap (head_ b + 1) mod capacity_ b) b).

(** [clear ()]: [while (!empty ()) pop_back ();] *)
Fixpoint clear (fuel : nat) (this : objid) : M unit :=
  match fuel with
  | O => exhausted
  | S fuel =>
      let* e := empty this in
      if e then ret tt else pop_back this >> clear fuel this
  end.

(** [~circular_buffer ()], after which the object is gone. *)
Definition destructor (fuel : nat) (this : objid) : M unit :=
  clear fuel this >>
  let* p := data this in
  operator_delete p >>
  end_obj this.

(** [swap (a, b)]: the four fields are exchanged. *)
Definition swap (a b : objid) : M unit :=
  let* x := get_obj a in
  let* y := get_obj b in
  put_obj a y >> put_obj b x.

(** Destroy the objects at slots [from, from + n) of the block at [p]. *)
Fixpoint destroy_n (p : option addr) (from : Z) (n : nat) : M unit :=
  match n with
  | O => ret tt
  | S n => destroy (p, from) >> destroy_n p (from + 1) n
  end.

(** [std::uninitialized_copy (first, last, d)]: on a throwing copy the
    objects constructed so far are destroyed and the exception goes on. *)
Fixpoint uninitialized_copy (fuel : nat) (first last : buffer_iterator)
    (d : option addr) (cur : Z) : M unit :=
  match fuel with
  | O => exhausted
  | S fuel =>
      if it_ne first last then
        let* q := deref first in
        let* v := load q in
        try_catch (construct (d, cur) v)
          (λ e, destroy_n d 0 (Z.to_nat cur) >> throw e) >>
        uninitialized_copy fuel (it_incr first) last d (cur + 1)
      else ret tt
  end.

(** [circular_buffer (const circular_buffer& other, size_t new_capacity)] *)
Definition circular_buffer_copy_cap (fuel : nat) (other : objid)
    (new_capacity : Z) : M objid :=
  let* d := (if new_capacity =? 0 then ret None
             else let* a := operator_new (wrap (Z.pos sizeof * new_capacity)) in
                  ret (Some a)) in
  let* o := get_obj other in
  let* e := end_ other in
  try_catch (uninitialized_copy fuel (begin other) e d 0)
    (λ e, operator_delete d >> throw e) >>
  new_obj (Buf d new_capacity 0 (size_ o)).

(** [circular_buffer (const circular_buffer& other)] *)
Definition circular_buffer_copy (fuel : nat) (other : objid) : M objid :=
  let* o := get_obj other in
  circular_buffer_copy_cap fuel other (size_ o).

Definition ensure_capacity (fuel : nat) (this : objid) (new_capacity : Z)
    : M unit :=
  let* c := capacity this in
  if c <? new_capacity then
    let* tmp := circular_buffer_copy_cap fuel this new_capacity in
    swap tmp this >>
    destructor fuel tmp
  else ret tt.

(** [reserve (desired_capacity)] *)
Definition reserve (fuel : nat) (this : objid) (desired_capacity : Z)
    : M unit :=
  ensure_capacity fuel this desired_capacity.

(** ** Mutators *)

(** [push_back (val)] *)
Fixpoint push_back (fuel : nat) (this : objid) (val : T) : M unit :=
  match fuel with
  | O => exhausted
  | S fuel =>
      let* s := size this in
      let* c := capacity this in
      if s =? c then
        ensure_capacity fuel this (if c =? 0 then 1 else wrap (c * 2)) >>
        push_back fuel this val
      else
        let* p := data this in
        let* t := tail this in
        construct (p, t) val >>
        let* b := get_obj this in
        put_obj this (with_size (wrap (size_ b + 1)) b)
  end.

(** [push_front (val)] *)
Fixpoint push_front (fuel : nat) (this : objid) (val : T) : M unit :=
  match fuel with
  | O => exhausted
  | S fuel =>
      let* s := size this in
      let* c := capacity this in
      if s =? c then
        ensure_capacity fuel this (if c =? 0 then 1 else wrap (c * 2)) >>
        push_front fuel this val
      else
        let* b := get_obj this in
        (if capacity_ b =? 0 then undefined else ret tt) >>
        let tmp := wrap (wrap (head_ b + capacity_ b) - 1) mod capacity_ b in
        construct (data_ b, tmp) val >>
        let* b := get_obj this in
        put_obj this (with_head tmp b) >>
        let* b := get_obj this in
        put_obj this (with_size (wrap (size_ b + 1)) b)
  end.

(** [insert]: [for (auto i = begin (); i < spot; i++) iter_swap (i, i + 1);] *)
Fixpoint insert_shift_up (fuel : nat) (i spot : buffer_iterator) : M unit :=
  match fuel with
  | O => exhausted
  | S fuel =>
      if it_lt i spot then
        iter_swap i (it_add i 1) >> insert_shift_up fuel (it_incr i) spot
      else ret tt
  end.

(** [insert]: [for (auto i = end () - 1; i > spot; i--) iter_swap (i, i - 1);] *)
Fixpoint insert_shift_down (fuel : nat) (i spot : buffer_iterator) : M unit :=
  match fuel with
  | O => exhausted
  | S fuel =>
      if it_gt i spot then
        iter_swap i (it_sub i 1) >> insert_shift_down fuel (it_decr i) spot
      else ret tt
  end.

(** [insert (pos, val)]; [delta < size () / 2] compares a [ptrdiff_t] with
    a [size_t], so [delta] is converted to [size_t]. *)
Definition insert (fuel : nat) (this : objid) (pos : buffer_iterator)
    (val : T) : M buffer_iterator :=
  let delta := it_diff pos (begin this) in
  let* s := size this in
  if wrap delta <? s / 2 then
    push_front fuel this val >>
    let spot := it_add (begin this) delta in
    insert_shift_up fuel (begin this) spot >>
    ret spot
  else
    push_back fuel this val >>
    let spot := it_add (begin this) delta in
    let* e := end_ this in
    insert_shift_down fuel (it_sub e 1) spot >>
    ret spot.

(** [erase]: [for (iterator i = first; i + delta < end (); i++)
    iter_swap (i, i + delta);] *)
Fixpoint erase_shift_left (fuel : nat) (this : objid) (i : buffer_iterator)
    (delta : Z) : M unit :=
  match fuel with
  | O => exhausted
  | S fuel =>
      let* e := end_ this in
      if it_lt (it_add i delta) e then
        iter_swap i (it_add i delta) >>
        erase_shift_left fuel this (it_incr i) delta
      else ret tt
  end.

(** [erase]: [for (iterator i = last - 1; i >= begin () + delta; i--)
    iter_swap (i, i - delta);] *)
Fixpoint erase_shift_right (fuel : nat) (this : objid) (i : buffer_iterator)
    (delta : Z) : M unit :=
  match fuel with
  | O => exhausted
  | S fuel =>
      if it_ge i (it_add (begin this) delta) then
        iter_swap i (it_sub i delta) >>
        erase_shift_right fuel this (it_decr i) delta
      else ret tt
  end.

(** [for (auto i = 0; i < delta; i++) pop ();] the counter is an [int]:
    incrementing it at [INT_MAX] is undefined. *)
Fixpoint pop_loop (fuel : nat) (pop : M unit) (i delta : Z) : M unit :=
  match fuel with
  | O => exhausted
  | S fuel =>
      if i <? delta then
        pop >>
        if i =? INT_MAX then undefined
        else pop_loop fuel pop (i + 1) delta
      else ret tt
  end.

(** [erase (first, last)]; [end () - last < size_ / 2] is again an
    unsigned comparison. *)
Definition erase (fuel : nat) (this : objid) (first last : buffer_iterator)
    : M buffer_iterator :=
  let delta := it_diff last first in
  let* e := end_ this in
  let* b := get_obj this in
  if wrap (it_diff e last) <? size_ b / 2 then
    erase_shift_left fuel this first delta >>
    pop_loop fuel (pop_back this) 0 delta >>
    ret first
  else if negb (delta =? 0) then
    let diff := it_diff first (begin this) in
    erase_shift_right fuel this (it_sub last 1) delta >>
    pop_loop fuel (pop_front this) 0 delta >>
    ret (it_add (begin this) diff)
  else ret first.

(** [erase (pos)] *)
Definition erase1 (fuel : nat) (this : objid) (pos : buffer_iterator)
    : M buffer_iterator :=
  erase fuel this pos (it_add pos 1).

(** [operator==]: same storage pointer, same head, same size. *)
Definition op_eq (this other : objid) : M bool :=
  let* a := get_obj this in
  let* b := get_obj other in
  ret (bool_decide (data_ a = data_ b) && (head_ a =? head_ b)
       && (size_ a =? size_ b)).

Definition op_ne (this other : objid) : M bool :=
  let* e := op_eq this other in ret (negb e).

(** [operator=]: copy and swap, unless the operands compare equal. *)
Definition op_assign (fuel : nat) (this other : objid) : M unit :=
  let* ne := op_ne this other in
  if ne then
    let* tmp := circular_buffer_copy fuel other in
    swap tmp this >>
    destructor fuel tmp
  else ret tt.

(** ** Reading the logical content *)

(** The value of [operator[] (index)]. *)
Definition read (this : objid) (index : Z) : M T :=
  let* q := op_index this index in load q.

(** [operator[] (index) = val] *)
Definition write (this : objid) (index : Z) (val : T) : M unit :=
  let* q := op_index this index in assign q val.

(** [front ()]: [*begin ()] *)
Definition front (this : objid) : M T :=
  let* q := deref (begin this) in load q.

(** [back ()]: [*(end () - 1)] *)
Definition back (this : objid) : M T :=
  let* e := end_ this in
  let* q := deref (it_sub e 1) in
  load q.

(** The address of [i[off]], the iterator's own [operator[]]. *)
Definition it_index (i : buffer_iterator) (off : Z) : M ptr :=
  let* p := data (buff_ i) in
  let* j := get_real_index i off in
  ret (p, j).

Definition at_ (w : world) (this : objid) (index : Z) : option T :=
  match read this index w with
  | Done v _ => Some v
  | _ => None
  end.

(** The elements at logical indices [0 .. size - 1], in order. *)
Definition contents (w : world) (this : objid) : option (list T) :=
  b ← objs w !! this;
  mapM (at_ w this) (seqZ 0 (size_ b)).

(** ** Specification vocabulary *)

(** The script holds no failure. *)
Definition calm (w : world) : Prop := pending w = [].

(** Numeric well-formedness of the fields of a buffer holding [l]. *)
Record shape (b : circular_buffer) (l : list T) : Prop := Shape {
  shape_size : size_ b = Z.of_nat (length l);
  shape_cap : size_ b ≤ capacity_ b;
  shape_head : 0 ≤ head_ b ∧
               (head_ b < capacity_ b ∨ head_ b = 0 ∧ capacity_ b = 0);
  shape_bytes : Z.pos sizeof * capacity_ b ≤ max_bytes;
  shape_data : data_ b = None ↔ capacity_ b = 0
}.

(** The block of [b] has [capacity_ b] slots; the slot of logical index
    [i] holds [l !! i], and the slots of the indices past the size hold
    nothing. *)
Definition stores (h : gmap addr block) (b : circular_buffer) (l : list T)
    : Prop :=
  match data_ b with
  | None => True
  | Some a =>
      ∃ blk, h !! a = Some blk ∧ slots blk = capacity_ b ∧
        ∀ i, 0 ≤ i < capacity_ b →
          cells blk !! ((head_ b + i) mod capacity_ b) = l !! Z.to_nat i
  end.

(** Object [this] has fields [b] and represents the sequence [l]. *)
Definition repr_at (w : world) (this : objid) (b : circular_buffer)
    (l : list T) : Prop :=
  objs w !! this = Some b ∧ shape b l ∧ stores (heap w) b l.

Definition repr (w : world) (this : objid) (l : list T) : Prop :=
  ∃ b, repr_at w this b l.

(** Weakest precondition: what holds of the result of [m] in [w]; [u]
    says whether undefined behaviour and exhaustion are tolerated. *)
Definition wp {A} (u : Prop) (m : M A) (w : world)
    (Q : A → world → Prop) (R : exn → world → Prop) : Prop :=
  match m w with
  | Done a w' => Q a w'
  | Thrown e w' => R e w'
  | Undefined | Exhausted => u
  end.

(** The cells [c] of a block being filled by a copy of [l]: slots
    [0 .. k - 1] hold the first [k] elements, the others nothing. *)
Definition filled (c : gmap Z T) (l : list T) (k : Z) : Prop :=
  ∀ j, c !! j = if bool_decide (0 ≤ j < k) then l !! Z.to_nat j else None.

(** ** Sequences of end operations, and the reference deque *)

Inductive deque_op : Type :=
| PushBack (v : T)
| PushFront (v : T)
| PopBack
| PopFront.

Definition apply_op (fuel : nat) (this : objid) (op : deque_op) : M unit :=
  match op with
  | PushBack v => push_back fuel this v
  | PushFront v => push_front fuel this v
  | PopBack => pop_back this
  | PopFront => pop_front this
  end.

Fixpoint run_ops (fuel : nat) (this : objid) (ops : list deque_op) : M unit :=
  match ops with
  | [] => ret tt
  | op :: ops => apply_op fuel this op >> run_ops fuel this ops
  end.

(** The reference double-ended queue of the specification: a plain
    sequence; a pop of the empty queue is not allowed. *)
Definition deque_step (op : deque_op) (q : list T) : option (list T) :=
  match op with
  | PushBack v => Some (q ++ [v])
  | PushFront v => Some (v :: q)
  | PopBack => if q is [] then None else Some (removelast q)
  | PopFront => if q is _ :: q' then Some q' else None
  end.

Fixpoint deque_run (ops : list deque_op) (q : list T) : option (list T) :=
  match ops with
  | [] => Some q
  | op :: ops => q' ← deque_step op q; deque_run ops q'
  end.

(** ** Consistency of a world with several buffers *)

(** The number of live objects in a block. *)
Definition live_count (blk : block) : Z := Z.of_nat (base.size (cells blk)).

(** What every buffer object satisfies between two calls: the numeric
    invariants, and a storage block that holds at most [size_] live
    objects. *)
Definition obj_ok (hp : gmap addr block) (b : circular_buffer) : Prop :=
  0 ≤ size_ b ≤ capacity_ b ∧ capacity_ b < SIZE_MOD ∧
  0 ≤ head_ b ∧ (0 < capacity_ b → head_ b < capacity_ b) ∧
  match data_ b with
  | None => True
  | Some a => ∃ blk, hp !! a = Some blk ∧ live_count blk ≤ size_ b
  end.

(** Every object is consistent and no two objects share their storage. *)
Definition consistent (hp : gmap addr block)
    (o : gmap objid circular_buffer) : Prop :=
  (∀ x b, o !! x = Some b → obj_ok hp b) ∧
  (∀ x y bx by_ a, o !! x = Some bx → o !! y = Some by_ →
     data_ bx = Some a → data_ by_ = Some a → x = y).

Definition world_inv (w : world) : Prop := consistent (heap w) (objs w).

(** The objects outside [X] that exist in the first world are the same,
    with the same storage, in the second. *)
Definition kept (X : gset objid) (hp : gmap addr block)
    (o : gmap objid circular_buffer) (hp' : gmap addr block)
    (o' : gmap objid circular_buffer) : Prop :=
  ∀ y b, y ∉ X → o !! y = Some b →
    o' !! y = Some b ∧ ∀ a, data_ b = Some a → hp' !! a = hp !! a.

Definition keeps (X : gset objid) (w w' : world) : Prop :=
  kept X (heap w) (objs w) (heap w') (objs w').

(** [w'] is consistent and has kept the objects outside [X] as they were
    in [w]. *)
Definition good (X : gset objid) (w w' : world) : Prop :=
  world_inv w' ∧ keeps X w w'.

(** A computation that, started in a consistent world, leaves one when it
    returns and when it throws, touching only the objects in [X]. *)
Definition safe {A} (X : gset objid) (m : M A) : Prop :=
  ∀ w, world_inv w → wp True m w (λ _, good X w) (λ _, good X w).

(** ** Programs over several buffers *)

(** One call of the public interface. Iterators passed to [insert] and
    [erase] are iterators of the buffer itself, at any offset. *)
Inductive call : Type :=
| NewDefault                                   (* circular_buffer x;        *)
| NewCopy (other : objid)                      (* circular_buffer x (other) *)
| Delete (this : objid)                        (* the destructor            *)
| AssignFrom (this other : objid)              (* this = other              *)
| Swap (a b : objid)
| AtEnd (this : objid) (op : deque_op)         (* push_back, pop_front, ... *)
| Reserve (this : objid) (n : Z)
| Insert (this : objid) (pos : Z) (v : T)
| Erase (this : objid) (first last : Z)
| EraseAt (this : objid) (pos : Z)
| Clear (this : objid)
| Write (this : objid) (index : Z) (v : T).   (* operator[] (index) = v    *)

Definition run_call (fuel : nat) (c : call) : M unit :=
  match c with
  | NewDefault => circular_buffer_default >> ret tt
  | NewCopy other => circular_buffer_copy fuel other >> ret tt
  | Delete this => destructor fuel this
  | AssignFrom this other => op_assign fuel this other
  | Swap a b => swap a b
  | AtEnd this op => apply_op fuel this op
  | Reserve this n => reserve fuel this n
  | Insert this pos v => insert fuel this (Iter this pos) v >> ret tt
  | Erase this first last =>
      erase fuel this (Iter this first) (Iter this last) >> ret tt
  | EraseAt this pos => erase1 fuel this (Iter this pos) >> ret tt
  | Clear this => clear fuel this
  | Write this index v => write this index v
  end.

(** The numeric arguments are values of [size_t]. *)
Definition is_size_t (n : Z) : bool := (0 <=? n) && (n <? SIZE_MOD).

Definition valid_call (c : call) : bool :=
  match c with
  | Reserve _ n => is_size_t n
  | Insert _ pos _ => is_size_t pos
  | Erase _ first last => is_size_t first && is_size_t last
  | EraseAt _ pos => is_size_t pos
  | Write _ index _ => is_size_t index
  | _ => true
  end.

(** The objects a call may modify. *)
Definition target (c : call) : gset objid :=
  match c with
  | NewDefault | NewCopy _ => ∅
  | Swap a b => {[a; b]}
  | Delete this | AssignFrom this _ | AtEnd this _ | Reserve this _
  | Insert this _ _ | Erase this _ _ | EraseAt this _ | Clear this
  | Write this _ _ => {[this]}
  end.

(** The world a call leaves to its caller, whether it returns or throws. *)
Definition after {A} (r : outcome A) : option world :=
  match r with
  | Done _ w' | Thrown _ w' => Some w'
  | Undefined | Exhausted => None
  end.

(** A sequence of calls, each with its own recursion budget; the caller
    catches what is thrown and goes on. *)
Inductive steps : list call → world → world → Prop :=
| steps_nil w : steps [] w w
| steps_cons c cs fuel w w1 w2 :
    valid_call c = true →
    after (run_call fuel c w) = Some w1 →
    steps cs w1 w2 →
    steps (c :: cs) w w2.

(** Reachable from nothing: every buffer in the world was constructed by
    one of the calls. *)
Definition reachable (w : world) : Prop :=
  ∃ cs p, steps cs (World ∅ ∅ p) w.

(** ** Ownership of the heap *)

(** Block [a] is the storage of some buffer object. *)
Definition owned (w : world) (a : addr) : Prop :=
  ∃ x b, objs w !! x = Some b ∧ data_ b = Some a.

(** Every allocated block is the storage of a buffer object. *)
Definition no_leak (w : world) : Prop :=
  ∀ a, is_Some (heap w !! a) → owned w a.

(** From [w] to [w'] no block was allocated and every object has kept
    its storage pointer. *)
Definition settled (w w' : world) : Prop :=
  (∀ a, is_Some (heap w' !! a) → is_Some (heap w !! a)) ∧
  (∀ x b, objs w !! x = Some b →
     ∃ b', objs w' !! x = Some b' ∧ data_ b' = data_ b).

(** A computation that neither allocates nor moves storage between
    objects, whether it returns or throws. *)
Definition stable {A} (m : M A) : Prop :=
  ∀ w, wp True m w (λ _, settled w) (λ _, settled w).

(** The same, knowing the fields [b] of object [this]. *)
Definition stable_at {A} (this : objid) (b : circular_buffer) (m : M A)
    : Prop :=
  ∀ w, objs w !! this = Some b → wp True m w (λ _, settled w) (λ _, settled w).

(** A computation that leaves no block without an owner, whether it
    returns or throws. *)
Definition leakfree {A} (m : M A) : Prop :=
  ∀ w, no_leak w → wp True m w (λ _, no_leak) (λ _, no_leak).

(** Every block but [d], the storage of an object under construction,
    has an owner. *)
Definition no_leak_but (d : option addr) (w : world) : Prop :=
  ∀ a, is_Some (heap w !! a) → d = Some a ∨ owned w a.

(** A capacity reached by doubling from 1. *)
Definition power_of_two_or_zero (c : Z) : Prop :=
  c = 0 ∨ ∃ k : nat, c = 2 ^ Z.of_nat k.

End Container.

Arguments Done {T A} a w.
Arguments Thrown {T A} e w.
Arguments Undefined {T A}.
Arguments Exhausted {T A}.
Arguments Block {T} slots cells.
Arguments World {T} heap objs pending.
Arguments PushBack {T} v.
Arguments PushFront {T} v.
Arguments PopBack {T}.
Arguments PopFront {T}.
Arguments NewDefault {T}.
Arguments NewCopy {T} other.
Arguments Delete {T} this.
Arguments AssignFrom {T} this other.
Arguments Swap {T} a b.
Arguments AtEnd {T} this op.
Arguments Reserve {T} this n.
Arguments Insert {T} this pos v.
Arguments Erase {T} this first last.
Arguments EraseAt {T} this pos.
Arguments Clear {T} this.
Arguments Write {T} this index v.

(** ** A concrete element type and concrete worlds, for the examples *)

(** A 64-bit integer element. *)
#[global] Instance int64_element : Element Z :=
  {| sizeof := 8;
     sizeof_max := λ Hgt : (Z.pos 8 ?= PTRDIFF_MAX) = Gt,
       eq_ind Lt (λ c, if c is Gt then False else True) I Gt Hgt |}.

(** Nothing allocated, no object, no failure scripted. *)
Definition world0 : world (T:=Z) := World ∅ ∅ [].

(** After [circular_buffer x;]: the object has identity 1. *)
Definition world_default : world (T:=Z) :=
  match circular_buffer_default world0 with
  | Done _ w => w
  | _ => world0
  end.

(** After [x.push_back (7)]: size 1, capacity 1. *)
Definition world_one : world (T:=Z) :=
  match run_ops 5 1 [PushBack 7] world_default with
  | Done _ w => w
  | _ => world0
  end.

(** The scenario of the specification: [push_back (1)], [push_back (2)],
    [push_front (0)]. *)
Definition sample_ops : list (deque_op (T:=Z)) :=
  [PushBack 1; PushBack 2; PushFront 0].

Definition sample_world : world (T:=Z) :=
  match run_ops 5 1 sample_ops world_default with
  | Done _ w => w
  | _ => world0
  end.

(** The fields of the sample buffer. *)
Definition sample_buf : circular_buffer := Buf (Some 3%positive) 4 3 3.

(** A second buffer beside the first: a copy of it, with its first
    element popped. Object 1 holds 0, 1, 2 and object 2 holds 1, 2. *)
Definition pair_world : world (T:=Z) :=
  match bind (circular_buffer_copy 5 1) (λ _, pop_front 2) sample_world with
  | Done _ w => w
  | _ => world0
  end.

(** The fields of the second buffer. *)
Definition pair_buf : circular_buffer := Buf (Some 4%positive) 3 1 2.

(** The sample world, with the next copy or allocation bound to fail. *)
Definition fragile_world : world (T:=Z) := set_pending [true] sample_world.

(** The sample world, where the first copy goes through and the second
    one throws. *)
Definition shaky_world : world (T:=Z) := set_pending [false; true] sample_world.

(** * Proofs *)

(** ** Arithmetic of [size_t] *)

Lemma SIZE_MOD_eq : SIZE_MOD = 18446744073709551616.
Proof. reflexivity. Qed.

Lemma max_bytes_eq : max_bytes = 9223372036854775807.
Proof. reflexivity. Qed.

Lemma wrap_small z : 0 ≤ z < SIZE_MOD → wrap z = z.
Proof. intros. unfold wrap. by apply Z.mod_small. Qed.

Lemma wrap_range z : 0 ≤ wrap z < SIZE_MOD.
Proof. unfold wrap. apply Z.mod_pos_bound. by rewrite SIZE_MOD_eq. Qed.

Lemma to_ptrdiff_small z : - 2 ^ 63 ≤ z < 2 ^ 63 → to_ptrdiff (wrap z) = z.
Proof.
  intros Hz. unfold to_ptrdiff, wrap.
  rewrite Zplus_mod_idemp_l.
  rewrite Z.mod_small; [lia|]. rewrite SIZE_MOD_eq. lia.
Qed.

Lemma wrap_to_ptrdiff z : wrap (to_ptrdiff z) = wrap z.
Proof.
  unfold to_ptrdiff, wrap. rewrite SIZE_MOD_eq.
  change (2 ^ 63) with 9223372036854775808.
  Z.div_mod_to_equations. lia.
Qed.

(** The slot of a logical index. *)
Lemma slot_range h c i : 0 < c → 0 ≤ (h + i) mod c < c.
Proof. intros. apply Z.mod_pos_bound. lia. Qed.

Lemma slot_inj h c i j :
  0 ≤ i < c → 0 ≤ j < c → (h + i) mod c = (h + j) mod c → i = j.
Proof.
  intros Hi Hj Heq.
  assert (Hc : 0 < c) by lia.
  assert (E : (i - j) mod c = 0).
  { replace (i - j) with ((h + i) - (h + j)) by lia.
    rewrite Zminus_mod, Heq, Z.sub_diag. by apply Z.mod_0_l, Z.neq_sym, Z.lt_neq. }
  apply Z.mod_divide in E; [|lia].
  destruct E as [k Hk].
  assert (k = 0) by nia. lia.
Qed.

Lemma slot_succ h c i :
  0 < c → ((h + 1) mod c + i) mod c = (h + (i + 1)) mod c.
Proof.
  intros. rewrite Zplus_mod_idemp_l. f_equal. lia.
Qed.

Lemma slot_pred h c i :
  0 < c → ((h + c - 1) mod c + i) mod c = (h + (i - 1)) mod c.
Proof.
  intros. rewrite Zplus_mod_idemp_l.
  replace (h + c - 1 + i) with (h + (i - 1) + 1 * c) by lia.
  by rewrite Z.mod_add by lia.
Qed.

Section Proofs.

Context {T : Type} `{Element T}.

Notation "'let*' x ':=' m 'in' k" := (bind m (λ x, k))
  (at level 10, x name, m at level 100, k at level 200).
Notation "m '>>' k" := (bind m (λ _, k))
  (at level 190, right associativity).

Implicit Types (w : @world T) (b : circular_buffer) (l : list T).
Implicit Types (h : gmap positive (@block T)) (o : gmap positive circular_buffer).
Implicit Types (p : list bool) (R : exn → @world T → Prop) (u : Prop).

(** ** Rules of the weakest precondition *)

Lemma wp_ret {A} u (a : A) w Q R : Q a w → wp u (ret a) w Q R.
Proof. done. Qed.

Lemma wp_bind {A B} u (m : M A) (f : A → M B) w Q R :
  wp u m w (λ a w', wp u (f a) w' Q R) R → wp u (bind m f) w Q R.
Proof. unfold wp, bind. by destruct (m w). Qed.

Lemma wp_mono {A} u (m : M A) w (Q Q' : A → world → Prop) (R R' : exn → world → Prop) :
  wp u m w Q R →
  (∀ a w', Q a w' → Q' a w') → (∀ e w', R e w' → R' e w') →
  wp u m w Q' R'.
Proof. unfold wp. destruct (m w); auto. Qed.

Lemma wp_lax {A} (u : Prop) (m : M A) w Q R :
  wp False m w Q R → wp u m w Q R.
Proof. unfold wp. destruct (m w); tauto. Qed.

Lemma wp_throw {A} u e w (Q : A → world → Prop) R : R e w → wp u (throw e) w Q R.
Proof. done. Qed.

Lemma wp_undefined {A} (u : Prop) w (Q : A → world → Prop) R : u → wp u undefined w Q R.
Proof. done. Qed.

Lemma wp_try_catch {A} u (m : M A) (c : exn → M A) w Q R :
  wp u m w Q (λ e w', wp u (c e) w' Q R) → wp u (try_catch m c) w Q R.
Proof. unfold wp, try_catch. by destruct (m w). Qed.

Lemma wp_done {A} u (m : M A) w Q R a w' :
  wp u m w Q R → m w = Done a w' → Q a w'.
Proof. unfold wp. intros Hwp E. by rewrite E in Hwp. Qed.

Lemma wp_thrown {A} u (m : M A) w Q R e w' :
  wp u m w Q R → m w = Thrown e w' → R e w'.
Proof. unfold wp. intros Hwp E. by rewrite E in Hwp. Qed.

Lemma wp_total {A} (m : M A) w Q R :
  wp False m w Q R →
  (∃ a w', m w = Done a w' ∧ Q a w') ∨ (∃ e w', m w = Thrown e w' ∧ R e w').
Proof. unfold wp. destruct (m w); naive_solver. Qed.

(** ** Rules of the primitive operations

    Each rule has one premise per way the operation can go; the premises
    of the undefined cases conclude [u]. *)

Lemma wp_may_throw u e h o p Q R :
  (∀ p', p = true :: p' → R e (World h o p')) →
  (∀ p', p' = List.tl p → (p = [] → p' = []) → Q tt (World h o p')) →
  wp u (may_throw e) (World h o p) Q R.
Proof.
  intros HR HQ. unfold wp, may_throw; simpl.
  destruct p as [|[] p']; unfold set_pending; simpl.
  - by apply HQ.
  - by apply HR.
  - by apply HQ.
Qed.

Lemma wp_operator_new u bytes h o p Q R :
  (∀ p', p = true :: p' → R bad_alloc (World h o p')) →
  (∀ p', (p = [] → p' = []) → max_bytes < bytes → R bad_alloc (World h o p')) →
  (∀ p' a, (p = [] → p' = []) → bytes ≤ max_bytes → h !! a = None →
     Q a (World (<[a := Block (bytes / Z.pos sizeof) ∅]> h) o p')) →
  wp u (operator_new bytes) (World h o p) Q R.
Proof.
  intros HR1 HR2 HQ. unfold operator_new. apply wp_bind, wp_may_throw; [done|].
  intros p' -> Hp. unfold wp; simpl. case_bool_decide.
  - by apply HR2.
  - apply HQ; [done|lia|]. apply not_elem_of_dom, is_fresh.
Qed.

Lemma wp_operator_delete_null u h o p Q R :
  Q tt (World h o p) → wp u (operator_delete None) (World h o p) Q R.
Proof. done. Qed.

Lemma wp_operator_delete u a h o p Q R :
  (h !! a = None → u) →
  (∀ blk, h !! a = Some blk → Q tt (World (delete a h) o p)) →
  wp u (operator_delete (Some a)) (World h o p) Q R.
Proof.
  intros Hu HQ. unfold wp, operator_delete; simpl.
  destruct (h !! a) eqn:E; eauto.
Qed.

Lemma wp_load_null u j w (Q : T → world → Prop) R :
  u → wp u (load (None, j)) w Q R.
Proof. done. Qed.

Lemma wp_load u a j h o p Q R :
  (h !! a = None → u) →
  (∀ blk, h !! a = Some blk → ¬ 0 ≤ j < slots blk → u) →
  (∀ blk, h !! a = Some blk → cells blk !! j = None → u) →
  (∀ blk v, h !! a = Some blk → 0 ≤ j < slots blk → cells blk !! j = Some v →
     Q v (World h o p)) →
  wp u (load (Some a, j)) (World h o p) Q R.
Proof.
  intros H1 H2 H3 HQ. unfold wp, load; simpl.
  destruct (h !! a) as [blk|] eqn:E; [|eauto].
  case_bool_decide; [|eauto].
  destruct (cells blk !! j) eqn:E'; eauto.
Qed.

Lemma wp_write_cell_null u j c w Q R :
  u → wp u (write_cell (None, j) c) w Q R.
Proof. done. Qed.

Lemma wp_write_cell u a j c h o p Q R :
  (h !! a = None → u) →
  (∀ blk, h !! a = Some blk → ¬ 0 ≤ j < slots blk → u) →
  (∀ blk, h !! a = Some blk → 0 ≤ j < slots blk →
     Q tt (World (<[a := Block (slots blk) (c (cells blk))]> h) o p)) →
  wp u (write_cell (Some a, j) c) (World h o p) Q R.
Proof.
  intros H1 H2 HQ. unfold wp, write_cell; simpl.
  destruct (h !! a) as [blk|] eqn:E; [|eauto].
  case_bool_decide; eauto.
Qed.

Lemma wp_get_obj u this h o p Q R :
  (o !! this = None → u) →
  (∀ b, o !! this = Some b → Q b (World h o p)) →
  wp u (get_obj this) (World h o p) Q R.
Proof.
  intros Hu HQ. unfold wp, get_obj; simpl. destruct (o !! this); eauto.
Qed.

Lemma wp_put_obj u this b h o p Q R :
  (o !! this = None → u) →
  (∀ b0, o !! this = Some b0 → Q tt (World h (<[this := b]> o) p)) →
  wp u (put_obj this b) (World h o p) Q R.
Proof.
  intros Hu HQ. unfold wp, put_obj; simpl. destruct (o !! this); eauto.
Qed.

Lemma wp_new_obj u b h o p Q R :
  (∀ this, o !! this = None → Q this (World h (<[this := b]> o) p)) →
  wp u (new_obj b) (World h o p) Q R.
Proof.
  intros HQ. unfold wp, new_obj; simpl. apply HQ, not_elem_of_dom, is_fresh.
Qed.

Lemma wp_end_obj u this h o p Q R :
  (o !! this = None → u) →
  (∀ b0, o !! this = Some b0 → Q tt (World h (delete this o) p)) →
  wp u (end_obj this) (World h o p) Q R.
Proof.
  intros Hu HQ. unfold wp, end_obj; simpl. destruct (o !! this); eauto.
Qed.

(** ** Rules for operations that are known to succeed *)

Lemma wp_get_obj_at u this b h o p Q R :
  o !! this = Some b → Q b (World h o p) →
  wp u (get_obj this) (World h o p) Q R.
Proof. intros Hb HQ. apply wp_get_obj; intros; by simplify_eq. Qed.

Lemma wp_put_obj_at u this b0 b h o p Q R :
  o !! this = Some b0 → Q tt (World h (<[this := b]> o) p) →
  wp u (put_obj this b) (World h o p) Q R.
Proof. intros Hb HQ. apply wp_put_obj; intros; by simplify_eq. Qed.

Lemma wp_end_obj_at u this b0 h o p Q R :
  o !! this = Some b0 → Q tt (World h (delete this o) p) →
  wp u (end_obj this) (World h o p) Q R.
Proof. intros Hb HQ. apply wp_end_obj; intros; by simplify_eq. Qed.

Lemma wp_load_at u a j blk v h o p Q R :
  h !! a = Some blk → 0 ≤ j < slots blk → cells blk !! j = Some v →
  Q v (World h o p) →
  wp u (load (Some a, j)) (World h o p) Q R.
Proof. intros Ha Hj Hv HQ. apply wp_load; intros; by simplify_eq. Qed.

Lemma wp_write_cell_at u a j c blk h o p Q R :
  h !! a = Some blk → 0 ≤ j < slots blk →
  Q tt (World (<[a := Block (slots blk) (c (cells blk))]> h) o p) →
  wp u (write_cell (Some a, j) c) (World h o p) Q R.
Proof. intros Ha Hj HQ. apply wp_write_cell; intros; by simplify_eq. Qed.

Lemma wp_destroy_at u a j blk v h o p Q R :
  h !! a = Some blk → 0 ≤ j < slots blk → cells blk !! j = Some v →
  Q tt (World (<[a := Block (slots blk) (delete j (cells blk))]> h) o p) →
  wp u (destroy (Some a, j)) (World h o p) Q R.
Proof.
  intros Ha Hj Hv HQ. unfold destroy. apply wp_bind.
  eapply wp_load_at; [done..|]. by eapply wp_write_cell_at.
Qed.

Lemma wp_assign_at u a j blk v0 v h o p Q R :
  h !! a = Some blk → 0 ≤ j < slots blk → cells blk !! j = Some v0 →
  Q tt (World (<[a := Block (slots blk) (<[j := v]> (cells blk))]> h) o p) →
  wp u (assign (Some a, j) v) (World h o p) Q R.
Proof.
  intros Ha Hj Hv HQ. unfold assign. apply wp_bind.
  eapply wp_load_at; [done..|]. by eapply wp_write_cell_at.
Qed.

Lemma wp_construct_at u a j blk v h o p Q R :
  h !! a = Some blk → 0 ≤ j < slots blk →
  (∀ p', p = true :: p' → R copy_failure (World h o p')) →
  (∀ p', (p = [] → p' = []) →
     Q tt (World (<[a := Block (slots blk) (<[j := v]> (cells blk))]> h) o p')) →
  wp u (construct (Some a, j) v) (World h o p) Q R.
Proof.
  intros Ha Hj HR HQ. unfold construct. apply wp_bind, wp_may_throw; [done|].
  intros p' _ Hp. eapply wp_write_cell_at; [done..|]. by apply HQ.
Qed.

(** ** Facts about [shape] and [stores] *)

Lemma shape_bounds b l :
  shape b l →
  0 ≤ size_ b ≤ capacity_ b ∧ capacity_ b < 2 ^ 63 ∧ 0 ≤ head_ b ∧
  (0 < capacity_ b → head_ b < capacity_ b).
Proof.
  intros [Hs Hc [Hh0 Hh] Hb _].
  assert (0 ≤ size_ b) by lia.
  rewrite max_bytes_eq in Hb.
  change (2 ^ 63) with 9223372036854775808.
  assert (1 ≤ Z.pos sizeof) by lia.
  repeat split; try lia; nia.
Qed.

Lemma shape_data_some b l :
  shape b l → 0 < capacity_ b → ∃ a, data_ b = Some a.
Proof.
  intros Hsh Hc. destruct (data_ b) as [a|] eqn:E; [eauto|].
  apply (shape_data _ _ Hsh) in E. lia.
Qed.

Lemma shape_real_index b l i :
  shape b l → 0 ≤ i < capacity_ b →
  wrap (wrap (i + head_ b) + 0) mod capacity_ b
  = (head_ b + i) mod capacity_ b.
Proof.
  intros Hsh Hi. destruct (shape_bounds _ _ Hsh) as (? & ? & ? & ?).
  change (2 ^ 63) with 9223372036854775808 in *.
  rewrite Z.add_0_r, !wrap_small; [f_equal; lia|..];
    rewrite ?wrap_small; rewrite SIZE_MOD_eq; lia.
Qed.

Lemma shape_op_index b l i :
  shape b l → 0 ≤ i < capacity_ b →
  wrap (head_ b + i) mod capacity_ b = (head_ b + i) mod capacity_ b.
Proof.
  intros Hsh Hi. destruct (shape_bounds _ _ Hsh) as (? & ? & ? & ?).
  change (2 ^ 63) with 9223372036854775808 in *.
  rewrite wrap_small; [done|]. rewrite SIZE_MOD_eq; lia.
Qed.

Lemma lookup_snoc_Z l v i :
  0 ≤ i →
  (l ++ [v]) !! Z.to_nat i
  = if decide (i = Z.of_nat (length l)) then Some v else l !! Z.to_nat i.
Proof.
  intros Hi. case_decide as E.
  - subst i. rewrite Nat2Z.id. by rewrite list_lookup_middle.
  - destruct (decide (i < Z.of_nat (length l))).
    + rewrite lookup_app_l; [done|lia].
    + rewrite !lookup_ge_None_2; [done|lia|rewrite length_app; simpl; lia].
Qed.

Lemma lookup_cons_Z l v i :
  0 ≤ i →
  (v :: l) !! Z.to_nat i
  = if decide (i = 0) then Some v else l !! Z.to_nat (i - 1).
Proof.
  intros Hi. case_decide as E.
  - by subst i.
  - replace (Z.to_nat i) with (S (Z.to_nat (i - 1))) by lia. done.
Qed.

(** ** [pop_back] and [pop_front] on a well-formed buffer *)

Lemma pop_back_spec u this b l v h o p Q R :
  repr_at (World h o p) this b (l ++ [v]) →
  (∀ h', let b' := with_size (size_ b - 1) b in
     shape b' l → stores h' b' l →
     (∀ a, data_ b ≠ Some a → h' !! a = h !! a) →
     Q tt (World h' (<[this := b']> o) p)) →
  wp u (pop_back this) (World h o p) Q R.
Proof.
  intros (Hb & Hsh & Hst) HQ. simpl in Hb.
  pose proof (shape_bounds _ _ Hsh) as (Hs & Hc & Hh0 & Hh).
  pose proof (shape_size _ _ Hsh) as Hlen. rewrite length_app in Hlen; simpl in Hlen.
  destruct (shape_data_some _ _ Hsh) as [a Ha]; [lia|].
  unfold stores in Hst; simpl in Hst. rewrite Ha in Hst.
  destruct Hst as (blk & Hblk & Hslots & Hcells).
  assert (Hw : wrap (size_ b + - (1)) = size_ b - 1).
  { apply wrap_small. rewrite SIZE_MOD_eq. change (2 ^ 63) with 9223372036854775808 in *. lia. }
  unfold pop_back, end_, deref, data, get_real_index, it_sub, it_add; simpl.
  apply wp_bind. apply wp_bind. eapply wp_get_obj_at; [done|]. apply wp_ret.
  apply wp_bind. apply wp_bind. apply wp_bind. eapply wp_get_obj_at; [done|]. apply wp_ret.
  apply wp_bind. apply wp_bind. eapply wp_get_obj_at; [done|].
  destruct (capacity_ b =? 0) eqn:E; [lia|]. apply wp_ret. apply wp_ret.
  simpl. rewrite Hw, Ha.
  rewrite (shape_real_index _ _ _ Hsh) by lia.
  apply wp_bind. eapply wp_destroy_at; [done| |..].
  { rewrite Hslots. apply slot_range. lia. }
  { rewrite Hcells by lia. rewrite lookup_snoc_Z by lia.
    rewrite decide_True by lia. done. }
  apply wp_bind. eapply wp_get_obj_at; [done|].
  eapply wp_put_obj_at; [done|].
  rewrite (wrap_small (size_ b - 1)).
  2:{ rewrite SIZE_MOD_eq. change (2 ^ 63) with 9223372036854775808 in *. lia. }
  apply HQ.
  - destruct Hsh. constructor; simpl; try done; lia.
  - unfold stores; simpl. rewrite Ha. eexists. rewrite lookup_insert_eq.
    split; [done|]. split; [done|]. simpl. intros i Hi.
    destruct (decide (i = size_ b - 1)) as [->|Hne].
    + rewrite lookup_delete_eq. symmetry. apply lookup_ge_None_2. lia.
    + rewrite lookup_delete_ne.
      2:{ intros E'. apply slot_inj in E'; lia. }
      rewrite Hcells by lia. rewrite lookup_snoc_Z by lia.
      rewrite decide_False by lia. done.
  - intros a' Hne. rewrite lookup_insert_ne; [done|congruence].
Qed.
Ltac wp_go :=
  repeat first
    [ lazymatch goal with
      | |- wp _ (bind _ _) _ _ _ => apply wp_bind
      | |- wp _ (ret _) _ _ _ => apply wp_ret; cbv beta
      | |- wp _ (get_obj _) _ _ _ =>
          eapply wp_get_obj_at; [first [eassumption | apply lookup_insert_eq]|]; cbv beta
      | |- wp _ (put_obj _ _) _ _ _ =>
          eapply wp_put_obj_at; [first [eassumption | apply lookup_insert_eq]|]; cbv beta
      end ].

Ltac shape_facts Hsh :=
  let H1 := fresh "Hs" in let H2 := fresh "Hc" in
  let H3 := fresh "Hh0" in let H4 := fresh "Hh" in
  pose proof (shape_bounds _ _ Hsh) as (H1 & H2 & H3 & H4);
  change (2 ^ 63) with 9223372036854775808 in H2.

Lemma pop_front_spec u this b l v h o p Q R :
  repr_at (World h o p) this b (v :: l) →
  (∀ h', let b' := Buf (data_ b) (capacity_ b)
                     ((head_ b + 1) mod capacity_ b) (size_ b - 1) in
     shape b' l → stores h' b' l →
     (∀ a, data_ b ≠ Some a → h' !! a = h !! a) →
     Q tt (World h' (<[this := b']> o) p)) →
  wp u (pop_front this) (World h o p) Q R.
Proof.
  intros (Hb & Hsh & Hst) HQ. simpl in Hb.
  shape_facts Hsh.
  pose proof (shape_size _ _ Hsh) as Hlen. simpl in Hlen.
  destruct (shape_data_some _ _ Hsh) as [a Ha]; [lia|].
  unfold stores in Hst; simpl in Hst. rewrite Ha in Hst.
  destruct Hst as (blk & Hblk & Hslots & Hcells).
  unfold pop_front. wp_go. simpl. rewrite Ha.
  rewrite (wrap_small (size_ b - 1)) by (rewrite SIZE_MOD_eq; lia).
  assert (Hhead : (head_ b + 0) mod capacity_ b = head_ b).
  { rewrite Z.add_0_r. apply Z.mod_small. lia. }
  eapply wp_destroy_at; [done| |..].
  { rewrite Hslots. lia. }
  { rewrite <- Hhead at 1. rewrite Hcells by lia. done. }
  wp_go. simpl.
  destruct (capacity_ b =? 0) eqn:E; [lia|].
  wp_go. rewrite insert_insert_eq. unfold with_head, with_size; simpl.
  rewrite (wrap_small (head_ b + 1)) by (rewrite SIZE_MOD_eq; lia).
  apply HQ.
  - destruct Hsh. constructor; simpl; try done; try lia.
    pose proof (Z.mod_pos_bound (head_ b + 1) (capacity_ b)). lia.
  - unfold stores; simpl. rewrite Ha. eexists. rewrite lookup_insert_eq.
    split; [done|]. split; [done|]. simpl. intros i Hi.
    rewrite slot_succ by lia.
    destruct (decide (i + 1 = capacity_ b)) as [Heq|Hne].
    + rewrite Heq. replace (head_ b + capacity_ b) with (head_ b + 0 + 1 * capacity_ b) by lia.
      rewrite Z.mod_add, Hhead by lia.
      rewrite lookup_delete_eq. symmetry. apply lookup_ge_None_2. lia.
    + rewrite lookup_delete_ne.
      2:{ rewrite <- Hhead at 1. intros E'. apply slot_inj in E'; lia. }
      rewrite Hcells by lia. rewrite lookup_cons_Z by lia.
      rewrite decide_False by lia. do 2 f_equal. lia.
  - intros a' Hne. rewrite lookup_insert_ne; [done|congruence].
Qed.

(** ** Copying into fresh storage *)

Lemma stores_frame h h' b l :
  (∀ a, data_ b = Some a → h' !! a = h !! a) →
  stores h b l → stores h' b l.
Proof.
  unfold stores. intros Hf. destruct (data_ b) as [a|]; [|done].
  by rewrite Hf.
Qed.

Lemma wp_deref_at u this b i h o p Q R :
  o !! this = Some b → capacity_ b ≠ 0 →
  Q (data_ b, wrap (wrap (i + head_ b) + 0) mod capacity_ b) (World h o p) →
  wp u (deref (Iter this i)) (World h o p) Q R.
Proof.
  intros Hb Hc HQ. unfold deref, data, get_real_index; simpl. wp_go.
  destruct (capacity_ b =? 0) eqn:E; [lia|]. by wp_go.
Qed.

(** Reading logical index [i] of a well-formed buffer. *)
Lemma stores_lookup h b l a i v :
  shape b l → stores h b l → data_ b = Some a → l !! Z.to_nat i = Some v →
  0 ≤ i →
  ∃ blk, h !! a = Some blk ∧ slots blk = capacity_ b ∧
    0 ≤ (head_ b + i) mod capacity_ b < slots blk ∧
    cells blk !! ((head_ b + i) mod capacity_ b) = Some v.
Proof.
  intros Hsh Hst Ha Hv Hi. unfold stores in Hst. rewrite Ha in Hst.
  destruct Hst as (blk & Hblk & Hslots & Hcells).
  shape_facts Hsh. pose proof (shape_size _ _ Hsh).
  apply lookup_lt_Some in Hv as Hlt.
  exists blk. split; [done|]. split; [done|]. split.
  - rewrite Hslots. apply slot_range. lia.
  - rewrite Hcells by lia. done.
Qed.

Lemma destroy_n_spec u a n m : ∀ from c h o p Q R,
  h !! a = Some (Block n c) →
  0 ≤ from → from + Z.of_nat m ≤ n →
  (∀ j, from ≤ j < from + Z.of_nat m → is_Some (c !! j)) →
  (∀ c', (∀ j, c' !! j = if bool_decide (from ≤ j < from + Z.of_nat m)
                          then None else c !! j) →
     Q tt (World (<[a := Block n c']> h) o p)) →
  wp u (destroy_n (Some a) from m) (World h o p) Q R.
Proof.
  induction m as [|m IH]; intros from c h o p Q R Ha Hfrom Hn Hlive HQ; simpl.
  - apply wp_ret. rewrite <- (insert_id h a (Block n c)) at 1 by done.
    apply HQ. intros j.
    rewrite bool_decide_eq_false_2; [done|lia].
  - apply wp_bind. destruct (Hlive from) as [v Hv]; [lia|].
    eapply wp_destroy_at; [done|simpl; lia|done|]. simpl.
    eapply IH; [apply lookup_insert_eq|lia|lia|..].
    + intros j Hj. rewrite lookup_delete_ne by lia. apply Hlive. lia.
    + intros c' Hc'. rewrite insert_insert_eq. apply HQ. intros j.
      rewrite Hc'. repeat case_bool_decide; try lia; try done.
      * assert (j = from) by lia. subst. by rewrite lookup_delete_eq.
      * rewrite lookup_delete_ne; [done|lia].
Qed.

Lemma filled_empty l : filled ∅ l 0.
Proof. intros j. rewrite lookup_empty. rewrite bool_decide_eq_false_2; [done|lia]. Qed.

Lemma uninitialized_copy_spec u other b l a' n o fuel : ∀ k c h p Q R,
  o !! other = Some b → shape b l → stores h b l → data_ b ≠ Some a' →
  h !! a' = Some (Block n c) → size_ b ≤ n → 0 ≤ k ≤ size_ b →
  filled c l k →
  (Z.to_nat (size_ b - k) < fuel)%nat →
  (∀ c' p', filled c' l (size_ b) → (p = [] → p' = []) →
     Q tt (World (<[a' := Block n c']> h) o p')) →
  (∀ e p', p ≠ [] → R e (World (<[a' := Block n ∅]> h) o p')) →
  wp u (uninitialized_copy fuel (Iter other k) (Iter other (size_ b))
          (Some a') k) (World h o p) Q R.
Proof.
  induction fuel as [|fuel IH];
    intros k c h p Q R Hb Hsh Hst Hne Ha' Hn Hk Hfill Hfuel HQ HR; [lia|].
  shape_facts Hsh. pose proof (shape_size _ _ Hsh) as Hlen.
  simpl. unfold it_ne, it_eq; simpl.
  rewrite bool_decide_eq_true_2 by done. simpl.
  destruct (k =? size_ b) eqn:E; simpl.
  { assert (k = size_ b) by lia. subst k. apply wp_ret.
    rewrite <- (insert_id h a' (Block n c)) at 1 by done.
    by apply HQ. }
  assert (Hklt : k < size_ b) by lia.
  destruct (shape_data_some _ _ Hsh) as [a Ha]; [lia|].
  destruct (lookup_lt_is_Some_2 l (Z.to_nat k)) as [v Hv]; [lia|].
  destruct (stores_lookup h b l a k v) as (blk & Hblk & Hslots & Hj & Hcell);
    [done..|lia|].
  apply wp_bind. eapply wp_deref_at; [done|lia|].
  rewrite (shape_real_index _ _ _ Hsh) by lia. rewrite Ha.
  apply wp_bind. eapply wp_load_at; [done..|].
  apply wp_bind. apply wp_try_catch.
  eapply wp_construct_at; [done|simpl; lia|..].
  - intros p' Hp. apply wp_bind.
    eapply destroy_n_spec; [done|lia|lia|..].
    + intros j Hj'. rewrite Hfill. rewrite bool_decide_eq_true_2 by lia.
      apply lookup_lt_is_Some_2. lia.
    + intros c' Hc'. apply wp_throw.
      replace c' with (∅ : gmap Z T); [apply HR; by subst|].
      apply map_eq. intros j. rewrite lookup_empty, Hc', Hfill.
      repeat case_bool_decide; try done; lia.
  - intros p' Hp. simpl.
    unfold it_incr; simpl. rewrite (wrap_small (k + 1)) by (rewrite SIZE_MOD_eq; lia).
    eapply IH; try done.
    + eapply stores_frame; [|done]. intros a0 Ha0.
      rewrite lookup_insert_ne; [done|congruence].
    + apply lookup_insert_eq.
    + lia.
    + intros j. destruct (decide (j = k)) as [->|Hjk].
      * rewrite lookup_insert_eq. rewrite bool_decide_eq_true_2 by lia. done.
      * rewrite lookup_insert_ne by done. rewrite Hfill.
        repeat case_bool_decide; try done; lia.
    + lia.
    + intros c' p'' Hc' Hp''. rewrite insert_insert_eq. apply HQ; [done|].
      intros ->. auto.
    + intros e p'' Hp''. rewrite insert_insert_eq. apply HR.
      intros ->. auto.
Qed.

Lemma shape_nil_of_size_0 b l : shape b l → size_ b = 0 → l = [].
Proof.
  intros Hsh H0. pose proof (shape_size _ _ Hsh). destruct l; [done|]. simpl in *. lia.
Qed.

Lemma copy_cap_spec u fuel other b l n h o p Q R :
  o !! other = Some b → shape b l → stores h b l →
  size_ b ≤ n → Z.pos sizeof * n < SIZE_MOD →
  (Z.to_nat (size_ b) < fuel)%nat →
  (∀ tmp d h' p', let b' := Buf d n 0 (size_ b) in
     o !! tmp = None → shape b' l → stores h' b' l →
     (∀ a, is_Some (h !! a) → h' !! a = h !! a) →
     (∀ a, d = Some a → h !! a = None) →
     (p = [] → p' = []) →
     Q tmp (World h' (<[tmp := b']> o) p')) →
  (∀ e p', (p = [] → max_bytes < Z.pos sizeof * n) → R e (World h o p')) →
  wp u (circular_buffer_copy_cap fuel other n) (World h o p) Q R.
Proof.
  intros Hb Hsh Hst Hn Hwrap Hfuel HQ HR.
  shape_facts Hsh. pose proof (shape_size _ _ Hsh) as Hlen.
  unfold circular_buffer_copy_cap.
  destruct (n =? 0) eqn:En.
  - assert (n = 0) by lia. subst n. assert (Hs0 : size_ b = 0) by lia.
    pose proof (shape_nil_of_size_0 _ _ Hsh Hs0) as ->.
    unfold end_. wp_go. apply wp_try_catch.
    destruct fuel as [|fuel]; [lia|]. simpl.
    unfold it_ne, it_eq, begin; simpl. rewrite bool_decide_eq_true_2 by done.
    destruct (size_ b) eqn:Es; try lia. simpl. wp_go. apply wp_new_obj. intros tmp Htmp.
    apply HQ; try done.
    constructor; simpl; try done; lia.
  - assert (0 < n) by lia.
    apply wp_bind. apply wp_bind. apply wp_operator_new.
    + intros p' ->. apply HR. done.
    + intros p' _ Hmax. apply HR. intros _.
      rewrite wrap_small in Hmax by lia. done.
    + intros p' a' Hp' Hmax Hfresh. rewrite wrap_small in * by lia.
      rewrite Z.mul_comm, Z.div_mul by lia.
      unfold end_. wp_go. apply wp_try_catch.
      assert (Hne : data_ b ≠ Some a').
      { intros Ha. unfold stores in Hst. rewrite Ha in Hst.
        destruct Hst as (? & ? & _). congruence. }
      eapply (uninitialized_copy_spec u other b l a' n o fuel 0);
        [done|done| |done|apply lookup_insert_eq|done|lia|apply filled_empty|lia|..].
      * eapply stores_frame; [|done]. intros a0 Ha0.
        rewrite lookup_insert_ne; [done|congruence].
      * intros c' p'' Hc' Hp''. rewrite insert_insert_eq.
        wp_go. apply wp_new_obj. intros tmp Htmp.
        apply HQ; try done.
        -- constructor; simpl; try done; try lia. split; [done|lia].
        -- unfold stores; simpl. eexists. rewrite lookup_insert_eq.
           split; [done|]. split; [done|]. simpl. intros i Hi.
           rewrite Z.mod_small by lia. rewrite Hc'.
           case_bool_decide; [done|]. symmetry. apply lookup_ge_None_2. lia.
        -- intros a [blk Ha]. rewrite lookup_insert_ne; [done|congruence].
        -- intros a [= ->]. done.
        -- intros ->. auto.
      * intros e p'' Hp''. rewrite insert_insert_eq.
        apply wp_bind. eapply wp_operator_delete; [by rewrite lookup_insert_eq|].
        intros blk _. rewrite delete_insert_id by done.
        apply wp_throw. apply HR. intros ->. by destruct Hp''; auto.
Qed.

Lemma swap_spec u (x y : objid) bx by_ h o p Q R :
  o !! x = Some bx → o !! y = Some by_ → x ≠ y →
  Q tt (World h (<[y := bx]> (<[x := by_]> o)) p) →
  wp u (swap x y) (World h o p) Q R.
Proof.
  intros Hx Hy Hne HQ. unfold swap. wp_go.
  eapply wp_put_obj_at; [by rewrite lookup_insert_ne|]. done.
Qed.

Lemma clear_spec u this fuel : ∀ l b h o p Q R,
  repr_at (World h o p) this b l →
  (length l < fuel)%nat →
  (∀ h', let b' := with_size 0 b in
     shape b' [] → stores h' b' [] →
     (∀ a, data_ b ≠ Some a → h' !! a = h !! a) →
     Q tt (World h' (<[this := b']> o) p)) →
  wp u (clear fuel this) (World h o p) Q R.
Proof.
  induction fuel as [|fuel IH]; intros l b h o p Q R Hr Hfuel HQ; [lia|].
  destruct Hr as (Hb & Hsh & Hst). simpl in Hb.
  pose proof (shape_size _ _ Hsh) as Hlen.
  simpl. unfold empty, size. wp_go.
  destruct l as [|v l _] using rev_ind.
  - simpl in Hlen. rewrite Hlen. simpl. wp_go.
    replace o with (<[this := with_size 0 b]> o) at 1.
    2:{ apply insert_id. rewrite Hb. f_equal. destruct b; simpl in *. by subst. }
    apply HQ; try done.
    destruct Hsh. constructor; simpl in *; try done; lia.
  - rewrite length_app in Hlen, Hfuel. simpl in *.
    destruct (size_ b =? 0) eqn:E; [lia|].
    apply wp_bind. eapply pop_back_spec; [done|].
    intros h' b' Hsh' Hst' Hfr.
    eapply IH; [split; [apply lookup_insert_eq|done]|lia|].
    intros h''. cbv zeta. intros Hsh'' Hst'' Hfr'. rewrite insert_insert_eq.
    apply HQ; try done.
    intros a Ha. rewrite Hfr', Hfr; done.
Qed.

Lemma destructor_spec u this fuel l b h o p Q R :
  repr_at (World h o p) this b l →
  (length l < fuel)%nat →
  (∀ h', (∀ a, data_ b ≠ Some a → h' !! a = h !! a) →
         (∀ a, data_ b = Some a → h' !! a = None) →
     Q tt (World h' (delete this o) p)) →
  wp u (destructor fuel this) (World h o p) Q R.
Proof.
  intros Hr Hfuel HQ. unfold destructor, data.
  apply wp_bind. eapply clear_spec; [done..|].
  intros h' b' Hsh' Hst' Hfr. wp_go. simpl.
  destruct (data_ b) as [a|] eqn:Ha.
  - unfold stores in Hst'. simpl in Hst'. rewrite Ha in Hst'.
    destruct Hst' as (blk & Hblk & _).
    eapply wp_operator_delete; [congruence|]. intros _ _.
    eapply wp_end_obj_at; [apply lookup_insert_eq|].
    rewrite delete_insert_eq. apply HQ.
    + intros a' Hne. rewrite lookup_delete_ne by congruence. by apply Hfr.
    + intros a' [= ->]. apply lookup_delete_eq.
  - apply wp_operator_delete_null.
    eapply wp_end_obj_at; [apply lookup_insert_eq|].
    rewrite delete_insert_eq. apply HQ; [|done]. intros a' _. by apply Hfr.
Qed.

(** ** Growth *)

Lemma ensure_capacity_grow u fuel this b l n h o p Q R :
  repr_at (World h o p) this b l →
  capacity_ b < n → Z.pos sizeof * n < SIZE_MOD →
  (length l < fuel)%nat →
  (∀ d h' p', let b' := Buf d n 0 (size_ b) in
     shape b' l → stores h' b' l → (p = [] → p' = []) →
     Q tt (World h' (<[this := b']> o) p')) →
  (∀ e p', (p = [] → max_bytes < Z.pos sizeof * n) → R e (World h o p')) →
  wp u (ensure_capacity fuel this n) (World h o p) Q R.
Proof.
  intros (Hb & Hsh & Hst) Hn Hwrap Hfuel HQ HR. simpl in Hb, Hst.
  shape_facts Hsh. pose proof (shape_size _ _ Hsh) as Hlen.
  unfold ensure_capacity, capacity. wp_go.
  destruct (capacity_ b <? n) eqn:E; [|lia].
  apply wp_bind. eapply copy_cap_spec; [done|done|done|lia|done|lia|..].
  - intros tmp d h1 p1 b' Htmp Hsh' Hst' Hfr Hfresh Hp1.
    assert (Hne : tmp ≠ this) by congruence.
    apply wp_bind. eapply swap_spec; [apply lookup_insert_eq| |done|].
    { rewrite lookup_insert_ne by done. done. }
    rewrite insert_insert_eq.
    eapply (destructor_spec u tmp fuel l b); [|done|].
    { split; [|split; [done|]]; simpl.
      - rewrite lookup_insert_ne by done. apply lookup_insert_eq.
      - eapply stores_frame; [|done]. intros a Ha. apply Hfr.
        unfold stores in Hst. rewrite Ha in Hst. destruct Hst as (? & -> & _). done. }
    intros h2 Hfr2 Hgone.
    rewrite delete_insert_ne by done. rewrite delete_insert_id by done.
    apply HQ; [done| |done].
    eapply stores_frame; [|done]. intros a Ha. apply Hfr2.
    intros Hba. subst b'. simpl in Ha. subst d.
    specialize (Hfresh a eq_refl).
    unfold stores in Hst. rewrite Hba in Hst. destruct Hst as (? & ? & _). congruence.
  - intros e p' Hp'. by apply HR.
Qed.

Lemma ensure_capacity_enough u fuel this b n h o p Q R :
  o !! this = Some b → n ≤ capacity_ b →
  Q tt (World h o p) →
  wp u (ensure_capacity fuel this n) (World h o p) Q R.
Proof.
  intros Hb Hn HQ. unfold ensure_capacity, capacity. wp_go.
  destruct (capacity_ b <? n) eqn:E; [lia|]. by wp_go.
Qed.

(** ** [push_back] and [push_front] on a well-formed buffer *)

Lemma push_back_room u fuel this b l v h o p Q R :
  repr_at (World h o p) this b l →
  size_ b < capacity_ b → (0 < fuel)%nat →
  (∀ h' p', let b' := with_size (size_ b + 1) b in
     shape b' (l ++ [v]) → stores h' b' (l ++ [v]) → (p = [] → p' = []) →
     Q tt (World h' (<[this := b']> o) p')) →
  (∀ e p', p ≠ [] → R e (World h o p')) →
  wp u (push_back fuel this v) (World h o p) Q R.
Proof.
  intros (Hb & Hsh & Hst) Hroom Hfuel HQ HR. simpl in Hb, Hst.
  shape_facts Hsh. pose proof (shape_size _ _ Hsh) as Hlen.
  destruct (shape_data_some _ _ Hsh) as [a Ha]; [lia|].
  unfold stores in Hst. rewrite Ha in Hst.
  destruct Hst as (blk & Hblk & Hslots & Hcells).
  destruct fuel as [|fuel]; [lia|]. simpl.
  unfold size, capacity, data, tail. wp_go.
  destruct (size_ b =? capacity_ b) eqn:E; [lia|]. wp_go.
  destruct (capacity_ b =? 0) eqn:E0; [lia|]. wp_go.
  rewrite Ha. rewrite (shape_op_index _ _ _ Hsh) by lia.
  eapply wp_construct_at; [done|..].
  { rewrite Hslots. apply slot_range. lia. }
  { intros p' ->. by apply HR. }
  intros p' Hp'. wp_go.
  rewrite (wrap_small (size_ b + 1)) by (rewrite SIZE_MOD_eq; lia).
  apply HQ; [| |done].
  - destruct Hsh. constructor; simpl; try done; try lia.
    rewrite length_app. simpl. lia.
  - unfold stores; simpl. rewrite Ha. eexists. rewrite lookup_insert_eq.
    split; [done|]. split; [done|]. simpl. intros i Hi.
    rewrite lookup_snoc_Z by lia.
    destruct (decide (i = size_ b)) as [->|Hne].
    + rewrite lookup_insert_eq. by rewrite decide_True by lia.
    + rewrite lookup_insert_ne.
      2:{ intros E'. apply slot_inj in E'; lia. }
      rewrite decide_False by lia. apply Hcells. lia.
Qed.

Lemma push_front_room u fuel this b l v h o p Q R :
  repr_at (World h o p) this b l →
  size_ b < capacity_ b → (0 < fuel)%nat →
  (∀ h' p', let b' := Buf (data_ b) (capacity_ b)
                        ((head_ b + capacity_ b - 1) mod capacity_ b)
                        (size_ b + 1) in
     shape b' (v :: l) → stores h' b' (v :: l) → (p = [] → p' = []) →
     Q tt (World h' (<[this := b']> o) p')) →
  (∀ e p', p ≠ [] → R e (World h o p')) →
  wp u (push_front fuel this v) (World h o p) Q R.
Proof.
  intros (Hb & Hsh & Hst) Hroom Hfuel HQ HR. simpl in Hb, Hst.
  shape_facts Hsh. pose proof (shape_size _ _ Hsh) as Hlen.
  destruct (shape_data_some _ _ Hsh) as [a Ha]; [lia|].
  unfold stores in Hst. rewrite Ha in Hst.
  destruct Hst as (blk & Hblk & Hslots & Hcells).
  destruct fuel as [|fuel]; [lia|]. simpl.
  unfold size, capacity. wp_go.
  destruct (size_ b =? capacity_ b) eqn:E; [lia|]. wp_go.
  destruct (capacity_ b =? 0) eqn:E0; [lia|]. wp_go.
  rewrite Ha.
  rewrite (wrap_small (head_ b + capacity_ b)) by (rewrite SIZE_MOD_eq; lia).
  rewrite (wrap_small (head_ b + capacity_ b - 1)) by (rewrite SIZE_MOD_eq; lia).
  pose proof (Z.mod_pos_bound (head_ b + capacity_ b - 1) (capacity_ b)) as Hnh.
  eapply wp_construct_at; [done|..].
  { rewrite Hslots. lia. }
  { intros p' ->. by apply HR. }
  intros p' Hp'. wp_go. rewrite insert_insert_eq.
  unfold with_head, with_size; simpl.
  rewrite (wrap_small (size_ b + 1)) by (rewrite SIZE_MOD_eq; lia).
  apply HQ; [| |done].
  - destruct Hsh. constructor; simpl; try done; try lia.
  - unfold stores; simpl. rewrite Ha. eexists. rewrite lookup_insert_eq.
    split; [done|]. split; [done|]. simpl. intros i Hi.
    rewrite lookup_cons_Z by lia.
    destruct (decide (i = 0)) as [->|Hne].
    + rewrite Z.add_0_r, Z.mod_mod by lia. by rewrite lookup_insert_eq.
    + rewrite slot_pred by lia. rewrite lookup_insert_ne.
      2:{ replace (head_ b + capacity_ b - 1)
            with (head_ b + (capacity_ b - 1)) by lia.
          intros E'. apply slot_inj in E'; lia. }
      apply Hcells. lia.
Qed.

Lemma sizeof_bound : 1 ≤ Z.pos sizeof ≤ 9223372036854775807.
Proof. pose proof sizeof_max. unfold PTRDIFF_MAX in *. lia. Qed.

Lemma push_back_spec u fuel this b l v h o p Q R :
  repr_at (World h o p) this b l →
  (length l + 2 ≤ fuel)%nat →
  let n := if size_ b <? capacity_ b then capacity_ b
           else if capacity_ b =? 0 then 1 else 2 * capacity_ b in
  (∀ h' p' b',
     shape b' (l ++ [v]) → stores h' b' (l ++ [v]) → capacity_ b' = n →
     (p = [] → p' = []) →
     Q tt (World h' (<[this := b']> o) p')) →
  (∀ e h' p' b',
     shape b' l → stores h' b' l →
     capacity_ b' = capacity_ b ∨ capacity_ b' = n →
     (p = [] → size_ b = capacity_ b ∧ max_bytes < Z.pos sizeof * n) →
     R e (World h' (<[this := b']> o) p')) →
  wp u (push_back fuel this v) (World h o p) Q R.
Proof.
  intros Hr Hfuel n HQ HR. pose proof Hr as (Hb & Hsh & Hst). simpl in Hb, Hst.
  shape_facts Hsh. pose proof (shape_size _ _ Hsh) as Hlen.
  pose proof sizeof_bound as Hsz.
  pose proof (shape_bytes _ _ Hsh) as Hbytes. rewrite max_bytes_eq in Hbytes.
  destruct (decide (size_ b < capacity_ b)) as [Hroom|Hfull].
  - assert (n = capacity_ b) as Hn.
    { subst n. destruct (size_ b <? capacity_ b) eqn:E; [done|lia]. }
    eapply push_back_room; [done|done|lia|..].
    + intros h' p' b' Hsh' Hst' Hp'. apply HQ; try done; by rewrite Hn.
    + intros e p' Hp'. rewrite <- (insert_id o this b) by done.
      apply HR; [done|done|by left|]. intros ->. done.
  - assert (size_ b = capacity_ b) as Hsc by lia.
    assert (n = if capacity_ b =? 0 then 1 else 2 * capacity_ b) as Hn.
    { subst n. destruct (size_ b <? capacity_ b) eqn:E; [lia|done]. }
    assert (capacity_ b < n ∧ Z.pos sizeof * n < SIZE_MOD) as [Hgt Hwrap].
    { rewrite Hn, SIZE_MOD_eq. destruct (capacity_ b =? 0) eqn:E; lia. }
    destruct fuel as [|fuel]; [lia|]. simpl.
    unfold size, capacity. wp_go.
    destruct (size_ b =? capacity_ b) eqn:E; [|lia].
    replace (if capacity_ b =? 0 then 1 else wrap (capacity_ b * 2)) with n.
    2:{ rewrite Hn. destruct (capacity_ b =? 0); [done|].
        rewrite wrap_small; [lia|]. rewrite SIZE_MOD_eq. lia. }
    apply wp_bind. eapply ensure_capacity_grow; [done|done|done|lia|..].
    + intros d h1 p1 b1 Hsh1 Hst1 Hp1.
      eapply push_back_room; [split; [apply lookup_insert_eq|done]|simpl; lia|lia|..].
      * intros h2 p2 b2 Hsh2 Hst2 Hp2. rewrite insert_insert_eq.
        apply HQ; try done. intros ->. auto.
      * intros e p2 Hp2. apply HR; [done|done|by right|].
        intros ->. by destruct Hp2; auto.
    + intros e p' Hp'. rewrite <- (insert_id o this b) by done.
      apply HR; [done|done|by left|]. intros Hp. split; [done|]. by apply Hp'.
Qed.

Lemma push_front_spec u fuel this b l v h o p Q R :
  repr_at (World h o p) this b l →
  (length l + 2 ≤ fuel)%nat →
  let n := if size_ b <? capacity_ b then capacity_ b
           else if capacity_ b =? 0 then 1 else 2 * capacity_ b in
  (∀ h' p' b',
     shape b' (v :: l) → stores h' b' (v :: l) → capacity_ b' = n →
     (p = [] → p' = []) →
     Q tt (World h' (<[this := b']> o) p')) →
  (∀ e h' p' b',
     shape b' l → stores h' b' l →
     capacity_ b' = capacity_ b ∨ capacity_ b' = n →
     (p = [] → size_ b = capacity_ b ∧ max_bytes < Z.pos sizeof * n) →
     R e (World h' (<[this := b']> o) p')) →
  wp u (push_front fuel this v) (World h o p) Q R.
Proof.
  intros Hr Hfuel n HQ HR. pose proof Hr as (Hb & Hsh & Hst). simpl in Hb, Hst.
  shape_facts Hsh. pose proof (shape_size _ _ Hsh) as Hlen.
  pose proof sizeof_bound as Hsz.
  pose proof (shape_bytes _ _ Hsh) as Hbytes. rewrite max_bytes_eq in Hbytes.
  destruct (decide (size_ b < capacity_ b)) as [Hroom|Hfull].
  - assert (n = capacity_ b) as Hn.
    { subst n. destruct (size_ b <? capacity_ b) eqn:E; [done|lia]. }
    eapply push_front_room; [done|done|lia|..].
    + intros h' p' b' Hsh' Hst' Hp'. apply HQ; try done; by rewrite Hn.
    + intros e p' Hp'. rewrite <- (insert_id o this b) by done.
      apply HR; [done|done|by left|]. intros ->. done.
  - assert (size_ b = capacity_ b) as Hsc by lia.
    assert (n = if capacity_ b =? 0 then 1 else 2 * capacity_ b) as Hn.
    { subst n. destruct (size_ b <? capacity_ b) eqn:E; [lia|done]. }
    assert (capacity_ b < n ∧ Z.pos sizeof * n < SIZE_MOD) as [Hgt Hwrap].
    { rewrite Hn, SIZE_MOD_eq. destruct (capacity_ b =? 0) eqn:E; lia. }
    destruct fuel as [|fuel]; [lia|]. simpl.
    unfold size, capacity. wp_go.
    destruct (size_ b =? capacity_ b) eqn:E; [|lia].
    replace (if capacity_ b =? 0 then 1 else wrap (capacity_ b * 2)) with n.
    2:{ rewrite Hn. destruct (capacity_ b =? 0); [done|].
        rewrite wrap_small; [lia|]. rewrite SIZE_MOD_eq. lia. }
    apply wp_bind. eapply ensure_capacity_grow; [done|done|done|lia|..].
    + intros d h1 p1 b1 Hsh1 Hst1 Hp1.
      eapply push_front_room; [split; [apply lookup_insert_eq|done]|simpl; lia|lia|..].
      * intros h2 p2 b2 Hsh2 Hst2 Hp2. rewrite insert_insert_eq.
        apply HQ; try done. intros ->. auto.
      * intros e p2 Hp2. apply HR; [done|done|by right|].
        intros ->. by destruct Hp2; auto.
    + intros e p' Hp'. rewrite <- (insert_id o this b) by done.
      apply HR; [done|done|by left|]. intros Hp. split; [done|]. by apply Hp'.
Qed.

(** ** Reading a well-formed buffer *)

Lemma read_spec u this b l i v h o p Q R :
  repr_at (World h o p) this b l → 0 ≤ i → l !! Z.to_nat i = Some v →
  Q v (World h o p) →
  wp u (read this i) (World h o p) Q R.
Proof.
  intros (Hb & Hsh & Hst) Hi Hv HQ. simpl in Hb, Hst.
  shape_facts Hsh. pose proof (shape_size _ _ Hsh) as Hlen.
  apply lookup_lt_Some in Hv as Hlt.
  destruct (shape_data_some _ _ Hsh) as [a Ha]; [lia|].
  destruct (stores_lookup h b l a i v) as (blk & Hblk & Hslots & Hj & Hcell);
    [done..|].
  unfold read, op_index. wp_go.
  destruct (capacity_ b =? 0) eqn:E; [lia|]. wp_go.
  rewrite Ha, (shape_op_index _ _ _ Hsh) by lia.
  by eapply wp_load_at.
Qed.

Lemma repr_at_index w this l i :
  repr w this l → 0 ≤ i < Z.of_nat (length l) →
  at_ w this i = l !! Z.to_nat i.
Proof.
  intros [b Hr] Hi. destruct w as [h o p].
  destruct (lookup_lt_is_Some_2 l (Z.to_nat i)) as [v Hv]; [lia|].
  rewrite Hv. unfold at_.
  pose proof (read_spec False this b l i v h o p
                (λ x w', x = v) (λ _ _, False) Hr) as Hwp.
  unfold wp in Hwp. destruct (read this i _); try done.
  - f_equal. apply Hwp; [lia|done|done].
  - exfalso. apply Hwp; [lia|done|done].
  - exfalso. apply Hwp; [lia|done|done].
  - exfalso. apply Hwp; [lia|done|done].
Qed.

Lemma repr_contents w this l : repr w this l → contents w this = Some l.
Proof.
  intros Hr. pose proof Hr as [b (Hb & Hsh & Hst)].
  unfold contents. rewrite Hb. simpl.
  apply mapM_Some. apply Forall2_same_length_lookup.
  pose proof (shape_size _ _ Hsh) as Hlen.
  split.
  - rewrite length_seqZ. lia.
  - intros i x y Hx Hy. apply lookup_seqZ in Hx as [-> Hlt].
    rewrite repr_at_index with (l := l); [|done|lia].
    rewrite Z.add_0_l, Nat2Z.id. done.
Qed.

Lemma repr_size w this l :
  repr w this l → size this w = Done (Z.of_nat (length l)) w.
Proof.
  intros [b (Hb & Hsh & _)]. unfold size, bind, get_obj, ret. rewrite Hb.
  by rewrite (shape_size _ _ Hsh).
Qed.

(** ** C1: sequences of end operations refine the reference deque *)

Lemma default_spec u h o p Q R :
  (∀ this, o !! this = None →
     repr_at (World h (<[this := Buf None 0 0 0]> o) p) this (Buf None 0 0 0) [] →
     Q this (World h (<[this := Buf None 0 0 0]> o) p)) →
  wp u circular_buffer_default (World h o p) Q R.
Proof.
  intros HQ. unfold circular_buffer_default. apply wp_new_obj. intros this Hthis.
  apply HQ; [done|]. split; [apply lookup_insert_eq|]. split; [|done].
  constructor; simpl; try done; try lia.
Qed.

Lemma run_ops_spec fuel this : ∀ ops k b q h o p l,
  repr_at (World h o p) this b q →
  deque_run ops q = Some l →
  (length q + length ops + 2 ≤ fuel)%nat →
  size_ b ≤ k → capacity_ b ≤ 2 * k →
  wp False (run_ops fuel this ops) (World h o p)
    (λ _ w', repr w' this l ∧ (p = [] → calm w'))
    (λ _ _, ¬ (p = [] ∧
               Z.pos sizeof * (2 * (k + Z.of_nat (length ops))) ≤ max_bytes)).
Proof.
  induction ops as [|op ops IH]; intros k b q h o p l Hr Hrun Hfuel Hk Hck.
  { simpl in *. simplify_eq. apply wp_ret. split; [by exists b|done]. }
  simpl in Hrun. destruct (deque_step op q) as [q'|] eqn:Hstep; [|done].
  simpl in Hrun, Hfuel.
  pose proof Hr as (Hb & Hsh & Hst).
  shape_facts Hsh. pose proof (shape_size _ _ Hsh) as Hlen.
  pose proof sizeof_bound as Hsz.
  simpl. apply wp_bind. destruct op as [v|v| |]; simpl in *; simplify_eq.
  - eapply push_back_spec; [done|lia|..].
    + intros h' p' b' Hsh' Hst' Hcap Hp'.
      pose proof (shape_size _ _ Hsh') as Hlen'. rewrite length_app in Hlen'. simpl in Hlen'.
      eapply wp_mono; [eapply (IH (k + 1)); [split; [apply lookup_insert_eq|done]|done|..]|..].
      * rewrite length_app. simpl. lia.
      * lia.
      * rewrite Hcap. repeat case_match; lia.
      * intros r w' [? Hcalm]. split; [done|]. intros ->. auto.
      * intros e w' Hn [-> Hfit]. apply Hn. split; [auto|].
        replace (k + 1 + Z.of_nat (length ops)) with (k + Z.of_nat (S (length ops))) by lia.
        done.
    + intros e h' p' b' _ _ _ Hcause [-> Hfit]. destruct Hcause as [Hfull Hbig]; [done|].
      assert (Hn : (if size_ b <? capacity_ b then capacity_ b
                    else if capacity_ b =? 0 then 1 else 2 * capacity_ b)
                   ≤ 2 * (k + Z.of_nat (S (length ops)))).
      { repeat case_match; lia. }
      nia.
  - eapply push_front_spec; [done|lia|..].
    + intros h' p' b' Hsh' Hst' Hcap Hp'.
      pose proof (shape_size _ _ Hsh') as Hlen'. simpl in Hlen'.
      eapply wp_mono; [eapply (IH (k + 1)); [split; [apply lookup_insert_eq|done]|done|..]|..].
      * simpl. lia.
      * lia.
      * rewrite Hcap. repeat case_match; lia.
      * intros r w' [? Hcalm]. split; [done|]. intros ->. auto.
      * intros e w' Hn [-> Hfit]. apply Hn. split; [auto|].
        replace (k + 1 + Z.of_nat (length ops)) with (k + Z.of_nat (S (length ops))) by lia.
        done.
    + intros e h' p' b' _ _ _ Hcause [-> Hfit]. destruct Hcause as [Hfull Hbig]; [done|].
      assert (Hn : (if size_ b <? capacity_ b then capacity_ b
                    else if capacity_ b =? 0 then 1 else 2 * capacity_ b)
                   ≤ 2 * (k + Z.of_nat (S (length ops)))).
      { repeat case_match; lia. }
      nia.
  - destruct q as [|x q _] using rev_ind; [done|].
    assert (q' = q) as ->.
    { destruct (q ++ [x]) eqn:E; [by destruct q|]. rewrite <- E in Hstep.
      rewrite removelast_last in Hstep. congruence. }
    rewrite length_app in Hlen, Hfuel. simpl in Hlen, Hfuel.
    eapply pop_back_spec; [done|]. intros h' b' Hsh' Hst' _.
    eapply wp_mono; [eapply (IH k); [split; [apply lookup_insert_eq|done]|done|..]|..].
    + lia.
    + simpl. lia.
    + simpl. lia.
    + done.
    + intros e w' Hn [-> Hfit]. apply Hn. split; [done|]. nia.
  - destruct q as [|x q]; [done|]. simplify_eq. simpl in Hlen, Hfuel.
    eapply pop_front_spec; [done|]. intros h' b' Hsh' Hst' _.
    eapply wp_mono; [eapply (IH k); [split; [apply lookup_insert_eq|done]|done|..]|..].
    + lia.
    + simpl. lia.
    + simpl. lia.
    + done.
    + intros e w' Hn [-> Hfit]. apply Hn. split; [done|]. nia.
Qed.

Lemma repr_capacity w this b l :
  repr_at w this b l → capacity this w = Done (capacity_ b) w.
Proof.
  intros (Hb & _). unfold capacity, bind, get_obj, ret. by rewrite Hb.
Qed.

Lemma capacity_inv w this c w' :
  capacity this w = Done c w' →
  ∃ b, objs w !! this = Some b ∧ capacity_ b = c ∧ w' = w.
Proof.
  unfold capacity, bind, get_obj, ret. destruct (objs w !! this) as [b|]; [|done].
  intros [= <- <-]. eauto.
Qed.

(** C1. For every sequence of push_back / push_front / pop_back / pop_front
    in which each pop meets a non-empty buffer (the reference deque accepts
    the sequence), run on a default-constructed buffer: the run involves no
    undefined behaviour and terminates; when it returns, the logical content
    (indices 0 .. size - 1 through operator[]) is the content of the
    reference deque after the same sequence; and it does return unless a
    failure is scripted or the storage needed exceeds what the allocator
    can give. *)
Theorem C1_end_operations_refine_deque (ops : list deque_op) (l : list T)
    (fuel : nat) (w w1 : world) (this : objid) :
  circular_buffer_default w = Done this w1 →
  deque_run ops [] = Some l →
  (length ops + 2 ≤ fuel)%nat →
  match run_ops fuel this ops w1 with
  | Done _ w' => contents w' this = Some l
  | Thrown _ _ =>
      ¬ (calm w ∧ Z.pos sizeof * (2 * Z.of_nat (length ops)) ≤ max_bytes)
  | Undefined | Exhausted => False
  end.
Proof.
  intros Hctor Hrun Hfuel. destruct w as [h o p].
  pose proof (default_spec False h o p
    (λ x w', x = this → w' = w1 →
       repr_at w1 this (Buf None 0 0 0) [] ∧ pending w1 = p) (λ _ _, True)) as Hd.
  unfold wp in Hd. rewrite Hctor in Hd.
  destruct Hd as [Hr Hp]; [|done|done|].
  { intros x Hx Hrx -> <-. done. }
  destruct w1 as [h1 o1 p1]. simpl in Hp. subst p1.
  pose proof (run_ops_spec fuel this ops 0 _ [] h1 o1 p l Hr Hrun) as Hwp.
  unfold wp in Hwp. simpl in Hwp.
  destruct (run_ops fuel this ops _) as [[] w'|e w'| |].
  - apply repr_contents. apply Hwp; simpl; lia.
  - intros [Hc Hfit]. apply Hwp; simpl; try lia. split; [done|].
    by rewrite Z.add_0_l.
  - apply Hwp; simpl; lia.
  - apply Hwp; simpl; lia.
Qed.

(** C3. A push (at either end) on a buffer whose size equals its capacity
    [c] leaves, when it returns, a buffer of capacity 1 if [c = 0] and
    [2 * c] otherwise; it does return unless a failure is scripted or the
    doubled storage exceeds what the allocator can give. *)
Theorem C3_push_on_full_doubles_capacity (fuel : nat) (this : objid)
    (l : list T) (v : T) (w : world) (c : Z) :
  repr w this l →
  capacity this w = Done c w →
  c = Z.of_nat (length l) →
  (length l + 2 ≤ fuel)%nat →
  let n := if c =? 0 then 1 else 2 * c in
  match push_back fuel this v w with
  | Done _ w' => capacity this w' = Done n w'
  | Thrown _ _ => ¬ (calm w ∧ Z.pos sizeof * n ≤ max_bytes)
  | Undefined | Exhausted => False
  end ∧
  match push_front fuel this v w with
  | Done _ w' => capacity this w' = Done n w'
  | Thrown _ _ => ¬ (calm w ∧ Z.pos sizeof * n ≤ max_bytes)
  | Undefined | Exhausted => False
  end.
Proof.
  intros [b Hr] Hcap Hc Hfuel n. destruct w as [h o p].
  pose proof Hr as (Hb & Hsh & _). simpl in Hb.
  apply capacity_inv in Hcap as (b0 & Hb0 & Hcap & _). simpl in Hb0.
  assert (b0 = b) as -> by congruence.
  pose proof (shape_size _ _ Hsh) as Hlen.
  assert (Hn : (if size_ b <? capacity_ b then capacity_ b
                else if capacity_ b =? 0 then 1 else 2 * capacity_ b) = n).
  { subst n. rewrite Hcap. destruct (size_ b <? c) eqn:E; [lia|done]. }
  split.
  - pose proof (push_back_spec False fuel this b l v h o p
      (λ _ w', capacity this w' = Done n w')
      (λ _ _, ¬ (p = [] ∧ Z.pos sizeof * n ≤ max_bytes)) Hr Hfuel) as Hwp.
    unfold wp in Hwp. destruct (push_back fuel this v _); apply Hwp.
    all: try (intros h' p' b' Hsh' Hst' Hc' Hp'; simpl;
              unfold capacity, bind, get_obj, ret; simpl;
              rewrite lookup_insert_eq; congruence).
    all: intros ? h' p' b' _ _ _ Hcause [-> Hfit];
      destruct Hcause as [_ Hbig]; [done|]; rewrite Hn in Hbig; lia.
  - pose proof (push_front_spec False fuel this b l v h o p
      (λ _ w', capacity this w' = Done n w')
      (λ _ _, ¬ (p = [] ∧ Z.pos sizeof * n ≤ max_bytes)) Hr Hfuel) as Hwp.
    unfold wp in Hwp. destruct (push_front fuel this v _); apply Hwp.
    all: try (intros h' p' b' Hsh' Hst' Hc' Hp'; simpl;
              unfold capacity, bind, get_obj, ret; simpl;
              rewrite lookup_insert_eq; congruence).
    all: intros ? h' p' b' _ _ _ Hcause [-> Hfit];
      destruct Hcause as [_ Hbig]; [done|]; rewrite Hn in Hbig; lia.
Qed.

(** ** Swapping two elements of a well-formed buffer *)

Lemma shape_insert b l (k : nat) (v : T) :
  shape b l → shape b (<[k := v]> l).
Proof. intros []. constructor; try done. by rewrite length_insert. Qed.

(** Assigning to the slot of a logical index. *)
Lemma stores_insert h b l a blk i v :
  shape b l → stores h b l → data_ b = Some a → h !! a = Some blk →
  0 ≤ i < Z.of_nat (length l) →
  stores (<[a := Block (slots blk)
                   (<[(head_ b + i) mod capacity_ b := v]> (cells blk))]> h)
    b (<[Z.to_nat i := v]> l).
Proof.
  intros Hsh Hst Ha Hblk Hi. shape_facts Hsh.
  pose proof (shape_size _ _ Hsh) as Hlen.
  unfold stores in *. rewrite Ha in *.
  destruct Hst as (blk' & Hblk' & Hslots & Hcells).
  assert (blk' = blk) as -> by congruence.
  eexists. rewrite lookup_insert_eq. split; [done|]. split; [done|].
  simpl. intros k Hk.
  destruct (decide (k = i)) as [->|Hki].
  - rewrite lookup_insert_eq. rewrite list_lookup_insert_eq; [done|lia].
  - rewrite lookup_insert_ne.
    2:{ intros E. apply slot_inj in E; lia. }
    rewrite list_lookup_insert_ne by lia. by apply Hcells.
Qed.

Lemma iter_swap_spec u this b l i j vi vj h o p Q R :
  repr_at (World h o p) this b l → 0 ≤ i → 0 ≤ j →
  l !! Z.to_nat i = Some vi → l !! Z.to_nat j = Some vj →
  (∀ h' p', (p = [] → p' = []) →
     let l' := <[Z.to_nat j := vi]> (<[Z.to_nat i := vj]> l) in
     shape b l' → stores h' b l' → Q tt (World h' o p')) →
  (∀ e h' p' l', p ≠ [] → length l' = length l →
     shape b l' → stores h' b l' → R e (World h' o p')) →
  wp u (iter_swap (Iter this i) (Iter this j)) (World h o p) Q R.
Proof.
  intros (Hb & Hsh & Hst) Hi Hj Hvi Hvj HQ HR. simpl in Hb, Hst.
  shape_facts Hsh. pose proof (shape_size _ _ Hsh) as Hlen.
  apply lookup_lt_Some in Hvi as Hilt. apply lookup_lt_Some in Hvj as Hjlt.
  destruct (shape_data_some _ _ Hsh) as [a Ha]; [lia|].
  destruct (stores_lookup h b l a i vi) as (blk & Hblk & Hslots & Hsi & Hci);
    [done..|].
  destruct (stores_lookup h b l a j vj) as (blk' & Hblk' & _ & Hsj & Hcj);
    [done..|].
  assert (blk' = blk) as -> by congruence.
  unfold iter_swap.
  apply wp_bind. eapply wp_deref_at; [done|lia|].
  apply wp_bind. eapply wp_deref_at; [done|lia|].
  rewrite !(shape_real_index _ _ _ Hsh) by lia. rewrite Ha.
  apply wp_bind. eapply wp_load_at; [done..|].
  apply wp_bind. apply wp_may_throw.
  { intros p1 ->. by apply (HR _ h p1 l). }
  intros p1 _ Hp1.
  apply wp_bind. eapply wp_load_at; [done..|].
  apply wp_bind. apply wp_may_throw.
  { intros p2 Hp2. apply (HR _ h p2 l); try done. intros ->. by rewrite Hp1 in Hp2. }
  intros p2 _ Hp2.
  apply wp_bind. eapply wp_assign_at; [done..|].
  set (si := (head_ b + i) mod capacity_ b) in *.
  set (sj := (head_ b + j) mod capacity_ b) in *.
  set (blk1 := Block (slots blk) (<[si := vj]> (cells blk))).
  set (l1 := <[Z.to_nat i := vj]> l).
  assert (Hsh1 : shape b l1) by by apply shape_insert.
  assert (Hst1 : stores (<[a := blk1]> h) b l1).
  { apply stores_insert; try done. lia. }
  apply wp_bind. apply wp_may_throw.
  { intros p3 Hp3. apply (HR _ _ p3 l1); try done.
    - intros ->. rewrite Hp1 in Hp2 by done. by rewrite Hp2 in Hp3.
    - unfold l1. by rewrite length_insert. }
  intros p3 _ Hp3.
  assert (is_Some (cells blk1 !! sj)) as [v0 Hv0].
  { simpl. destruct (decide (si = sj)) as [->|].
    - rewrite lookup_insert_eq. eauto.
    - rewrite lookup_insert_ne by done. eauto. }
  eapply wp_assign_at; [apply lookup_insert_eq|done|done|].
  apply HQ.
  - intros Hp. auto.
  - by apply shape_insert.
  - pose proof (stores_insert (<[a := blk1]> h) b l1 a blk1 j vi Hsh1 Hst1 Ha
                  ltac:(apply lookup_insert_eq)) as Hst2.
    apply Hst2. unfold l1. rewrite length_insert. lia.
Qed.

(** ** The shifting loops of [insert] *)

Lemma inserted_step l (v x : T) (k : nat) :
  l !! k = Some x →
  <[S k := v]> (<[k := x]> (take k l ++ v :: drop k l))
  = take (S k) l ++ v :: drop (S k) l.
Proof.
  intros Hx. apply lookup_lt_Some in Hx as Hlt.
  rewrite (drop_S l x k) by done.
  rewrite (take_S_r l k x) by done.
  assert (Hlen : length (take k l) = k) by (rewrite length_take; lia).
  rewrite insert_app_r_alt by lia. rewrite Hlen, Nat.sub_diag. simpl.
  rewrite insert_app_r_alt by lia. rewrite Hlen.
  replace (S k - k)%nat with 1%nat by lia. simpl.
  by rewrite <- app_assoc.
Qed.

Lemma inserted_step_back l (v x : T) (k : nat) :
  l !! k = Some x →
  <[k := v]> (<[S k := x]> (take (S k) l ++ v :: drop (S k) l))
  = take k l ++ v :: drop k l.
Proof.
  intros Hx. apply lookup_lt_Some in Hx as Hlt.
  rewrite (drop_S l x k) by done.
  rewrite (take_S_r l k x) by done.
  assert (Hlen : length (take k l) = k) by (rewrite length_take; lia).
  rewrite <- app_assoc. simpl.
  rewrite insert_app_r_alt by lia. rewrite Hlen.
  replace (S k - k)%nat with 1%nat by lia. simpl.
  rewrite insert_app_r_alt by lia. rewrite Hlen, Nat.sub_diag. done.
Qed.

Lemma inserted_length l (v : T) (k : nat) :
  length (take k l ++ v :: drop k l) = S (length l).
Proof.
  rewrite length_app, length_take. simpl. rewrite length_drop. lia.
Qed.

Lemma inserted_lookup l (v : T) (k : nat) :
  (k ≤ length l)%nat → (take k l ++ v :: drop k l) !! k = Some v.
Proof.
  intros Hk. rewrite lookup_app_r by (rewrite length_take; lia).
  rewrite length_take. replace (k - k `min` length l)%nat with 0%nat by lia. done.
Qed.

Lemma inserted_lookup_S l (v x : T) (k : nat) :
  l !! k = Some x → (take k l ++ v :: drop k l) !! S k = Some x.
Proof.
  intros Hx. apply lookup_lt_Some in Hx as Hlt.
  rewrite lookup_app_r by (rewrite length_take; lia).
  rewrite length_take. replace (S k - k `min` length l)%nat with 1%nat by lia.
  simpl. rewrite lookup_drop. by rewrite Nat.add_0_r.
Qed.

Lemma inserted_lookup_pred l (v x : T) (k : nat) :
  l !! k = Some x → (take (S k) l ++ v :: drop (S k) l) !! k = Some x.
Proof.
  intros Hx. apply lookup_lt_Some in Hx as Hlt.
  rewrite lookup_app_l by (rewrite length_take; lia).
  rewrite lookup_take_lt by lia. done.
Qed.

Lemma insert_shift_up_spec u this b l v d fuel : ∀ k h o p Q R,
  repr_at (World h o p) this b (take (Z.to_nat k) l ++ v :: drop (Z.to_nat k) l) →
  0 ≤ k ≤ d → d ≤ Z.of_nat (length l) →
  (Z.to_nat (d - k) < fuel)%nat →
  (∀ h' p', (p = [] → p' = []) →
     let l' := take (Z.to_nat d) l ++ v :: drop (Z.to_nat d) l in
     shape b l' → stores h' b l' → Q tt (World h' o p')) →
  (∀ e h' p' l', p ≠ [] → length l' = S (length l) →
     shape b l' → stores h' b l' → R e (World h' o p')) →
  wp u (insert_shift_up fuel (Iter this k) (Iter this d)) (World h o p) Q R.
Proof.
  induction fuel as [|fuel IH]; intros k h o p Q R Hr Hk Hd Hfuel HQ HR; [lia|].
  pose proof Hr as (Hb & Hsh & Hst).
  shape_facts Hsh. pose proof (shape_size _ _ Hsh) as Hlen.
  rewrite inserted_length in Hlen.
  simpl. unfold it_lt, it_eq, it_gt; simpl.
  rewrite bool_decide_eq_true_2 by done. simpl.
  destruct (decide (k = d)) as [->|Hne].
  { rewrite Z.eqb_refl. simpl. apply wp_ret. by apply HQ. }
  destruct (k =? d) eqn:E1; [lia|]. destruct (d <? k) eqn:E2; [lia|]. simpl.
  destruct (lookup_lt_is_Some_2 l (Z.to_nat k)) as [x Hx]; [lia|].
  apply wp_bind. unfold it_add; simpl.
  rewrite (wrap_small (k + 1)) by (rewrite SIZE_MOD_eq; lia).
  eapply iter_swap_spec; [done|lia|lia|..].
  { apply inserted_lookup. lia. }
  { replace (Z.to_nat (k + 1)) with (S (Z.to_nat k)) by lia.
    by apply inserted_lookup_S. }
  2:{ intros e h' p' l' Hp Hl'. apply HR; [done|].
      by rewrite Hl', inserted_length. }
  intros h' p' Hp' l' Hsh' Hst'. subst l'.
  replace (Z.to_nat (k + 1)) with (S (Z.to_nat k)) in * by lia.
  rewrite inserted_step in * by done.
  unfold it_incr; simpl.
  rewrite (wrap_small (k + 1)) by (rewrite SIZE_MOD_eq; lia).
  eapply IH; [|lia|lia|lia|..].
  - replace (Z.to_nat (k + 1)) with (S (Z.to_nat k)) by lia.
    split; [done|]. split; done.
  - intros h2 p2 Hp2. apply HQ. auto.
  - intros e h2 p2 l2 Hp2. apply HR. intros ->. auto.
Qed.

Lemma insert_shift_down_spec u this b l v d fuel : ∀ k h o p Q R,
  repr_at (World h o p) this b (take (Z.to_nat k) l ++ v :: drop (Z.to_nat k) l) →
  0 ≤ d ≤ k → k ≤ Z.of_nat (length l) →
  (Z.to_nat (k - d) < fuel)%nat →
  (∀ h' p', (p = [] → p' = []) →
     let l' := take (Z.to_nat d) l ++ v :: drop (Z.to_nat d) l in
     shape b l' → stores h' b l' → Q tt (World h' o p')) →
  (∀ e h' p' l', p ≠ [] → length l' = S (length l) →
     shape b l' → stores h' b l' → R e (World h' o p')) →
  wp u (insert_shift_down fuel (Iter this k) (Iter this d)) (World h o p) Q R.
Proof.
  induction fuel as [|fuel IH]; intros k h o p Q R Hr Hk Hd Hfuel HQ HR; [lia|].
  pose proof Hr as (Hb & Hsh & Hst).
  shape_facts Hsh. pose proof (shape_size _ _ Hsh) as Hlen.
  rewrite inserted_length in Hlen.
  simpl. unfold it_gt; simpl.
  rewrite bool_decide_eq_true_2 by done. simpl.
  destruct (d <? k) eqn:E; simpl.
  2:{ assert (k = d) as -> by lia. apply wp_ret. by apply HQ. }
  assert (Hk1 : Z.to_nat k = S (Z.to_nat (k - 1))) by lia.
  destruct (lookup_lt_is_Some_2 l (Z.to_nat (k - 1))) as [x Hx]; [lia|].
  apply wp_bind. unfold it_sub, it_add; simpl.
  replace (k + - (1)) with (k - 1) by lia.
  rewrite (wrap_small (k - 1)) by (rewrite SIZE_MOD_eq; lia).
  eapply iter_swap_spec; [done|lia|lia|..].
  { apply inserted_lookup. lia. }
  { rewrite Hk1. by apply inserted_lookup_pred. }
  2:{ intros e h' p' l' Hp Hl'. apply HR; [done|].
      by rewrite Hl', inserted_length. }
  intros h' p' Hp' l' Hsh' Hst'. subst l'.
  rewrite Hk1 in Hsh', Hst'. rewrite inserted_step_back in * by done.
  unfold it_decr; simpl.
  rewrite (wrap_small (k - 1)) by (rewrite SIZE_MOD_eq; lia).
  eapply IH; [|lia|lia|lia|..].
  - split; [done|]. split; done.
  - intros h2 p2 Hp2. apply HQ. auto.
  - intros e h2 p2 l2 Hp2. apply HR. intros ->. auto.
Qed.

(** ** [insert] on a well-formed buffer *)

Lemma insert_spec u fuel this b l v d pos h o p Q R :
  repr_at (World h o p) this b l →
  offset_ pos = d → 0 ≤ d ≤ Z.of_nat (length l) →
  (length l + 3 ≤ fuel)%nat →
  (∀ h' p' b',
     let l' := take (Z.to_nat d) l ++ v :: drop (Z.to_nat d) l in
     shape b' l' → stores h' b' l' → (p = [] → p' = []) →
     Q (Iter this d) (World h' (<[this := b']> o) p')) →
  (∀ e h' p' b' l',
     l' = l ∨ length l' = S (length l) →
     shape b' l' → stores h' b' l' →
     (p = [] → max_bytes < Z.pos sizeof * (2 * Z.of_nat (length l) + 1)) →
     R e (World h' (<[this := b']> o) p')) →
  wp u (insert fuel this pos v) (World h o p) Q R.
Proof.
  intros Hr Hpos Hd Hfuel HQ HR. pose proof Hr as (Hb & Hsh & Hst). simpl in Hb.
  shape_facts Hsh. pose proof (shape_size _ _ Hsh) as Hlen.
  pose proof sizeof_bound as Hsz.
  unfold insert, it_diff, begin, size; simpl. rewrite Hpos, Z.sub_0_r.
  rewrite to_ptrdiff_small by (change (2 ^ 63) with 9223372036854775808; lia).
  rewrite (wrap_small d) by (rewrite SIZE_MOD_eq; lia).
  wp_go.
  assert (Hthrow : ∀ e h' p' b',
    shape b' l → stores h' b' l →
    capacity_ b' = capacity_ b ∨
      capacity_ b' = (if size_ b <? capacity_ b then capacity_ b
                      else if capacity_ b =? 0 then 1 else 2 * capacity_ b) →
    (p = [] → size_ b = capacity_ b ∧
       max_bytes < Z.pos sizeof *
         (if size_ b <? capacity_ b then capacity_ b
          else if capacity_ b =? 0 then 1 else 2 * capacity_ b)) →
    R e (World h' (<[this := b']> o) p')).
  { intros e h' p' b' Hsh' Hst' _ Hcause. apply (HR _ _ _ _ l); [by left|done|done|].
    intros Hp. destruct (Hcause Hp) as [Hfull Hbig].
    assert ((if size_ b <? capacity_ b then capacity_ b
             else if capacity_ b =? 0 then 1 else 2 * capacity_ b)
            ≤ 2 * Z.of_nat (length l) + 1) by (repeat case_match; lia).
    nia. }
  assert (Hshift : ∀ e h1 p1 b1 h' p' l',
    (p = [] → p1 = []) → p1 ≠ [] → length l' = S (length l) →
    shape b1 l' → stores h' b1 l' →
    R e (World h' (<[this := b1]> o) p')).
  { intros e h1 p1 b1 h' p' l' Hp1 Hne Hl' Hsh' Hst'.
    apply (HR _ _ _ _ l'); [by right|done|done|]. intros Hp. by apply Hp1 in Hp. }
  destruct (d <? size_ b / 2) eqn:Ehalf.
  - apply wp_bind. eapply push_front_spec; [done|lia| |done].
    intros h1 p1 b1 Hsh1 Hst1 _ Hp1.
    unfold it_add; simpl. rewrite Z.add_0_l, (wrap_small d) by (rewrite SIZE_MOD_eq; lia).
    apply wp_bind.
    eapply (insert_shift_up_spec u this b1 l v d fuel 0);
      [split; [apply lookup_insert_eq|done]|lia|lia|lia|..].
    + intros h2 p2 Hp2 l2 Hsh2 Hst2. apply wp_ret. apply HQ; auto.
    + intros e h2 p2 l2 Hne Hl2 Hsh2 Hst2. by eapply Hshift.
  - apply wp_bind. eapply push_back_spec; [done|lia| |done].
    intros h1 p1 b1 Hsh1 Hst1 _ Hp1.
    pose proof (shape_size _ _ Hsh1) as Hlen1.
    rewrite length_app in Hlen1; simpl in Hlen1.
    unfold it_add, end_; simpl. rewrite Z.add_0_l, (wrap_small d) by (rewrite SIZE_MOD_eq; lia).
    wp_go. unfold it_sub, it_add; simpl.
    replace (size_ b1 + - (1)) with (Z.of_nat (length l)) by lia.
    rewrite (wrap_small (Z.of_nat (length l))) by (rewrite SIZE_MOD_eq; lia).
    eapply (insert_shift_down_spec u this b1 l v d fuel (Z.of_nat (length l)));
      [|lia|lia|lia|..].
    { rewrite Nat2Z.id, firstn_all, drop_all.
      split; [apply lookup_insert_eq|done]. }
    + intros h2 p2 Hp2 l2 Hsh2 Hst2. apply wp_ret. apply HQ; auto.
    + intros e h2 p2 l2 Hne Hl2 Hsh2 Hst2. by eapply Hshift.
Qed.

Lemma inserted_lookup_lt l (v : T) (k i : nat) :
  (i < k)%nat → (k ≤ length l)%nat →
  (take k l ++ v :: drop k l) !! i = l !! i.
Proof.
  intros Hi Hk. rewrite lookup_app_l by (rewrite length_take; lia).
  by rewrite lookup_take_lt by lia.
Qed.

Lemma inserted_lookup_ge l (v : T) (k i : nat) :
  (k ≤ i)%nat → (k ≤ length l)%nat →
  (take k l ++ v :: drop k l) !! S i = l !! i.
Proof.
  intros Hi Hk. rewrite lookup_app_r by (rewrite length_take; lia).
  rewrite length_take. replace (S i - k `min` length l)%nat with (S (i - k)) by lia.
  simpl. rewrite lookup_drop. f_equal. lia.
Qed.

(** C4. On a well-formed buffer holding [l], [insert (begin () + d, v)] with
    [0 <= d <= size] involves no undefined behaviour and terminates; when it
    returns, it returns the position [begin () + d], the element read at
    index [d] is [v], the elements of the indices below [d] are where they
    were, those of the indices [d ..] are one index later, and the size has
    grown by one; it does return unless a failure is scripted or the storage
    needed exceeds what the allocator can give. *)
Theorem C4_insert_places_value (fuel : nat) (this : objid) (l : list T)
    (v : T) (d : Z) (w : world) :
  repr w this l →
  0 ≤ d ≤ Z.of_nat (length l) →
  (length l + 3 ≤ fuel)%nat →
  match insert fuel this (it_add (begin this) d) v w with
  | Done it w' =>
      it = it_add (begin this) d ∧
      at_ w' this d = Some v ∧
      (∀ i, 0 ≤ i < d → at_ w' this i = at_ w this i) ∧
      (∀ i, d ≤ i < Z.of_nat (length l) → at_ w' this (i + 1) = at_ w this i) ∧
      size this w' = Done (Z.of_nat (length l) + 1) w'
  | Thrown _ _ =>
      ¬ (calm w ∧ Z.pos sizeof * (2 * Z.of_nat (length l) + 1) ≤ max_bytes)
  | Undefined | Exhausted => False
  end.
Proof.
  intros Hrepr Hd Hfuel. pose proof Hrepr as [b Hr]. destruct w as [h o p].
  pose proof Hr as (Hb & Hsh & Hst).
  shape_facts Hsh. pose proof (shape_size _ _ Hsh) as Hlen.
  assert (Hoff : offset_ (it_add (begin this) d) = d).
  { unfold it_add, begin; simpl. rewrite Z.add_0_l.
    apply wrap_small. rewrite SIZE_MOD_eq. lia. }
  pose proof (insert_spec False fuel this b l v d (it_add (begin this) d) h o p
    (λ it w', it = Iter this d ∧
       repr w' this (take (Z.to_nat d) l ++ v :: drop (Z.to_nat d) l))
    (λ _ _, ¬ (p = [] ∧ Z.pos sizeof * (2 * Z.of_nat (length l) + 1) ≤ max_bytes))
    Hr Hoff Hd Hfuel) as Hwp.
  unfold wp in Hwp.
  assert (Hit : it_add (begin this) d = Iter this d).
  { unfold it_add, begin in *; simpl in *. by rewrite Hoff. }
  specialize (Hwp ltac:(intros h' p' b' Hsh' Hst' Hp'; split; [done|];
                        exists b'; split; [apply lookup_insert_eq|done])).
  specialize (Hwp ltac:(intros ? h' p' b' l' _ _ _ Hcause [-> Hfit];
                        specialize (Hcause eq_refl); lia)).
  destruct (insert fuel this _ v _) as [it w'| | |]; try done.
  destruct Hwp as [-> Hr'].
  set (l' := take (Z.to_nat d) l ++ v :: drop (Z.to_nat d) l) in *.
  assert (Hlen' : length l' = S (length l)) by apply inserted_length.
  split; [by rewrite Hit|]. split; [|split; [|split]].
  - rewrite (repr_at_index _ _ l') by (done || lia).
    apply inserted_lookup. lia.
  - intros i Hi. rewrite (repr_at_index _ _ l'), (repr_at_index _ _ l) by (done || lia).
    apply inserted_lookup_lt; lia.
  - intros i Hi. rewrite (repr_at_index _ _ l'), (repr_at_index _ _ l) by (done || lia).
    replace (Z.to_nat (i + 1)) with (S (Z.to_nat i)) by lia.
    apply inserted_lookup_ge; lia.
  - rewrite (repr_size _ _ l') by done. rewrite Hlen'. do 2 f_equal. lia.
Qed.

(** ** The loops of [erase] *)

Lemma INT_MAX_eq : INT_MAX = 2147483647.
Proof. reflexivity. Qed.

Lemma pop_back_loop_spec u this delta fuel : ∀ i L b h o p Q R,
  repr_at (World h o p) this b L →
  0 ≤ i ≤ delta → delta - i ≤ Z.of_nat (length L) → delta ≤ INT_MAX →
  (Z.to_nat (delta - i) < fuel)%nat →
  (∀ h' b', let L' := take (length L - Z.to_nat (delta - i)) L in
     shape b' L' → stores h' b' L' →
     Q tt (World h' (<[this := b']> o) p)) →
  wp u (pop_loop fuel (pop_back this) i delta) (World h o p) Q R.
Proof.
  induction fuel as [|fuel IH]; intros i L b h o p Q R Hr Hi HL Hmax Hfuel HQ; [lia|].
  pose proof Hr as (Hb & Hsh & Hst). simpl in Hb.
  simpl. destruct (i <? delta) eqn:E.
  - destruct L as [|x L _] using rev_ind; [simpl in HL; lia|].
    rewrite length_app in HL, HQ. simpl in HL, HQ.
    apply wp_bind. eapply pop_back_spec; [done|].
    intros h1 b1 Hsh1 Hst1 _.
    destruct (i =? INT_MAX) eqn:E'; [lia|].
    eapply IH; [split; [apply lookup_insert_eq|done]|lia|lia|lia|lia|].
    intros h2 b2 L2 Hsh2 Hst2. rewrite insert_insert_eq. subst L2.
    replace (Z.to_nat (delta - (i + 1))) with (Z.to_nat (delta - i) - 1)%nat
      in * by lia.
    apply HQ.
    all: rewrite take_app_le by lia.
    all: by replace (length L + 1 - Z.to_nat (delta - i))%nat
           with (length L - (Z.to_nat (delta - i) - 1))%nat by lia.
  - apply wp_ret. rewrite <- (insert_id o this b) by done.
    apply HQ; replace (Z.to_nat (delta - i)) with 0%nat by lia;
      by rewrite Nat.sub_0_r, firstn_all.
Qed.

Lemma pop_front_loop_spec u this delta fuel : ∀ i L b h o p Q R,
  repr_at (World h o p) this b L →
  0 ≤ i ≤ delta → delta - i ≤ Z.of_nat (length L) → delta ≤ INT_MAX →
  (Z.to_nat (delta - i) < fuel)%nat →
  (∀ h' b', let L' := drop (Z.to_nat (delta - i)) L in
     shape b' L' → stores h' b' L' →
     Q tt (World h' (<[this := b']> o) p)) →
  wp u (pop_loop fuel (pop_front this) i delta) (World h o p) Q R.
Proof.
  induction fuel as [|fuel IH]; intros i L b h o p Q R Hr Hi HL Hmax Hfuel HQ; [lia|].
  pose proof Hr as (Hb & Hsh & Hst). simpl in Hb.
  simpl. destruct (i <? delta) eqn:E.
  - destruct L as [|x L]; [simpl in HL; lia|]. simpl in HL.
    apply wp_bind. eapply pop_front_spec; [done|].
    intros h1 b1 Hsh1 Hst1 _.
    destruct (i =? INT_MAX) eqn:E'; [lia|].
    eapply IH; [split; [apply lookup_insert_eq|done]|lia|lia|lia|lia|].
    intros h2 b2 L2 Hsh2 Hst2. rewrite insert_insert_eq. subst L2.
    apply HQ.
    all: by replace (Z.to_nat (delta - i)) with (S (Z.to_nat (delta - (i + 1)))) by lia.
  - apply wp_ret. rewrite <- (insert_id o this b) by done.
    apply HQ; by replace (Z.to_nat (delta - i)) with 0%nat by lia.
Qed.

(** The counter of the popping loop cannot pass [INT_MAX]: asked for more
    pops than that, the loop never completes. *)
Lemma pop_loop_overflow (pop : M unit) delta fuel : ∀ i w,
  i ≤ INT_MAX → INT_MAX < delta →
  ∀ r w', pop_loop fuel pop i delta w ≠ Done r w'.
Proof.
  induction fuel as [|fuel IH]; intros i w Hi Hdelta r w'; [done|].
  simpl. destruct (i <? delta) eqn:E; [|lia].
  unfold bind. destruct (pop w) as [[] w1| | |]; try done.
  destruct (i =? INT_MAX) eqn:E'; [done|].
  apply IH; lia.
Qed.

Lemma erase_shift_left_spec u this b l f delta fuel : ∀ k L h o p Q R,
  repr_at (World h o p) this b L →
  length L = length l →
  0 ≤ f ≤ k → 0 ≤ delta → k + delta ≤ Z.of_nat (length l) →
  (∀ j, 0 ≤ j < f → L !! Z.to_nat j = l !! Z.to_nat j) →
  (∀ j, f ≤ j < k → L !! Z.to_nat j = l !! Z.to_nat (j + delta)) →
  (∀ j, k + delta ≤ j → L !! Z.to_nat j = l !! Z.to_nat j) →
  (Z.to_nat (Z.of_nat (length l) - delta - k) < fuel)%nat →
  (∀ h' p' L', (p = [] → p' = []) →
     shape b L' → stores h' b L' → length L' = length l →
     (∀ j, 0 ≤ j < f → L' !! Z.to_nat j = l !! Z.to_nat j) →
     (∀ j, f ≤ j < Z.of_nat (length l) - delta →
        L' !! Z.to_nat j = l !! Z.to_nat (j + delta)) →
     Q tt (World h' o p')) →
  (∀ e h' p' L', p ≠ [] → length L' = length l →
     shape b L' → stores h' b L' → R e (World h' o p')) →
  wp u (erase_shift_left fuel this (Iter this k) delta) (World h o p) Q R.
Proof.
  induction fuel as [|fuel IH];
    intros k L h o p Q R Hr HLl Hk Hdelta Hkd H1 H2 H3 Hfuel HQ HR; [lia|].
  pose proof Hr as (Hb & Hsh & Hst). simpl in Hb.
  shape_facts Hsh. pose proof (shape_size _ _ Hsh) as Hlen. rewrite HLl in Hlen.
  simpl. unfold end_. wp_go.
  unfold it_lt, it_eq, it_gt, it_add; simpl.
  rewrite (wrap_small (k + delta)) by (rewrite SIZE_MOD_eq; lia).
  rewrite bool_decide_eq_true_2 by done. simpl.
  destruct (decide (k + delta = size_ b)) as [Heq|Hne].
  { rewrite Heq, Z.eqb_refl. simpl. apply wp_ret.
    apply (HQ h p L); try done. intros j Hj. apply H2. lia. }
  destruct (k + delta =? size_ b) eqn:E1; [lia|].
  destruct (size_ b <? k + delta) eqn:E2; [lia|]. simpl.
  destruct (lookup_lt_is_Some_2 L (Z.to_nat k)) as [vi Hvi]; [lia|].
  destruct (lookup_lt_is_Some_2 L (Z.to_nat (k + delta))) as [vj Hvj]; [lia|].
  apply wp_bind. eapply iter_swap_spec; [done|lia|lia|done|done|..].
  2:{ intros e h' p' L' Hp HL'. apply HR; [done|congruence]. }
  intros h' p' Hp' L' Hsh' Hst'.
  unfold it_incr; simpl. rewrite (wrap_small (k + 1)) by (rewrite SIZE_MOD_eq; lia).
  assert (HL' : ∀ j, 0 ≤ j →
    L' !! Z.to_nat j = if decide (j = k + delta) then Some vi
                       else if decide (j = k) then Some vj
                       else L !! Z.to_nat j).
  { intros j Hj. subst L'. case_decide as Ej.
    - subst j. apply list_lookup_insert_eq. rewrite length_insert. lia.
    - rewrite list_lookup_insert_ne by lia. case_decide as Ek.
      + subst j. apply list_lookup_insert_eq. lia.
      + by rewrite list_lookup_insert_ne by lia. }
  eapply IH; [split; [done|split; done]| | | | | | | | | |]; try lia.
  - subst L'. by rewrite !length_insert.
  - intros j Hj. rewrite HL' by lia. rewrite !decide_False by lia. by apply H1.
  - intros j Hj. rewrite HL' by lia.
    case_decide as Ej.
    { assert (delta = 0 ∧ j = k) as [-> ->] by lia.
      rewrite Z.add_0_r in *. rewrite <- H3 by lia. done. }
    case_decide as Ek.
    { subst j. rewrite <- H3 by lia. done. }
    apply H2. lia.
  - intros j Hj. rewrite HL' by lia. rewrite !decide_False by lia. apply H3. lia.
  - intros h2 p2 L2 Hp2. apply HQ. auto.
  - intros e h2 p2 L2 Hp2. apply HR. intros ->. auto.
Qed.

Lemma erase_shift_right_spec u this b l la delta fuel : ∀ i L h o p Q R,
  repr_at (World h o p) this b L →
  length L = length l →
  0 < delta → delta - 1 ≤ i < la → la ≤ Z.of_nat (length l) →
  (∀ j, la ≤ j → L !! Z.to_nat j = l !! Z.to_nat j) →
  (∀ j, i < j < la → L !! Z.to_nat j = l !! Z.to_nat (j - delta)) →
  (∀ j, 0 ≤ j ≤ i - delta → L !! Z.to_nat j = l !! Z.to_nat j) →
  (Z.to_nat (i - delta + 1) < fuel)%nat →
  (∀ h' p' L', (p = [] → p' = []) →
     shape b L' → stores h' b L' → length L' = length l →
     (∀ j, la ≤ j → L' !! Z.to_nat j = l !! Z.to_nat j) →
     (∀ j, delta ≤ j < la → L' !! Z.to_nat j = l !! Z.to_nat (j - delta)) →
     Q tt (World h' o p')) →
  (∀ e h' p' L', p ≠ [] → length L' = length l →
     shape b L' → stores h' b L' → R e (World h' o p')) →
  wp u (erase_shift_right fuel this (Iter this i) delta) (World h o p) Q R.
Proof.
  induction fuel as [|fuel IH];
    intros i L h o p Q R Hr HLl Hdelta Hi Hla H1 H2 H3 Hfuel HQ HR; [lia|].
  pose proof Hr as (Hb & Hsh & Hst). simpl in Hb.
  shape_facts Hsh. pose proof (shape_size _ _ Hsh) as Hlen. rewrite HLl in Hlen.
  simpl.
  unfold it_ge, it_eq, it_gt, it_add, begin; simpl.
  rewrite Z.add_0_l, (wrap_small delta) by (rewrite SIZE_MOD_eq; lia).
  rewrite bool_decide_eq_true_2 by done. simpl.
  destruct (decide (i < delta)) as [Hlt|Hge].
  { destruct (delta <? i) eqn:E1; [lia|]. destruct (i =? delta) eqn:E2; [lia|].
    simpl. apply wp_ret. apply (HQ h p L); try done. intros j Hj. apply H2. lia. }
  assert ((delta <? i) || (i =? delta) = true) as ->.
  { destruct (delta <? i) eqn:E1; [done|]. destruct (i =? delta) eqn:E2; [done|]. lia. }
  unfold it_sub, it_add; simpl.
  replace (i + - delta) with (i - delta) by lia.
  rewrite (wrap_small (i - delta)) by (rewrite SIZE_MOD_eq; lia).
  destruct (lookup_lt_is_Some_2 L (Z.to_nat i)) as [vi Hvi]; [lia|].
  destruct (lookup_lt_is_Some_2 L (Z.to_nat (i - delta))) as [vj Hvj]; [lia|].
  apply wp_bind. eapply iter_swap_spec; [done|lia|lia|done|done|..].
  2:{ intros e h' p' L' Hp HL'. apply HR; [done|congruence]. }
  intros h' p' Hp' L' Hsh' Hst'.
  unfold it_decr; simpl. rewrite (wrap_small (i - 1)) by (rewrite SIZE_MOD_eq; lia).
  assert (HL' : ∀ j, 0 ≤ j →
    L' !! Z.to_nat j = if decide (j = i - delta) then Some vi
                       else if decide (j = i) then Some vj
                       else L !! Z.to_nat j).
  { intros j Hj. subst L'. case_decide as Ej.
    - subst j. apply list_lookup_insert_eq. rewrite length_insert. lia.
    - rewrite list_lookup_insert_ne by lia. case_decide as Ek.
      + subst j. apply list_lookup_insert_eq. lia.
      + by rewrite list_lookup_insert_ne by lia. }
  eapply IH; [split; [done|split; done]| | | | | | | | | |]; try lia.
  - subst L'. by rewrite !length_insert.
  - intros j Hj. rewrite HL' by lia. rewrite !decide_False by lia. by apply H1.
  - intros j Hj. rewrite HL' by lia. rewrite decide_False by lia.
    case_decide as Ek.
    { subst j. rewrite <- H3 by lia. done. }
    apply H2. lia.
  - intros j Hj. rewrite HL' by lia. rewrite !decide_False by lia. apply H3. lia.
  - intros h2 p2 L2 Hp2. apply HQ. auto.
  - intros e h2 p2 L2 Hp2. apply HR. intros ->. auto.
Qed.

(** ** [erase] on a well-formed buffer *)

Lemma erased_lookup l (f d i : nat) :
  (f + d ≤ length l)%nat →
  (take f l ++ drop (f + d) l) !! i
  = if decide (i < f)%nat then l !! i else l !! (i + d)%nat.
Proof.
  intros Hfd. case_decide.
  - rewrite lookup_app_l by (rewrite length_take; lia).
    by rewrite lookup_take_lt.
  - rewrite lookup_app_r by (rewrite length_take; lia).
    rewrite length_take, lookup_drop. f_equal. lia.
Qed.

Lemma erased_length l (f d : nat) :
  (f + d ≤ length l)%nat →
  length (take f l ++ drop (f + d) l) = (length l - d)%nat.
Proof. intros. rewrite length_app, length_take, length_drop. lia. Qed.

Lemma erased_take L l (f d : nat) :
  length L = length l → (f + d ≤ length l)%nat →
  (∀ j, (j < f)%nat → L !! j = l !! j) →
  (∀ j, (f ≤ j < length l - d)%nat → L !! j = l !! (j + d)%nat) →
  take (length l - d) L = take f l ++ drop (f + d) l.
Proof.
  intros HL Hfd H1 H2. apply list_eq. intros i.
  rewrite erased_lookup by done.
  destruct (decide (i < length l - d)%nat).
  - rewrite lookup_take_lt by done. case_decide; [by apply H1|apply H2; lia].
  - rewrite lookup_take_ge by lia. symmetry.
    case_decide; [lia|]. apply lookup_ge_None_2. lia.
Qed.

Lemma erased_drop L l (f d : nat) :
  length L = length l → (f + d ≤ length l)%nat →
  (∀ j, (d ≤ j < f + d)%nat → L !! j = l !! (j - d)%nat) →
  (∀ j, (f + d ≤ j)%nat → L !! j = l !! j) →
  drop d L = take f l ++ drop (f + d) l.
Proof.
  intros HL Hfd H1 H2. apply list_eq. intros i.
  rewrite erased_lookup by done. rewrite lookup_drop.
  case_decide.
  - rewrite H1 by lia. f_equal. lia.
  - rewrite H2 by lia. f_equal. lia.
Qed.

Lemma erase_spec u fuel this b l f la h o p Q R :
  repr_at (World h o p) this b l →
  0 ≤ f ≤ la → la ≤ Z.of_nat (length l) → la - f ≤ INT_MAX →
  (length l + 2 ≤ fuel)%nat →
  (∀ h' p' b', (p = [] → p' = []) →
     let l' := take (Z.to_nat f) l ++ drop (Z.to_nat la) l in
     shape b' l' → stores h' b' l' →
     Q (Iter this f) (World h' (<[this := b']> o) p')) →
  (∀ e h' p' l', p ≠ [] → length l' = length l →
     shape b l' → stores h' b l' → R e (World h' o p')) →
  wp u (erase fuel this (Iter this f) (Iter this la)) (World h o p) Q R.
Proof.
  intros Hr Hf Hla Hmax Hfuel HQ HR. pose proof Hr as (Hb & Hsh & Hst). simpl in Hb.
  shape_facts Hsh. pose proof (shape_size _ _ Hsh) as Hlen.
  unfold erase, end_, it_diff; simpl. wp_go. simpl.
  rewrite !to_ptrdiff_small by (change (2 ^ 63) with 9223372036854775808; lia).
  rewrite (wrap_small (size_ b - la)) by (rewrite SIZE_MOD_eq; lia).
  set (delta := la - f).
  assert (Hl' : take (Z.to_nat f) l ++ drop (Z.to_nat la) l
                = take (Z.to_nat f) l ++ drop (Z.to_nat f + Z.to_nat delta) l).
  { do 2 f_equal. lia. }
  destruct (size_ b - la <? size_ b / 2) eqn:Ehalf.
  - apply wp_bind.
    eapply (erase_shift_left_spec u this b l f delta fuel f l);
      [done|done|lia|lia|lia|done| |done|lia|..]; [| |done].
    { intros j Hj. lia. }
    intros h1 p1 L1 Hp1 Hsh1 Hst1 HL1 H1 H2.
    apply wp_bind.
    eapply (pop_back_loop_spec u this delta fuel 0 L1);
      [split; [done|split; done]|lia|lia|done|lia|].
    intros h2 b2 L2 Hsh2 Hst2. apply wp_ret. subst L2.
    rewrite Z.sub_0_r, HL1 in Hsh2, Hst2.
    assert (HE : take (length l - Z.to_nat delta) L1
                 = take (Z.to_nat f) l ++ drop (Z.to_nat f + Z.to_nat delta) l).
    { apply erased_take; [done|lia|..].
      - intros j Hj. rewrite <- (Nat2Z.id j). apply H1. lia.
      - intros j Hj. rewrite <- (Nat2Z.id j). rewrite H2 by lia. f_equal. lia. }
    rewrite HE in Hsh2, Hst2. apply HQ; [done|..]; by rewrite Hl'.
  - destruct (delta =? 0) eqn:Ed; simpl.
    + apply wp_ret. rewrite <- (insert_id o this b) by done.
      assert (la = f) as -> by lia.
      apply HQ; [done|..]; by rewrite take_drop.
    + unfold it_sub, it_add, begin; simpl.
      replace (la + - (1)) with (la - 1) by lia.
      rewrite (wrap_small (la - 1)) by (rewrite SIZE_MOD_eq; lia).
      rewrite Z.sub_0_r, Z.add_0_l.
      rewrite (wrap_small f) by (rewrite SIZE_MOD_eq; lia).
      apply wp_bind.
      eapply (erase_shift_right_spec u this b l la delta fuel (la - 1) l);
        [done|done|lia|lia|lia|done| |done|lia|..]; [| |done].
      { intros j Hj. lia. }
      intros h1 p1 L1 Hp1 Hsh1 Hst1 HL1 H1 H2.
      apply wp_bind.
      eapply (pop_front_loop_spec u this delta fuel 0 L1);
        [split; [done|split; done]|lia|lia|done|lia|].
      intros h2 b2 L2 Hsh2 Hst2. apply wp_ret. subst L2.
      rewrite Z.sub_0_r in Hsh2, Hst2.
      assert (HE : drop (Z.to_nat delta) L1
                   = take (Z.to_nat f) l ++ drop (Z.to_nat f + Z.to_nat delta) l).
      { apply erased_drop; [done|lia|..].
        - intros j Hj. rewrite <- (Nat2Z.id j). rewrite H2 by lia. f_equal. lia.
        - intros j Hj. rewrite <- (Nat2Z.id j). apply H1. lia. }
      rewrite HE in Hsh2, Hst2. apply HQ; [done|..]; by rewrite Hl'.
Qed.

Lemma pop_back_loop_long this delta fuel : ∀ i L b h o p,
  repr_at (World h o p) this b L →
  0 ≤ i ≤ INT_MAX → INT_MAX < delta → INT_MAX - i < Z.of_nat (length L) →
  wp True (pop_loop fuel (pop_back this) i delta) (World h o p)
    (λ _ _, False) (λ _ _, False).
Proof.
  induction fuel as [|fuel IH]; intros i L b h o p Hr Hi Hdelta HL; [done|].
  simpl. destruct (i <? delta) eqn:E; [|lia].
  destruct L as [|x L _] using rev_ind; [simpl in HL; lia|].
  rewrite length_app in HL. simpl in HL.
  apply wp_bind. eapply pop_back_spec; [done|].
  intros h1 b1 Hsh1 Hst1 _.
  destruct (i =? INT_MAX) eqn:E'; [done|].
  eapply IH; [split; [apply lookup_insert_eq|done]|lia|lia|lia].
Qed.

Lemma pop_front_loop_long this delta fuel : ∀ i L b h o p,
  repr_at (World h o p) this b L →
  0 ≤ i ≤ INT_MAX → INT_MAX < delta → INT_MAX - i < Z.of_nat (length L) →
  wp True (pop_loop fuel (pop_front this) i delta) (World h o p)
    (λ _ _, False) (λ _ _, False).
Proof.
  induction fuel as [|fuel IH]; intros i L b h o p Hr Hi Hdelta HL; [done|].
  simpl. destruct (i <? delta) eqn:E; [|lia].
  destruct L as [|x L]; [simpl in HL; lia|]. simpl in HL.
  apply wp_bind. eapply pop_front_spec; [done|].
  intros h1 b1 Hsh1 Hst1 _.
  destruct (i =? INT_MAX) eqn:E'; [done|].
  eapply IH; [split; [apply lookup_insert_eq|done]|lia|lia|lia].
Qed.

(** A range of more than [INT_MAX] elements: the shifting is done, then
    the popping loop overflows its [int] counter. *)
Lemma erase_long fuel this b l f la h o p :
  repr_at (World h o p) this b l →
  0 ≤ f ≤ la → la ≤ Z.of_nat (length l) → INT_MAX < la - f →
  (length l + 2 ≤ fuel)%nat →
  wp True (erase fuel this (Iter this f) (Iter this la)) (World h o p)
    (λ _ _, False) (λ _ _, p ≠ []).
Proof.
  intros Hr Hf Hla Hmax Hfuel. pose proof Hr as (Hb & Hsh & Hst). simpl in Hb.
  shape_facts Hsh. pose proof (shape_size _ _ Hsh) as Hlen.
  pose proof INT_MAX_eq as HI.
  unfold erase, end_, it_diff; simpl. wp_go. simpl.
  rewrite !to_ptrdiff_small by (change (2 ^ 63) with 9223372036854775808; lia).
  rewrite (wrap_small (size_ b - la)) by (rewrite SIZE_MOD_eq; lia).
  set (delta := la - f) in *.
  destruct (size_ b - la <? size_ b / 2) eqn:Ehalf.
  - apply wp_bind.
    eapply (erase_shift_left_spec True this b l f delta fuel f l);
      [done|done|lia|lia|lia|done| |done|lia|..]; [| |done].
    { intros j Hj. lia. }
    intros h1 p1 L1 Hp1 Hsh1 Hst1 HL1 H1 H2.
    apply wp_bind.
    eapply wp_mono;
      [eapply (pop_back_loop_long this delta fuel 0 L1);
         [split; [done|split; done]|lia|lia|lia]|done|done].
  - destruct (delta =? 0) eqn:Ed; [lia|]. simpl.
    unfold it_sub, it_add, begin; simpl.
    replace (la + - (1)) with (la - 1) by lia.
    rewrite (wrap_small (la - 1)) by (rewrite SIZE_MOD_eq; lia).
    apply wp_bind.
    eapply (erase_shift_right_spec True this b l la delta fuel (la - 1) l);
      [done|done|lia|lia|lia|done| |done|lia|..]; [| |done].
    { intros j Hj. lia. }
    intros h1 p1 L1 Hp1 Hsh1 Hst1 HL1 H1 H2.
    apply wp_bind.
    eapply wp_mono;
      [eapply (pop_front_loop_long this delta fuel 0 L1);
         [split; [done|split; done]|lia|lia|lia]|done|done].
Qed.

Lemma it_add_begin this d :
  0 ≤ d < SIZE_MOD → it_add (begin this) d = Iter this d.
Proof.
  intros Hd. unfold it_add, begin; simpl. by rewrite Z.add_0_l, wrap_small.
Qed.

(** C5. On a well-formed buffer holding [l], [erase (begin () + f,
    begin () + la)] with [0 <= f <= la <= size] throws only when a copy of
    an element throws while the elements are shifted, that is when a
    failure is scripted. When the range has at most [INT_MAX] elements the
    call involves no undefined behaviour and terminates, and when it
    returns it returns [begin () + f]; the size has dropped by [la - f],
    the elements below [f] are where they were, those from [la] on are
    [la - f] indices earlier, and an empty range changes nothing. When
    the range has more than [INT_MAX] elements the call does not return:
    the [int] counter of the popping loop is incremented past
    [INT_MAX]. *)
Theorem C5_erase_range (fuel : nat) (this : objid) (l : list T) (f la : Z)
    (w : world) :
  repr w this l →
  0 ≤ f ≤ la → la ≤ Z.of_nat (length l) →
  (length l + 2 ≤ fuel)%nat →
  match erase fuel this (it_add (begin this) f) (it_add (begin this) la) w with
  | Done it w' =>
      la - f ≤ INT_MAX ∧
      it = it_add (begin this) f ∧
      size this w' = Done (Z.of_nat (length l) - (la - f)) w' ∧
      (∀ i, 0 ≤ i < f → at_ w' this i = at_ w this i) ∧
      (∀ i, la ≤ i < Z.of_nat (length l) →
         at_ w' this (i - (la - f)) = at_ w this i) ∧
      (f = la → contents w' this = contents w this)
  | Thrown _ _ => ¬ calm w
  | Undefined | Exhausted => INT_MAX < la - f
  end.
Proof.
  intros Hrepr Hf Hla Hfuel. pose proof Hrepr as [b Hr]. destruct w as [h o p].
  pose proof Hr as (Hb & Hsh & Hst).
  shape_facts Hsh. pose proof (shape_size _ _ Hsh) as Hlen.
  rewrite !it_add_begin by (rewrite SIZE_MOD_eq; lia).
  destruct (decide (la - f ≤ INT_MAX)) as [Hshort|Hlong].
  - pose proof (erase_spec False fuel this b l f la h o p
      (λ it w', it = Iter this f ∧
         repr w' this (take (Z.to_nat f) l ++ drop (Z.to_nat la) l))
      (λ _ _, p ≠ []) Hr Hf Hla Hshort Hfuel) as Hwp.
    unfold wp in Hwp.
    specialize (Hwp ltac:(intros h' p' b' _; cbv zeta; intros Hsh' Hst';
                          split; [done|];
                          exists b'; split; [apply lookup_insert_eq|done])).
    specialize (Hwp ltac:(by intros e h' p' l' Hne _ _ _)).
    destruct (erase fuel this _ _ _) as [it w'| | |]; try done.
    destruct Hwp as [-> Hr'].
    set (l' := take (Z.to_nat f) l ++ drop (Z.to_nat la) l) in *.
    assert (Hl' : l' = take (Z.to_nat f) l
                       ++ drop (Z.to_nat f + Z.to_nat (la - f)) l).
    { unfold l'. do 2 f_equal. lia. }
    assert (Hlen' : length l' = (length l - Z.to_nat (la - f))%nat).
    { rewrite Hl'. apply erased_length. lia. }
    split; [done|]. split; [done|]. split; [|split; [|split]].
    + rewrite (repr_size _ _ l') by done. rewrite Hlen'. do 2 f_equal. lia.
    + intros i Hi.
      rewrite (repr_at_index _ _ l'), (repr_at_index _ _ l) by (done || lia).
      rewrite Hl', erased_lookup by lia. rewrite decide_True by lia. done.
    + intros i Hi.
      rewrite (repr_at_index _ _ l'), (repr_at_index _ _ l) by (done || lia).
      rewrite Hl', erased_lookup by lia. rewrite decide_False by lia.
      f_equal. lia.
    + intros ->. rewrite (repr_contents _ _ l'), (repr_contents _ _ l) by done.
      unfold l'. by rewrite take_drop.
  - pose proof (erase_long fuel this b l f la h o p Hr Hf Hla
                  ltac:(lia) Hfuel) as Hwp.
    unfold wp in Hwp.
    destruct (erase fuel this _ _ _) as [it w'| | |]; try done; lia.
Qed.

(** * Consistency is kept by every operation *)

Lemma kept_refl X h o : kept X h o h o.
Proof. by intros y b _ Hy. Qed.

Lemma kept_trans X h o h1 o1 h2 o2 :
  kept X h o h1 o1 → kept X h1 o1 h2 o2 → kept X h o h2 o2.
Proof.
  intros H1 H2 y b Hy Hb. destruct (H1 y b Hy Hb) as [Hb1 Hh1].
  destruct (H2 y b Hy Hb1) as [Hb2 Hh2]. split; [done|].
  intros a Ha. rewrite Hh2, Hh1; done.
Qed.

Lemma kept_mono X Y h o h' o' : X ⊆ Y → kept X h o h' o' → kept Y h o h' o'.
Proof. intros HXY Hk y b Hy Hb. apply Hk; [|done]. intros Hin. by apply Hy, HXY. Qed.

(** A temporary that did not exist at the start may be touched. *)
Lemma kept_fresh X tmp h o h' o' :
  o !! tmp = None → kept ({[tmp]} ∪ X) h o h' o' → kept X h o h' o'.
Proof.
  intros Htmp Hk y b Hy Hb. apply Hk; [|done].
  assert (y ≠ tmp) by congruence.
  apply not_elem_of_union. split; [by apply not_elem_of_singleton|done].
Qed.

Lemma live_count_insert (blk : block) s j (v : T) :
  live_count (Block s (<[j := v]> (cells blk))) ≤ live_count blk + 1.
Proof.
  unfold live_count; simpl. rewrite map_size_insert.
  destruct (cells blk !! j); simpl; lia.
Qed.

Lemma live_count_insert_live (blk : block) s j (v v0 : T) :
  cells blk !! j = Some v0 →
  live_count (Block s (<[j := v]> (cells blk))) = live_count blk.
Proof.
  intros Hj. unfold live_count; simpl. by rewrite map_size_insert_Some.
Qed.

Lemma live_count_delete (blk : block) s j (v0 : T) :
  cells blk !! j = Some v0 →
  live_count (Block s (delete j (cells blk))) = live_count blk - 1 ∧
  1 ≤ live_count blk.
Proof.
  intros Hj. unfold live_count; simpl.
  rewrite map_size_delete_Some by done.
  assert (base.size (cells blk) ≠ 0%nat).
  { apply map_size_ne_0_lookup_2 with j. eauto. }
  lia.
Qed.

(** The object [x] and its block are replaced; everything else stays. *)
Lemma consistent_local h o x b b' a blk' :
  consistent h o → o !! x = Some b → data_ b = Some a → data_ b' = Some a →
  0 ≤ size_ b' ≤ capacity_ b' → capacity_ b' < SIZE_MOD →
  0 ≤ head_ b' → (0 < capacity_ b' → head_ b' < capacity_ b') →
  live_count blk' ≤ size_ b' →
  consistent (<[a := blk']> h) (<[x := b']> o) ∧
  kept {[x]} h o (<[a := blk']> h) (<[x := b']> o).
Proof.
  intros [Hok Hex] Hx Ha Ha' Hs Hc Hh0 Hh Hlive. split; [split|].
  - intros y by_ Hy. destruct (decide (y = x)) as [->|Hne].
    + rewrite lookup_insert_eq in Hy. simplify_eq.
      repeat split; try done; try lia. rewrite Ha'.
      eexists. rewrite lookup_insert_eq. done.
    + rewrite lookup_insert_ne in Hy by done.
      destruct (Hok y by_ Hy) as (? & ? & ? & ? & Hd).
      repeat split; try done; try lia. destruct (data_ by_) as [a'|] eqn:Ea; [|done].
      rewrite lookup_insert_ne; [done|].
      intros ->. apply Hne. symmetry. by eapply Hex.
  - intros y z by_ bz a0 Hy Hz Hay Haz.
    assert (∀ y by_, <[x := b']> o !! y = Some by_ → data_ by_ = Some a0 →
              ∃ b0, o !! y = Some b0 ∧ data_ b0 = Some a0) as Hback.
    { intros y' b0 Hy' Ha0. destruct (decide (y' = x)) as [->|Hne].
      - rewrite lookup_insert_eq in Hy'. simplify_eq. exists b. split; [done|congruence].
      - rewrite lookup_insert_ne in Hy' by done. eauto. }
    destruct (Hback y by_ Hy Hay) as (? & ? & ?).
    destruct (Hback z bz Hz Haz) as (? & ? & ?).
    by eapply Hex.
  - intros y by_ Hy Hby. apply not_elem_of_singleton in Hy.
    rewrite lookup_insert_ne by done. split; [done|].
    intros a' Ha0. rewrite lookup_insert_ne; [done|].
    intros ->. apply Hy. by eapply Hex.
Qed.

(** The fields of [x] change, not its storage pointer. *)
Lemma consistent_fields h o x b b' :
  consistent h o → o !! x = Some b → data_ b' = data_ b →
  0 ≤ size_ b' ≤ capacity_ b' → capacity_ b' < SIZE_MOD →
  0 ≤ head_ b' → (0 < capacity_ b' → head_ b' < capacity_ b') →
  size_ b ≤ size_ b' →
  consistent h (<[x := b']> o) ∧ kept {[x]} h o h (<[x := b']> o).
Proof.
  intros Hc Hx Hd Hs Hcap Hh0 Hh Hsz.
  destruct (data_ b) as [a|] eqn:Ha.
  - destruct Hc as [Hok Hex]. destruct (Hok x b Hx) as (_ & _ & _ & _ & Hblk).
    rewrite Ha in Hblk. destruct Hblk as (blk & Hblk & Hlive).
    pose proof (consistent_local h o x b b' a blk (conj Hok Hex) Hx Ha Hd Hs
                  Hcap Hh0 Hh ltac:(lia)) as Hl.
    by rewrite insert_id in Hl.
  - destruct Hc as [Hok Hex]. split; [split|].
    + intros y by_ Hy. destruct (decide (y = x)) as [->|Hne].
      * rewrite lookup_insert_eq in Hy. simplify_eq.
        repeat split; try done; try lia. by rewrite Hd.
      * rewrite lookup_insert_ne in Hy by done. eauto.
    + intros y z by_ bz a0 Hy Hz Hay Haz.
      destruct (decide (y = x)) as [->|Hney];
        [rewrite lookup_insert_eq in Hy; simplify_eq; congruence|].
      destruct (decide (z = x)) as [->|Hnez];
        [rewrite lookup_insert_eq in Hz; simplify_eq; congruence|].
      rewrite lookup_insert_ne in Hy, Hz by done. by eapply Hex.
    + intros y by_ Hy Hby. apply not_elem_of_singleton in Hy.
      rewrite lookup_insert_ne by done. done.
Qed.

(** Symbolic execution that follows every defined path. *)
Ltac wp_lax :=
  repeat (cbv beta;
    lazymatch goal with
    | |- wp _ (bind _ _) _ _ _ => apply wp_bind
    | |- wp _ (ret _) _ _ _ => apply wp_ret
    | |- wp _ undefined _ _ _ => exact I
    | |- wp _ (get_obj _) _ _ _ => apply wp_get_obj; [done|intros ? ?]
    | |- wp _ (put_obj _ _) _ _ _ => apply wp_put_obj; [done|intros ? ?]
    | |- wp _ (load (None, _)) _ _ _ => exact I
    | |- wp _ (load (Some _, _)) _ _ _ =>
        apply wp_load; [done|done|done|intros ? ? ? ? ?]
    | |- wp _ (load (?d, _)) _ _ _ => destruct d eqn:?
    | |- wp _ (write_cell (None, _) _) _ _ _ => exact I
    | |- wp _ (write_cell (Some _, _) _) _ _ _ =>
        apply wp_write_cell; [done|done|intros ? ? ?]
    | |- wp _ (write_cell (?d, _) _) _ _ _ => destruct d eqn:?
    | |- wp _ (if ?c then _ else _) _ _ _ => destruct c eqn:?
    end).

Lemma consistent_obj h o x b :
  consistent h o → o !! x = Some b →
  0 ≤ size_ b ≤ capacity_ b ∧ capacity_ b < 18446744073709551616 ∧
  0 ≤ head_ b ∧ (0 < capacity_ b → head_ b < capacity_ b).
Proof.
  intros [Hok _] Hx. destruct (Hok x b Hx) as (? & ? & ? & ? & _).
  rewrite <- SIZE_MOD_eq. done.
Qed.

Lemma consistent_block h o x b a blk :
  consistent h o → o !! x = Some b → data_ b = Some a → h !! a = Some blk →
  live_count blk ≤ size_ b.
Proof.
  intros [Hok _] Hx Ha Hblk. destruct (Hok x b Hx) as (_ & _ & _ & _ & Hd).
  rewrite Ha in Hd. destruct Hd as (blk' & ? & ?). by simplify_eq.
Qed.

Ltac obj_facts Hc Hx :=
  let H1 := fresh "Hs" in let H2 := fresh "Hcap" in
  let H3 := fresh "Hh0" in let H4 := fresh "Hh" in
  pose proof (consistent_obj _ _ _ _ Hc Hx) as (H1 & H2 & H3 & H4).

Lemma pop_back_inv x h o p Q R :
  consistent h o →
  (∀ h' o', consistent h' o' → kept {[x]} h o h' o' → Q tt (World h' o' p)) →
  wp True (pop_back x) (World h o p) Q R.
Proof.
  intros Hc HQ.
  unfold pop_back, end_, deref, data, get_real_index, destroy; simpl.
  wp_lax. simplify_map_eq.
  match goal with Hx : o !! x = Some ?b, Ha : data_ ?b = Some ?a,
    Hblk : h !! ?a = Some ?blk, Hv : cells ?blk !! ?j = Some ?v |- _ =>
    obj_facts Hc Hx;
    pose proof (consistent_block _ _ _ _ _ _ Hc Hx Ha Hblk) as Hlive;
    destruct (live_count_delete blk (slots blk) j v Hv) as [Hdel Hge];
    rewrite (wrap_small (size_ b - 1)) by (rewrite SIZE_MOD_eq; lia);
    edestruct (consistent_local h o x b (with_size (size_ b - 1) b) a) as [? ?];
      [exact Hc|exact Hx|exact Ha|exact Ha| | | | | |apply HQ; eassumption]
  end; simpl; rewrite ?SIZE_MOD_eq; lia.
Qed.

Lemma pop_front_inv x h o p Q R :
  consistent h o →
  (∀ h' o', consistent h' o' → kept {[x]} h o h' o' → Q tt (World h' o' p)) →
  wp True (pop_front x) (World h o p) Q R.
Proof.
  intros Hc HQ.
  unfold pop_front, destroy; simpl.
  wp_lax. simplify_map_eq. rewrite insert_insert_eq.
  match goal with Hx : o !! x = Some ?b, Ha : data_ ?b = Some ?a,
    Hblk : h !! ?a = Some ?blk, Hv : cells ?blk !! ?j = Some ?v |- _ =>
    obj_facts Hc Hx;
    pose proof (consistent_block _ _ _ _ _ _ Hc Hx Ha Hblk) as Hlive;
    destruct (live_count_delete blk (slots blk) j v Hv) as [Hdel Hge];
    rewrite (wrap_small (size_ b - 1)) by (rewrite SIZE_MOD_eq; lia);
    pose proof (Z.mod_pos_bound (wrap (head_ b + 1)) (capacity_ b)) as Hm;
    edestruct (consistent_local h o x b
      (with_head (wrap (head_ b + 1) mod capacity_ b)
         (with_size (size_ b - 1) b)) a) as [? ?];
      [exact Hc|exact Hx|exact Ha|exact Ha| | | | | |apply HQ; eassumption]
  end; simpl; rewrite ?SIZE_MOD_eq; lia.
Qed.

(** ** Composition of safe computations *)

Lemma good_refl X w : world_inv w → good X w w.
Proof. intros Hw. split; [done|]. apply kept_refl. Qed.

Lemma good_trans X w w1 w2 : good X w w1 → good X w1 w2 → good X w w2.
Proof. intros [_ H1] [? H2]. split; [done|]. by eapply kept_trans. Qed.

Lemma good_pending X w h o p p' :
  good X w (World h o p) → good X w (World h o p').
Proof. done. Qed.

Lemma safe_ret {A} X (a : A) : safe (T:=T) X (ret a).
Proof. intros w Hw. apply wp_ret. by apply good_refl. Qed.

Lemma safe_undefined {A} X : safe (T:=T) X (undefined : M A).
Proof. by intros w Hw. Qed.

Lemma safe_exhausted {A} X : safe (T:=T) X (exhausted : M A).
Proof. by intros w Hw. Qed.

Lemma safe_throw {A} X e : safe (T:=T) X (throw e : M A).
Proof. intros w Hw. apply wp_throw. by apply good_refl. Qed.

Lemma safe_bind {A B} X (m : @M T A) (f : A → @M T B) :
  safe (T:=T) X m → (∀ a, safe (T:=T) X (f a)) → safe (T:=T) X (bind m f).
Proof.
  intros Hm Hf w Hw. apply wp_bind.
  eapply wp_mono; [by apply Hm| |done].
  intros a w1 Hg. cbv beta.
  eapply wp_mono; [apply Hf, Hg|..]; intros ? w2 Hg2; cbv beta in *; eapply good_trans; eassumption.
Qed.

Lemma safe_mono {A} X Y (m : @M T A) : X ⊆ Y → safe (T:=T) X m → safe (T:=T) Y m.
Proof.
  intros HXY Hm w Hw.
  eapply wp_mono; [by apply Hm|..]; intros ? w' [? Hk]; split; try done;
    by eapply kept_mono.
Qed.

Lemma safe_try_catch {A} X (m : @M T A) (c : exn → @M T A) :
  safe (T:=T) X m → (∀ e, safe (T:=T) X (c e)) → safe (T:=T) X (try_catch m c).
Proof.
  intros Hm Hc w Hw. apply wp_try_catch.
  eapply wp_mono; [by apply Hm|done|].
  intros e w1 Hg. cbv beta.
  eapply wp_mono; [apply Hc, Hg|..]; intros ? w2 Hg2; cbv beta in *; eapply good_trans; eassumption.
Qed.

Lemma safe_get_obj X x : safe (T:=T) X (get_obj x).
Proof.
  intros [h o p] Hw. apply wp_get_obj; [done|]. intros b _. by apply good_refl.
Qed.

Lemma safe_may_throw X e : safe (T:=T) X (may_throw e).
Proof.
  intros [h o p] Hw. apply wp_may_throw; intros; by apply (good_refl X (World h o p)).
Qed.

Lemma safe_load X q : safe (T:=T) X (load q).
Proof.
  intros [h o p] Hw. destruct q as [[a|] j]; [|done].
  apply wp_load; try done; intros; by apply good_refl.
Qed.

Create HintDb safe.

#[local] Hint Resolve safe_ret safe_undefined safe_exhausted safe_throw
  safe_get_obj safe_may_throw safe_load : safe.

Ltac safe_go :=
  repeat first
    [ solve [eauto 2 with safe]
    | lazymatch goal with
      | |- safe _ (bind _ _) => apply safe_bind; [|intros ?]
      | |- safe _ (if ?c then _ else _) => destruct c eqn:?
      | |- safe _ (try_catch _ _) => apply safe_try_catch; [|intros ?]
      end ].

Lemma safe_data X x : safe (T:=T) X (data x).
Proof. unfold data. safe_go. Qed.
Lemma safe_size X x : safe (T:=T) X (size x).
Proof. unfold size. safe_go. Qed.
Lemma safe_capacity X x : safe (T:=T) X (capacity x).
Proof. unfold capacity. safe_go. Qed.
Lemma safe_empty X x : safe (T:=T) X (empty x).
Proof. unfold empty, size. safe_go. Qed.
Lemma safe_end X x : safe (T:=T) X (end_ x).
Proof. unfold end_. safe_go. Qed.
Lemma safe_get_real_index X i off : safe (T:=T) X (get_real_index i off).
Proof. unfold get_real_index. safe_go. Qed.
Lemma safe_deref X i : safe (T:=T) X (deref i).
Proof. unfold deref, data, get_real_index. safe_go. Qed.
Lemma safe_tail X x : safe (T:=T) X (tail x).
Proof. unfold tail. safe_go. Qed.
Lemma safe_op_index X x i : safe (T:=T) X (op_index x i).
Proof. unfold op_index. safe_go. Qed.
Lemma safe_read X x i : safe (T:=T) X (read x i).
Proof. unfold read, op_index. safe_go. Qed.
Lemma safe_op_eq X x y : safe (T:=T) X (op_eq x y).
Proof. unfold op_eq. safe_go. Qed.
Lemma safe_op_ne X x y : safe (T:=T) X (op_ne x y).
Proof. unfold op_ne, op_eq. safe_go. Qed.

#[local] Hint Resolve safe_data safe_size safe_capacity safe_empty safe_end
  safe_get_real_index safe_deref safe_tail safe_op_index safe_read
  safe_op_eq safe_op_ne : safe.

Lemma safe_pop_back x : safe (T:=T) {[x]} (pop_back x).
Proof.
  intros [h o p] Hw. apply pop_back_inv; [done|]. intros h' o' ? ?. by split.
Qed.

Lemma safe_pop_front x : safe (T:=T) {[x]} (pop_front x).
Proof.
  intros [h o p] Hw. apply pop_front_inv; [done|]. intros h' o' ? ?. by split.
Qed.

#[local] Hint Resolve safe_pop_back safe_pop_front : safe.

Lemma safe_clear x fuel : safe (T:=T) {[x]} (clear fuel x).
Proof. induction fuel as [|fuel IH]; simpl; safe_go. Qed.

Lemma safe_pop_loop {X} (pop : @M T unit) delta fuel :
  safe (T:=T) X pop → ∀ i, safe (T:=T) X (pop_loop fuel pop i delta).
Proof. intros Hp. induction fuel as [|fuel IH]; intros i; simpl; safe_go. Qed.

#[local] Hint Resolve safe_clear safe_pop_loop : safe.

(** ** Element writes *)

Lemma assign_inv x b a j v h o p Q R :
  consistent h o → o !! x = Some b → data_ b = Some a →
  (∀ h', consistent h' o → kept {[x]} h o h' o → Q tt (World h' o p)) →
  wp True (assign (Some a, j) v) (World h o p) Q R.
Proof.
  intros Hc Hx Ha HQ. unfold assign; simpl. wp_lax. simplify_eq.
  match goal with Hblk : h !! a = Some ?blk, Hv : cells ?blk !! j = Some ?v0 |- _ =>
    obj_facts Hc Hx;
    pose proof (consistent_block _ _ _ _ _ _ Hc Hx Ha Hblk) as Hlive;
    pose proof (live_count_insert_live blk (slots blk) j v v0 Hv) as Hins;
    destruct (consistent_local h o x b b a
                (Block (slots blk) (<[j := v]> (cells blk)))) as [Hc' Hk'];
      rewrite ?SIZE_MOD_eq; try done; try lia
  end.
  rewrite (insert_id o x b) in Hc', Hk' by done. by apply HQ.
Qed.

Lemma safe_iter_swap x i j :
  buff_ i = x → buff_ j = x → safe (T:=T) {[x]} (iter_swap i j).
Proof.
  intros <- Hj [h o p] Hw. unfold iter_swap, deref, data, get_real_index.
  rewrite Hj. wp_lax. simplify_map_eq.
  match goal with Hx : o !! buff_ i = Some ?b |- _ =>
    destruct (data_ b) as [a|] eqn:Ha; [|by wp_lax] end.
  wp_lax. simplify_map_eq.
  apply wp_may_throw; [intros; by apply (good_refl _ (World h o p))|].
  intros p1 _ _. wp_lax. simplify_map_eq.
  apply wp_may_throw; [intros; by apply (good_refl _ (World h o p))|].
  intros p2 _ _. apply wp_bind.
  eapply assign_inv; [done..|]. intros h1 Hc1 Hk1.
  apply wp_bind, wp_may_throw; [intros; by split|].
  intros p3 _ _.
  eapply assign_inv; [done..|]. intros h2 Hc2 Hk2.
  split; [done|]. by eapply kept_trans.
Qed.

Lemma safe_write x i v : safe (T:=T) {[x]} (write x i v).
Proof.
  intros [h o p] Hw. unfold write, op_index. wp_lax.
  match goal with Hx : o !! x = Some ?b |- _ =>
    destruct (data_ b) as [a|] eqn:Ha; [|by unfold assign; wp_lax] end.
  eapply assign_inv; [done..|]. intros h' ? ?. by split.
Qed.

#[local] Hint Resolve safe_iter_swap safe_write : safe.

(** ** The loops of [insert] and [erase] *)

Lemma it_add_buff i n : buff_ (it_add i n) = buff_ i.
Proof. done. Qed.

Lemma safe_insert_shift_up x fuel : ∀ i spot,
  buff_ i = x → safe (T:=T) {[x]} (insert_shift_up fuel i spot).
Proof.
  induction fuel as [|fuel IH]; intros i spot Hi; simpl; safe_go; try by apply IH.
Qed.

Lemma safe_insert_shift_down x fuel : ∀ i spot,
  buff_ i = x → safe (T:=T) {[x]} (insert_shift_down fuel i spot).
Proof.
  induction fuel as [|fuel IH]; intros i spot Hi; simpl; safe_go; try by apply IH.
Qed.

Lemma safe_erase_shift_left x fuel delta : ∀ i,
  buff_ i = x → safe (T:=T) {[x]} (erase_shift_left fuel x i delta).
Proof.
  induction fuel as [|fuel IH]; intros i Hi; simpl; safe_go; try by apply IH.
Qed.

Lemma safe_erase_shift_right x fuel delta : ∀ i,
  buff_ i = x → safe (T:=T) {[x]} (erase_shift_right fuel x i delta).
Proof.
  induction fuel as [|fuel IH]; intros i Hi; simpl; safe_go; try by apply IH.
Qed.

#[local] Hint Resolve safe_insert_shift_up safe_insert_shift_down
  safe_erase_shift_left safe_erase_shift_right : safe.

Lemma safe_erase x fuel first last :
  buff_ first = x → buff_ last = x →
  safe (T:=T) {[x]} (erase fuel x first last).
Proof. intros Hf Hl. unfold erase. safe_go. Qed.

Lemma safe_erase1 x fuel pos :
  buff_ pos = x → safe (T:=T) {[x]} (erase1 fuel x pos).
Proof. intros Hp. unfold erase1. by apply safe_erase. Qed.

#[local] Hint Resolve safe_erase safe_erase1 : safe.

(** ** Objects that appear, disappear, or exchange their fields *)

Lemma consistent_new h o tmp b' h' :
  consistent h o → o !! tmp = None →
  0 ≤ size_ b' ≤ capacity_ b' → capacity_ b' < SIZE_MOD →
  0 ≤ head_ b' → (0 < capacity_ b' → head_ b' < capacity_ b') →
  match data_ b' with
  | None => h' = h
  | Some a => h !! a = None ∧
              ∃ blk, h' = <[a := blk]> h ∧ live_count blk ≤ size_ b'
  end →
  consistent h' (<[tmp := b']> o) ∧ kept ∅ h o h' (<[tmp := b']> o).
Proof.
  intros [Hok Hex] Htmp Hs Hc Hh0 Hh Hd.
  assert (Hframe : ∀ y by_ a, o !! y = Some by_ → data_ by_ = Some a →
                     h' !! a = h !! a ∧ data_ b' ≠ Some a).
  { intros y by_ a Hy Ha. destruct (Hok y by_ Hy) as (_ & _ & _ & _ & Hblk).
    rewrite Ha in Hblk. destruct Hblk as (blk & Hblk & _).
    destruct (data_ b') as [a'|]; [|by subst].
    destruct Hd as (Hfresh & blk' & -> & _).
    assert (a' ≠ a) by congruence.
    rewrite lookup_insert_ne by done. split; [done|congruence]. }
  split; [split|].
  - intros y by_ Hy. destruct (decide (y = tmp)) as [->|Hne].
    + rewrite lookup_insert_eq in Hy. simplify_eq.
      repeat split; try done; try lia.
      destruct (data_ by_) as [a|]; [|done].
      destruct Hd as (_ & blk & -> & ?). exists blk.
      by rewrite lookup_insert_eq.
    + rewrite lookup_insert_ne in Hy by done.
      destruct (Hok y by_ Hy) as (? & ? & ? & ? & Hblk).
      repeat split; try done; try lia.
      destruct (data_ by_) as [a|] eqn:Ha; [|done].
      destruct (Hframe y by_ a Hy Ha) as [-> _]. done.
  - intros y z by_ bz a Hy Hz Hay Haz.
    destruct (decide (y = tmp)) as [->|Hney];
      destruct (decide (z = tmp)) as [->|Hnez]; try done.
    + rewrite lookup_insert_eq in Hy. rewrite lookup_insert_ne in Hz by done.
      simplify_eq. by destruct (Hframe z bz a Hz Haz) as [_ ?].
    + rewrite lookup_insert_eq in Hz. rewrite lookup_insert_ne in Hy by done.
      simplify_eq. by destruct (Hframe y by_ a Hy Hay) as [_ ?].
    + rewrite lookup_insert_ne in Hy, Hz by done. by eapply Hex.
  - intros y by_ _ Hy. assert (y ≠ tmp) by congruence.
    rewrite lookup_insert_ne by done. split; [done|].
    intros a Ha. by destruct (Hframe y by_ a Hy Ha).
Qed.

Lemma consistent_delete h o x b :
  consistent h o → o !! x = Some b →
  let h' := match data_ b with Some a => delete a h | None => h end in
  consistent h' (delete x o) ∧ kept {[x]} h o h' (delete x o).
Proof.
  intros [Hok Hex] Hx h'.
  assert (Hframe : ∀ y by_ a, y ≠ x → o !! y = Some by_ → data_ by_ = Some a →
                     h' !! a = h !! a).
  { intros y by_ a Hne Hy Ha. subst h'.
    destruct (data_ b) as [a'|] eqn:Ha'; [|done].
    rewrite lookup_delete_ne; [done|]. intros ->. apply Hne. by eapply Hex. }
  split; [split|].
  - intros y by_ Hy. apply lookup_delete_Some in Hy as [Hne Hy].
    destruct (Hok y by_ Hy) as (? & ? & ? & ? & Hblk).
    repeat split; try done; try lia.
    destruct (data_ by_) as [a|] eqn:Ha; [|done].
    by rewrite (Hframe y by_ a).
  - intros y z by_ bz a Hy Hz Hay Haz.
    apply lookup_delete_Some in Hy as [_ Hy].
    apply lookup_delete_Some in Hz as [_ Hz]. by eapply Hex.
  - intros y by_ Hy Hby. apply not_elem_of_singleton in Hy.
    rewrite lookup_delete_ne by done. split; [done|].
    intros a Ha. by eapply Hframe.
Qed.

Lemma consistent_swap h o x y bx by_ :
  consistent h o → o !! x = Some bx → o !! y = Some by_ →
  consistent h (<[y := bx]> (<[x := by_]> o)) ∧
  kept {[x; y]} h o h (<[y := bx]> (<[x := by_]> o)).
Proof.
  intros [Hok Hex] Hx Hy.
  assert (Hlk : ∀ z bz, <[y := bx]> (<[x := by_]> o) !! z = Some bz →
            (z = y ∧ bz = bx) ∨ (z ≠ y ∧ z = x ∧ bz = by_) ∨
            (z ≠ y ∧ z ≠ x ∧ o !! z = Some bz)).
  { intros z bz Hz. destruct (decide (z = y)) as [->|Hney].
    - rewrite lookup_insert_eq in Hz. left. by simplify_eq.
    - rewrite lookup_insert_ne in Hz by done. right.
      destruct (decide (z = x)) as [->|Hnex].
      + rewrite lookup_insert_eq in Hz. left. by simplify_eq.
      + rewrite lookup_insert_ne in Hz by done. by right. }
  split; [split|].
  - intros z bz Hz.
    destruct (Hlk z bz Hz) as [[-> ->]|[(_ & -> & ->)|(_ & _ & Hz')]]; eauto.
  - intros z1 z2 b1 b2 a Hz1 Hz2 Ha1 Ha2.
    destruct (Hlk z1 b1 Hz1) as [[-> ->]|[(Hn1y & -> & ->)|(Hn1y & Hn1x & Hz1')]].
    + destruct (Hlk z2 b2 Hz2) as [[-> ->]|[(Hn2y & -> & ->)|(Hn2y & Hn2x & Hz2')]].
      * done.
      * symmetry. by eapply (Hex x y).
      * exfalso. apply Hn2x. symmetry. by eapply (Hex x z2).
    + destruct (Hlk z2 b2 Hz2) as [[-> ->]|[(Hn2y & -> & ->)|(Hn2y & Hn2x & Hz2')]].
      * by eapply (Hex x y).
      * done.
      * exfalso. apply Hn2y. symmetry. by eapply (Hex y z2).
    + destruct (Hlk z2 b2 Hz2) as [[-> ->]|[(Hn2y & -> & ->)|(Hn2y & Hn2x & Hz2')]].
      * exfalso. apply Hn1x. by eapply (Hex z1 x).
      * exfalso. apply Hn1y. by eapply (Hex z1 y).
      * by eapply Hex.
  - intros z bz Hz Hbz.
    apply not_elem_of_union in Hz as [Hzx%not_elem_of_singleton
                                       Hzy%not_elem_of_singleton].
    rewrite !lookup_insert_ne by done. done.
Qed.

Lemma safe_swap x y : safe (T:=T) {[x; y]} (swap x y).
Proof.
  intros [h o p] Hw. unfold swap. wp_lax. simplify_eq.
  match goal with Hx : o !! x = Some ?bx, Hy : o !! y = Some ?by_ |- _ =>
    destruct (consistent_swap h o x y bx by_ Hw Hx Hy) as [Hc Hk] end.
  by split.
Qed.

Lemma safe_default : safe (T:=T) ∅ circular_buffer_default.
Proof.
  intros [h o p] Hw. unfold circular_buffer_default. apply wp_new_obj.
  intros tmp Htmp.
  destruct (consistent_new h o tmp (Buf None 0 0 0) h Hw Htmp) as [Hc Hk];
    simpl; rewrite ?SIZE_MOD_eq; try done; try lia.
Qed.

Lemma safe_destructor x fuel : safe (T:=T) {[x]} (destructor fuel x).
Proof.
  intros w Hw. unfold destructor. apply wp_bind.
  eapply wp_mono; [by apply safe_clear| |done].
  intros _ [h1 o1 p1] Hg. cbv beta. unfold data. wp_lax.
  match goal with Hx : o1 !! x = Some ?b |- _ =>
    destruct Hg as [Hc1 Hk1];
    pose proof (consistent_delete h1 o1 x b Hc1 Hx) as [Hc2 Hk2];
    destruct (data_ b) as [a|] eqn:Ha end.
  - apply wp_operator_delete; [done|]. intros blk Hblk.
    apply wp_end_obj; [done|]. intros _ _. split; [done|].
    eapply kept_trans; [exact Hk1|exact Hk2].
  - apply wp_operator_delete_null.
    apply wp_end_obj; [done|]. intros _ _. split; [done|].
    eapply kept_trans; [exact Hk1|exact Hk2].
Qed.

#[local] Hint Resolve safe_swap safe_default safe_destructor : safe.

(** ** Copy construction keeps consistency *)

Lemma destroy_n_inv a s n : ∀ from c h0 o p Q R,
  (∀ c', Q tt (World (<[a := Block s c']> h0) o p)) →
  wp True (destroy_n (Some a) from n) (World (<[a := Block s c]> h0) o p) Q R.
Proof.
  induction n as [|n IH]; intros from c h0 o p Q R HQ; simpl.
  - apply wp_ret, HQ.
  - unfold destroy. wp_lax.
    match goal with Hb : <[a := _]> h0 !! a = Some ?blk |- _ =>
      rewrite lookup_insert_eq in Hb; injection Hb as <- end.
    simpl. rewrite insert_insert_eq. by apply IH.
Qed.

Lemma destroy_n_null_inv n from h o p Q R :
  Q tt (World h o p) →
  wp True (destroy_n None from n) (World h o p) Q R.
Proof.
  intros HQ. destruct n as [|n]; simpl; [by apply wp_ret|].
  unfold destroy. by wp_lax.
Qed.

Lemma uninitialized_copy_inv other a s L o fuel : ∀ cur c h0 p Q R,
  0 ≤ cur ≤ L → L < SIZE_MOD →
  live_count (Block s c) ≤ cur →
  (∀ c' p', live_count (Block s c') ≤ L →
     Q tt (World (<[a := Block s c']> h0) o p')) →
  (∀ e c' p', R e (World (<[a := Block s c']> h0) o p')) →
  wp True (uninitialized_copy fuel (Iter other cur) (Iter other L) (Some a) cur)
    (World (<[a := Block s c]> h0) o p) Q R.
Proof.
  induction fuel as [|fuel IH]; intros cur c h0 p Q R Hcur HL Hlive HQ HR;
    [done|].
  simpl. unfold it_ne, it_eq; simpl.
  rewrite bool_decide_eq_true_2 by done. simpl.
  destruct (cur =? L) eqn:E; simpl.
  { apply wp_ret. apply HQ. lia. }
  unfold deref, data, get_real_index, construct; simpl. wp_lax.
  all: apply wp_try_catch, wp_bind, wp_may_throw.
  all: try (intros p' Hp'; apply wp_bind; apply destroy_n_inv; intros c';
            by apply wp_throw).
  all: intros p' _ _; wp_lax.
  all: match goal with Hb : <[?a0 := _]> _ !! ?a0 = Some ?blk |- _ =>
         rewrite lookup_insert_eq in Hb; injection Hb as <- end.
  all: simpl; rewrite insert_insert_eq.
  all: unfold it_incr; simpl;
       rewrite wrap_small by (rewrite SIZE_MOD_eq in *; lia).
  all: apply IH; try done; try lia.
  all: match goal with |- live_count (Block _ (<[?j := ?v]> ?c0)) ≤ _ =>
         pose proof (live_count_insert (Block s c0) s j v) end; simpl in *; lia.
Qed.

Lemma uninitialized_copy_null_inv fuel : ∀ first last cur h o p Q R,
  (∀ p', Q tt (World h o p')) →
  (∀ e p', R e (World h o p')) →
  wp True (uninitialized_copy fuel first last None cur) (World h o p) Q R.
Proof.
  induction fuel as [|fuel IH]; intros first last cur h o p Q R HQ HR; [done|].
  simpl. destruct (it_ne first last); [|by apply wp_ret].
  unfold deref, data, get_real_index, construct; simpl. wp_lax.
  all: apply wp_try_catch, wp_bind, wp_may_throw.
  all: try (intros p' Hp'; apply wp_bind; apply destroy_n_null_inv;
            by apply wp_throw).
  all: intros p' _ _; by wp_lax.
Qed.

(** The copy constructor either throws, leaving the heap and the objects
    as they were, or returns a new object that owns fresh storage holding
    at most [size_] live objects. *)
Lemma copy_cap_inv fuel other n h o p Q R :
  consistent h o →
  (∀ tmp bo d h' p',
     o !! tmp = None → o !! other = Some bo →
     match d with
     | None => h' = h
     | Some a => h !! a = None ∧
                 ∃ blk, h' = <[a := blk]> h ∧ live_count blk ≤ size_ bo
     end →
     Q tmp (World h' (<[tmp := Buf d n 0 (size_ bo)]> o) p')) →
  (∀ e p', R e (World h o p')) →
  wp True (circular_buffer_copy_cap fuel other n) (World h o p) Q R.
Proof.
  intros Hc HQ HR. unfold circular_buffer_copy_cap.
  destruct (n =? 0) eqn:En.
  - unfold end_. wp_lax. simplify_eq. apply wp_try_catch.
    apply uninitialized_copy_null_inv.
    + intros p'. wp_lax. apply wp_new_obj. intros tmp Htmp. by eapply HQ.
    + intros e p'. apply wp_bind, wp_operator_delete_null. apply wp_throw, HR.
  - apply wp_bind, wp_bind, wp_operator_new.
    + intros p' _. apply HR.
    + intros p' _ _. apply HR.
    + intros p' a _ _ Hfresh. unfold end_. wp_lax. simplify_eq.
      apply wp_try_catch.
      match goal with Hx : o !! other = Some ?bo |- _ =>
        obj_facts Hc Hx;
        apply (uninitialized_copy_inv other a _ (size_ bo) o fuel 0 ∅ h p') end;
        rewrite ?SIZE_MOD_eq; try done; try lia.
      * intros c' p'' Hlive. wp_lax. apply wp_new_obj. intros tmp Htmp.
        eapply HQ; [done|done|]. split; [done|].
        eexists. split; [reflexivity|done].
      * intros e c' p''. apply wp_bind, wp_operator_delete.
        { by rewrite lookup_insert_eq. }
        intros blk _. rewrite delete_insert_id by done.
        apply wp_throw, HR.
Qed.

(** The temporary made by a copy is swapped with [x] and destroyed. *)
Lemma swap_destroy_inv x tmp fuel w w1 :
  good ∅ w w1 → objs w !! tmp = None →
  wp True (swap tmp x >> destructor fuel tmp) w1
    (λ _, good {[x]} w) (λ _, good {[x]} w).
Proof.
  intros [Hc1 Hk1] Htmp.
  assert (Hmid : ∀ w2, good {[tmp; x]} w1 w2 → good {[tmp; x]} w w2).
  { intros w2 Hg. eapply good_trans; [|exact Hg]. split; [done|].
    eapply kept_mono; [|exact Hk1]. set_solver. }
  assert (Hfin : ∀ w2, good {[tmp; x]} w w2 → good {[x]} w w2).
  { intros w2 [Hc2 Hk2]. split; [done|].
    eapply kept_fresh; [exact Htmp|]. exact Hk2. }
  apply wp_bind.
  eapply wp_mono; [by apply safe_swap|..]; cbv beta.
  2:{ intros e w2 Hg. auto. }
  intros _ w2 Hg.
  eapply wp_mono; [apply (safe_destructor tmp fuel), Hg|..];
    intros ? w3 Hg3; cbv beta in *; apply Hfin.
  all: eapply good_trans; [apply Hmid, Hg|].
  all: destruct Hg3 as [? Hk3]; split; [done|].
  all: eapply kept_mono; [|exact Hk3]; set_solver.
Qed.

Lemma safe_ensure_capacity x fuel n :
  0 ≤ n < SIZE_MOD → safe (T:=T) {[x]} (ensure_capacity fuel x n).
Proof.
  intros Hn [h o p] Hw. unfold ensure_capacity, capacity. wp_lax.
  2:{ by apply good_refl. }
  apply copy_cap_inv; [done| |].
  2:{ intros e p'. by apply (good_refl _ (World h o p)). }
  intros tmp bo d h' p' Htmp Hbo Hd.
  assert (Hcapbo : (capacity_ bo <? n) = true) by (by simplify_eq).
  obj_facts Hw Hbo.
  destruct (consistent_new h o tmp (Buf d n 0 (size_ bo)) h' Hw Htmp)
    as [Hc1 Hk1]; simpl; try lia; [done|].
  apply (swap_destroy_inv x tmp fuel (World h o p)); [by split|done].
Qed.

Lemma safe_reserve x fuel n :
  0 ≤ n < SIZE_MOD → safe (T:=T) {[x]} (reserve fuel x n).
Proof. apply safe_ensure_capacity. Qed.

Lemma safe_copy fuel other : safe (T:=T) ∅ (circular_buffer_copy fuel other).
Proof.
  intros [h o p] Hw. unfold circular_buffer_copy. wp_lax.
  apply copy_cap_inv; [done| |].
  2:{ intros e p'. by apply (good_refl _ (World h o p)). }
  intros tmp bo d h' p' Htmp Hbo Hd.
  assert (b = bo) as -> by congruence.
  obj_facts Hw Hbo.
  destruct (consistent_new h o tmp (Buf d (size_ bo) 0 (size_ bo)) h' Hw Htmp)
    as [Hc1 Hk1]; simpl; rewrite ?SIZE_MOD_eq; try lia; [done|].
  by split.
Qed.

Lemma safe_op_assign x y fuel : safe (T:=T) {[x]} (op_assign fuel x y).
Proof.
  intros [h o p] Hw. unfold op_assign, op_ne, op_eq, circular_buffer_copy.
  wp_lax.
  2:{ by apply good_refl. }
  apply copy_cap_inv; [done| |].
  2:{ intros e p'. by apply (good_refl _ (World h o p)). }
  intros tmp bo d h' p' Htmp Hbo Hd.
  obj_facts Hw Hbo.
  assert (b1 = bo) as -> by congruence.
  destruct (consistent_new h o tmp (Buf d (size_ bo) 0 (size_ bo)) h' Hw Htmp)
    as [Hc1 Hk1]; simpl; rewrite ?SIZE_MOD_eq; try lia; [done|].
  apply (swap_destroy_inv x tmp fuel (World h o p)); [by split|done].
Qed.

#[local] Hint Resolve safe_reserve safe_copy safe_op_assign : safe.

(** ** Pushes keep consistency *)

Lemma construct_inv a j v h o p Q R :
  (∀ p', R copy_failure (World h o p')) →
  (∀ blk p', h !! a = Some blk →
     Q tt (World (<[a := Block (slots blk) (<[j := v]> (cells blk))]> h) o p')) →
  wp True (construct (Some a, j) v) (World h o p) Q R.
Proof.
  intros HR HQ. unfold construct. apply wp_bind, wp_may_throw.
  - intros p' _. apply HR.
  - intros p' _ _. simpl. wp_lax. by apply HQ.
Qed.

Lemma safe_push_back x v fuel : safe (T:=T) {[x]} (push_back fuel x v).
Proof.
  induction fuel as [|fuel IH]; [by apply safe_exhausted|].
  intros [h o p] Hw. simpl. unfold size, capacity. wp_lax. simplify_eq.
  - eapply wp_mono; [apply (safe_ensure_capacity x fuel); [|exact Hw]| |done].
    { pose proof (wrap_range (capacity_ b * 2)). rewrite SIZE_MOD_eq in *.
      case_match; lia. }
    intros r1 w1 Hg1. cbv beta in *.
    eapply wp_mono; [apply IH, Hg1|..]; intros ? w2 Hg2; cbv beta in *;
      eapply good_trans; eassumption.
  - unfold data, tail. wp_lax. simplify_eq.
    match goal with |- wp _ (construct (?d, _) _) _ _ _ =>
      destruct d as [a|] eqn:Ha; [|by unfold construct; apply wp_bind, wp_may_throw;
        [intros; by apply (good_refl _ (World h o p))|intros; simpl; wp_lax]] end.
    apply construct_inv.
    { intros p'. by apply (good_refl _ (World h o p)). }
    intros blk p' Hblk. wp_lax. simplify_eq.
    match goal with Hx : o !! x = Some ?b |- _ =>
      obj_facts Hw Hx;
      pose proof (consistent_block _ _ _ _ _ _ Hw Hx Ha Hblk) as Hlive;
      match goal with |- context [<[?j := v]> (cells blk)] =>
        pose proof (live_count_insert blk (slots blk) j v) as Hins end;
      rewrite (wrap_small (size_ b + 1)) by (rewrite SIZE_MOD_eq; lia);
      destruct (consistent_local h o x b (with_size (size_ b + 1) b) a
                  (Block (slots blk) (<[wrap (head_ b + size_ b) mod capacity_ b := v]>
                                        (cells blk)))) as [Hc' Hk'];
        simpl; rewrite ?SIZE_MOD_eq; try done; try lia
    end.
Qed.

Lemma safe_push_front x v fuel : safe (T:=T) {[x]} (push_front fuel x v).
Proof.
  induction fuel as [|fuel IH]; [by apply safe_exhausted|].
  intros [h o p] Hw. simpl. unfold size, capacity. wp_lax. simplify_eq.
  - eapply wp_mono; [apply (safe_ensure_capacity x fuel); [|exact Hw]| |done].
    { pose proof (wrap_range (capacity_ b * 2)). rewrite SIZE_MOD_eq in *.
      case_match; lia. }
    intros r1 w1 Hg1. cbv beta in *.
    eapply wp_mono; [apply IH, Hg1|..]; intros ? w2 Hg2; cbv beta in *;
      eapply good_trans; eassumption.
  - simplify_eq.
    match goal with |- wp _ (construct (?d, _) _) _ _ _ =>
      destruct d as [a|] eqn:Ha; [|by unfold construct; apply wp_bind, wp_may_throw;
        [intros; by apply (good_refl _ (World h o p))|intros; simpl; wp_lax]] end.
    apply construct_inv.
    { intros p'. by apply (good_refl _ (World h o p)). }
    intros blk p' Hblk. wp_lax. simplify_map_eq. rewrite insert_insert_eq.
    match goal with Hx : o !! x = Some ?b |- _ =>
      obj_facts Hw Hx;
      pose proof (consistent_block _ _ _ _ _ _ Hw Hx Ha Hblk) as Hlive;
      match goal with |- context [<[?j := v]> (cells blk)] =>
        pose proof (live_count_insert blk (slots blk) j v) as Hins;
        pose proof (Z.mod_pos_bound (wrap (wrap (head_ b + capacity_ b) - 1))
                      (capacity_ b)) as Hm;
        rewrite (wrap_small (size_ b + 1)) by (rewrite SIZE_MOD_eq; lia);
        destruct (consistent_local h o x b
                    (with_size (size_ b + 1) (with_head j b)) a
                    (Block (slots blk) (<[j := v]> (cells blk)))) as [Hc' Hk'];
          simpl; rewrite ?SIZE_MOD_eq; try done; try lia
      end
    end.
Qed.

#[local] Hint Resolve safe_push_back safe_push_front : safe.

#[local] Hint Extern 1 (buff_ _ = _) => reflexivity : safe.

Lemma safe_bind_end {A} X x (f : buffer_iterator → @M T A) :
  (∀ s, safe X (f (Iter x s))) → safe X (let* e := end_ x in f e).
Proof.
  intros Hf [h o p] Hw. unfold end_. wp_lax. by apply Hf.
Qed.

Lemma safe_insert x fuel pos v : safe (T:=T) {[x]} (insert fuel x pos v).
Proof.
  unfold insert. apply safe_bind; [safe_go|intros s].
  destruct (_ <? _); [safe_go|].
  apply safe_bind; [safe_go|intros _].
  apply safe_bind_end. intros e. safe_go.
Qed.

#[local] Hint Resolve safe_insert : safe.

(** ** Every call keeps the world consistent *)

Lemma is_size_t_range n : is_size_t n = true → 0 ≤ n < SIZE_MOD.
Proof. unfold is_size_t. intros [? ?]%andb_prop. lia. Qed.

Lemma safe_apply_op x fuel op : safe (T:=T) {[x]} (apply_op fuel x op).
Proof. destruct op; simpl; eauto with safe. Qed.

Lemma safe_run_call fuel c :
  valid_call c = true → safe (T:=T) (target c) (run_call fuel c).
Proof.
  intros Hv. destruct c; simpl in *.
  - safe_go.
  - safe_go.
  - eauto with safe.
  - eauto with safe.
  - eauto with safe.
  - apply safe_apply_op.
  - apply safe_reserve. by apply is_size_t_range.
  - safe_go.
  - safe_go.
  - safe_go.
  - eauto with safe.
  - eauto with safe.
Qed.

Lemma after_good {A} X (m : @M T A) w w' :
  safe X m → world_inv w → after (m w) = Some w' → good X w w'.
Proof.
  intros Hs Hw Ha. specialize (Hs w Hw). unfold wp in Hs.
  destruct (m w); simpl in Ha; by simplify_eq.
Qed.

Lemma steps_world_inv cs w w' : steps cs w w' → world_inv w → world_inv w'.
Proof.
  induction 1 as [|c cs fuel w w1 w2 Hv Ha _ IH]; [done|].
  intros Hw. apply IH.
  by destruct (after_good _ _ _ _ (safe_run_call fuel c Hv) Hw Ha).
Qed.

Lemma reachable_world_inv w : reachable w → world_inv w.
Proof.
  intros (cs & p & Hs). eapply steps_world_inv; [done|].
  split; simpl; intros ?; intros; by simplify_map_eq.
Qed.

(** Calls that do not target [y] leave it as it is. *)
Lemma steps_keeps cs w w' y b :
  steps cs w w' → world_inv w → Forall (λ c, y ∉ target c) cs →
  objs w !! y = Some b →
  objs w' !! y = Some b ∧ ∀ a, data_ b = Some a → heap w' !! a = heap w !! a.
Proof.
  induction 1 as [|c cs fuel w w1 w2 Hv Ha _ IH]; [done|].
  intros Hw Hall Hy. apply Forall_cons in Hall as [Hc Hall].
  destruct (after_good _ _ _ _ (safe_run_call fuel c Hv) Hw Ha) as [Hw1 Hk].
  destruct (Hk y b Hc Hy) as [Hy1 Hh1].
  destruct (IH Hw1 Hall Hy1) as [Hy2 Hh2]. split; [done|].
  intros a Hd. rewrite Hh2, Hh1; done.
Qed.

Lemma mapM_ext_option {A B} (f g : A → option B) (l : list A) :
  (∀ x, f x = g x) → mapM f l = mapM g l.
Proof.
  intros Hfg. induction l as [|x l IH]; [done|].
  simpl. by rewrite Hfg, IH.
Qed.

Lemma at_same w w' y b :
  objs w !! y = Some b → objs w' !! y = Some b →
  (∀ a, data_ b = Some a → heap w' !! a = heap w !! a) →
  ∀ i, at_ w' y i = at_ w y i.
Proof.
  intros Hy Hy' Hh i. unfold at_, read, op_index, bind, get_obj, load, ret, undefined.
  rewrite Hy, Hy'. destruct (capacity_ b =? 0); [done|]. simpl.
  destruct (data_ b) as [a|] eqn:Ha; [|done].
  rewrite (Hh a) by done. destruct (heap w !! a) as [blk|]; [|done].
  case_bool_decide; [|done]. by destruct (cells blk !! _).
Qed.

Lemma contents_same w w' y b :
  objs w !! y = Some b → objs w' !! y = Some b →
  (∀ a, data_ b = Some a → heap w' !! a = heap w !! a) →
  contents w' y = contents w y.
Proof.
  intros Hy Hy' Hh. unfold contents. rewrite Hy, Hy'. simpl.
  apply mapM_ext_option. by eapply at_same.
Qed.

(** C8. In every world reached from nothing by calls of the public
    interface (constructions, destructions, assignments, swaps, pushes,
    pops, reserve, insert, erase, clear, element writes, with any
    arguments, returning or throwing), every buffer has
    [0 <= size <= capacity], and its storage holds at most [size] live
    elements. *)
Theorem C8_size_within_capacity (w : world) (x : objid) (s c : Z) :
  reachable w →
  size x w = Done s w → capacity x w = Done c w →
  0 ≤ s ≤ c ∧
  ∀ a blk, data x w = Done (Some a) w → heap w !! a = Some blk →
    live_count blk ≤ s.
Proof.
  intros Hr Hs Hc. apply reachable_world_inv in Hr.
  unfold size, capacity, data, bind, get_obj, ret in *.
  destruct (objs w !! x) as [b|] eqn:Hb; [|done]. simplify_eq.
  destruct Hr as [Hok _]. destruct (Hok x b Hb) as (? & _ & _ & _ & Hblk).
  split; [done|]. intros a blk [= Ha] Hblk'. rewrite Ha in Hblk.
  destruct Hblk as (? & ? & ?). by simplify_eq.
Qed.

(** C10. In every world reached from nothing by calls of the public
    interface, a buffer of capacity above zero has [0 <= head < capacity],
    so the slot [(head + i) mod capacity] of every logical index is a slot
    of the storage's index range. *)
Theorem C10_head_within_capacity (w : world) (x : objid)
    (b : circular_buffer) :
  reachable w →
  objs w !! x = Some b → 0 < capacity_ b →
  0 ≤ head_ b < capacity_ b ∧
  ∀ i, 0 ≤ i < size_ b → 0 ≤ (head_ b + i) mod capacity_ b < capacity_ b.
Proof.
  intros Hr Hb Hc. apply reachable_world_inv in Hr.
  destruct Hr as [Hok _]. destruct (Hok x b Hb) as (_ & _ & ? & Hh & _).
  split; [split; [done|by apply Hh]|].
  intros i _. by apply Z.mod_pos_bound.
Qed.

(** ** Copy construction of a well-formed buffer *)

Lemma copy_spec u fuel other b l h o p Q R :
  repr_at (World h o p) other b l →
  (length l < fuel)%nat →
  (∀ tmp d h' p', let b' := Buf d (size_ b) 0 (size_ b) in
     o !! tmp = None → shape b' l → stores h' b' l →
     (∀ a, is_Some (h !! a) → h' !! a = h !! a) →
     (p = [] → p' = []) →
     Q tmp (World h' (<[tmp := b']> o) p')) →
  (∀ e p', p ≠ [] → R e (World h o p')) →
  wp u (circular_buffer_copy fuel other) (World h o p) Q R.
Proof.
  intros Hr Hfuel HQ HR. pose proof Hr as (Hb & Hsh & Hst). simpl in Hb, Hst.
  shape_facts Hsh. pose proof (shape_size _ _ Hsh) as Hlen.
  pose proof (shape_bytes _ _ Hsh) as Hbytes. rewrite max_bytes_eq in Hbytes.
  pose proof sizeof_bound as Hsz.
  unfold circular_buffer_copy. wp_go.
  eapply copy_cap_spec; [done|done|done|lia| |lia|..].
  - rewrite SIZE_MOD_eq. nia.
  - intros tmp d h' p' b' Htmp Hsh' Hst' Hfr _ Hp'. by apply HQ.
  - intros e p' Hcause. apply HR. intros ->. specialize (Hcause eq_refl).
    rewrite max_bytes_eq in Hcause. nia.
Qed.

(** C6. Copy construction from a well-formed buffer [A] holding [l], in a
    consistent world, involves no undefined behaviour and terminates. When
    it returns, the new buffer [B] is another object, both hold [l], the
    capacity of [B] is the size of [A], its head is 0; and whatever calls
    follow, the content of [B] is not changed by calls that do not target
    [B], nor that of [A] by calls that do not target [A]. When it throws,
    a failure was scripted and [A] is as before. *)
Theorem C6_copy_is_deep_and_compact (fuel : nat) (A : objid) (l : list T)
    (w : world) :
  world_inv w → repr w A l → (length l < fuel)%nat →
  match circular_buffer_copy fuel A w with
  | Done B w' =>
      B ≠ A ∧
      contents w' B = Some l ∧ contents w' A = Some l ∧
      capacity B w' = Done (Z.of_nat (length l)) w' ∧
      (∃ b, objs w' !! B = Some b ∧ head_ b = 0) ∧
      ∀ cs w'', steps cs w' w'' →
        (Forall (λ c, B ∉ target c) cs → contents w'' B = Some l) ∧
        (Forall (λ c, A ∉ target c) cs → contents w'' A = Some l)
  | Thrown _ w' => ¬ calm w ∧ contents w' A = Some l
  | Undefined | Exhausted => False
  end.
Proof.
  intros Hw [b Hr] Hfuel. destruct w as [h o p].
  pose proof Hr as (Hb & Hsh & Hst). simpl in Hb, Hst.
  pose proof (shape_size _ _ Hsh) as Hlen.
  pose proof (safe_copy fuel A _ Hw) as Hsafe.
  pose proof (copy_spec False fuel A b l h o p
    (λ B w', B ≠ A ∧ repr w' B l ∧ repr w' A l ∧
       ∃ b', objs w' !! B = Some b' ∧ capacity_ b' = Z.of_nat (length l) ∧
             head_ b' = 0)
    (λ _ w', p ≠ [] ∧ repr w' A l) Hr Hfuel) as Hwp.
  unfold wp in Hsafe, Hwp.
  assert (HQ : ∀ tmp d h' p',
    o !! tmp = None →
    shape (Buf d (size_ b) 0 (size_ b)) l →
    stores h' (Buf d (size_ b) 0 (size_ b)) l →
    (∀ a, is_Some (h !! a) → h' !! a = h !! a) →
    (p = [] → p' = []) →
    tmp ≠ A ∧
    repr (World h' (<[tmp := Buf d (size_ b) 0 (size_ b)]> o) p') tmp l ∧
    repr (World h' (<[tmp := Buf d (size_ b) 0 (size_ b)]> o) p') A l ∧
    ∃ b', objs (World h' (<[tmp := Buf d (size_ b) 0 (size_ b)]> o) p') !! tmp
            = Some b' ∧
          capacity_ b' = Z.of_nat (length l) ∧ head_ b' = 0).
  { intros tmp d h' p' Htmp Hsh' Hst' Hfr Hp'.
    assert (tmp ≠ A) by congruence.
    split; [done|]. split; [|split].
    - eexists. split; [apply lookup_insert_eq|done].
    - exists b. split; [simpl; by rewrite lookup_insert_ne|]. split; [done|].
      eapply stores_frame; [|done]. intros a Ha. apply Hfr.
      unfold stores in Hst. rewrite Ha in Hst. destruct Hst as (? & -> & _). done.
    - eexists. split; [apply lookup_insert_eq|]. simpl. by rewrite <- Hlen. }
  specialize (Hwp HQ). clear HQ.
  specialize (Hwp ltac:(intros e p' Hp; split; [done|]; by exists b)).
  destruct (circular_buffer_copy fuel A _) as [B w'|e w'| |]; try done.
  - destruct Hsafe as [Hw' _].
    destruct Hwp as (Hne & HrB & HrA & b' & Hb' & Hcap & Hhead).
    split; [done|]. split; [by apply repr_contents|].
    split; [by apply repr_contents|]. split; [|split; [eauto|]].
    { unfold capacity, bind, get_obj, ret. by rewrite Hb', Hcap. }
    intros cs w'' Hsteps. destruct HrA as (bA & HbA & HshA & HstA).
    split; intros Hall.
    + destruct (steps_keeps cs w' w'' B b' Hsteps Hw' Hall Hb') as [Hb'' Hh''].
      rewrite (contents_same w' w'' B b') by done. by apply repr_contents.
    + destruct (steps_keeps cs w' w'' A bA Hsteps Hw' Hall HbA) as [Hb'' Hh''].
      rewrite (contents_same w' w'' A bA) by done. apply repr_contents.
      by exists bA.
  - destruct Hwp as [Hp HrA]. split; [done|]. by apply repr_contents.
Qed.

(** C7. Self-assignment of any existing buffer returns at once and leaves
    the whole world (the buffer's content, size, capacity and head, and
    everything else) as it was. *)
Theorem C7_self_assignment_is_identity (fuel : nat) (x : objid)
    (b : circular_buffer) (w : world) :
  objs w !! x = Some b → op_assign fuel x x w = Done tt w.
Proof.
  intros Hb. unfold op_assign, op_ne, op_eq, bind, get_obj, ret.
  rewrite Hb. simpl. rewrite Hb. simpl.
  rewrite bool_decide_eq_true_2 by done.
  by rewrite !Z.eqb_refl.
Qed.

(** C9. Two buffers default-constructed one after the other are distinct
    objects, both with a null storage pointer, head 0, size 0 and capacity
    0; [operator==] finds them equal, and assigning one to the other
    returns at once without copying: the world is unchanged. *)
Theorem C9_default_buffers_compare_equal (fuel : nat) (w w1 w2 : world)
    (x y : objid) :
  circular_buffer_default w = Done x w1 →
  circular_buffer_default w1 = Done y w2 →
  x ≠ y ∧
  objs w2 !! x = Some (Buf None 0 0 0) ∧ objs w2 !! y = Some (Buf None 0 0 0) ∧
  op_eq x y w2 = Done true w2 ∧
  op_assign fuel x y w2 = Done tt w2.
Proof.
  unfold circular_buffer_default, new_obj. intros [= <- <-] [= <- <-]. simpl.
  set (x := fresh (dom (objs w))).
  set (y := fresh (dom (<[x := Buf None 0 0 0]> (objs w)))).
  assert (Hne : x ≠ y).
  { intros Heq. pose proof (is_fresh (dom (<[x := Buf None 0 0 0]> (objs w)))) as Hf.
    fold y in Hf. rewrite <- Heq in Hf. apply Hf.
    rewrite dom_insert. set_solver. }
  assert (Hy : <[y := Buf None 0 0 0]> (<[x := Buf None 0 0 0]> (objs w)) !! y
               = Some (Buf None 0 0 0)) by apply lookup_insert_eq.
  assert (Hx : <[y := Buf None 0 0 0]> (<[x := Buf None 0 0 0]> (objs w)) !! x
               = Some (Buf None 0 0 0)).
  { rewrite lookup_insert_ne by done. apply lookup_insert_eq. }
  split; [done|]. split; [done|]. split; [done|].
  unfold op_assign, op_ne, op_eq, bind, get_obj, ret; simpl.
  repeat (progress (rewrite ?Hx, ?Hy; simpl)). done.
Qed.

(** What is left of the strong guarantee: when a push on a well-formed
    buffer throws, the buffer still holds the same elements, in a
    well-formed state. *)
Lemma push_failure_keeps_content (fuel : nat) (x : objid) (l : list T) (v : T)
    (w : world) :
  repr w x l → (length l + 2 ≤ fuel)%nat →
  match push_back fuel x v w with
  | Thrown _ w' => repr w' x l
  | _ => True
  end ∧
  match push_front fuel x v w with
  | Thrown _ w' => repr w' x l
  | _ => True
  end.
Proof.
  intros [b Hr] Hfuel. destruct w as [h o p]. split.
  - pose proof (push_back_spec True fuel x b l v h o p
      (λ _ _, True) (λ _ w', repr w' x l) Hr Hfuel) as Hwp.
    unfold wp in Hwp. destruct (push_back fuel x v _); try done.
    apply Hwp; [done|]. intros e' h' p' b' Hsh' Hst' _ _.
    exists b'. split; [apply lookup_insert_eq|done].
  - pose proof (push_front_spec True fuel x b l v h o p
      (λ _ _, True) (λ _ w', repr w' x l) Hr Hfuel) as Hwp.
    unfold wp in Hwp. destruct (push_front fuel x v _); try done.
    apply Hwp; [done|]. intros e' h' p' b' Hsh' Hst' _ _.
    exists b'. split; [apply lookup_insert_eq|done].
Qed.

(** ** Exact runs *)

Lemma bind_done {A B} (m : M A) (f : A → M B) w a w' :
  m w = Done a w' → bind m f w = f a w'.
Proof. unfold bind. by intros ->. Qed.

Lemma bind_assoc {A B C} (m : M A) (f : A → M B) (g : B → M C) w :
  bind (bind m f) g w = bind m (λ a, bind (f a) g) w.
Proof. unfold bind. by destruct (m w). Qed.

(** The allocation of one element, let through by the script. *)
Lemma operator_new_one h o p :
  operator_new (wrap (Z.pos sizeof * 1)) (World h o (false :: p)) =
  Done (fresh (dom h)) (World (<[fresh (dom h) := Block 1 ∅]> h) o p).
Proof.
  unfold operator_new, bind, may_throw. simpl.
  pose proof sizeof_max as Hmax. rewrite Z.mul_1_r.
  rewrite wrap_small
    by (rewrite SIZE_MOD_eq; unfold PTRDIFF_MAX, SIZE_WIDTH in Hmax;
        simpl in Hmax; lia).
  rewrite bool_decide_eq_false_2 by (unfold max_bytes; lia).
  rewrite Z_div_same by lia. done.
Qed.

Ltac eval_fields :=
  cbn [capacity_ size_ head_ data_ Z.ltb Z.eqb Z.compare Pos.compare
       Pos.compare_cont Pos.eqb]; cbv iota.

Ltac run_bind := erewrite bind_done by reflexivity; eval_fields.

(** The empty buffer grows to capacity 1: one block of one slot is
    allocated (the script lets the allocation through), nothing is copied,
    the old empty storage is released. *)
Lemma grow_empty fuel p :
  ensure_capacity (S fuel) 1 1
    (World ∅ {[1%positive := Buf None 0 0 0]} (false :: p)) =
  Done tt (World {[1%positive := Block 1 ∅]}
             {[1%positive := Buf (Some 1%positive) 1 0 0]} p).
Proof.
  unfold ensure_capacity. run_bind.
  unfold circular_buffer_copy_cap. eval_fields.
  rewrite !bind_assoc.
  rewrite (bind_done _ _ _ _ _ (operator_new_one _ _ _)).
  vm_compute. reflexivity.
Qed.

(** C2, at the input where it fails. An empty, default-constructed buffer
    (capacity 0); the allocation of the growth succeeds and the copy of the
    pushed value throws. The exception leaves the push with the buffer
    still empty but of capacity 1. *)
Theorem C2_push_throws_after_growth (v : T) :
  ∃ x w1 w' w'',
    circular_buffer_default (World ∅ ∅ [false; true]) = Done x w1 ∧
    capacity x w1 = Done 0 w1 ∧
    push_back 2 x v w1 = Thrown copy_failure w' ∧
    size x w' = Done 0 w' ∧ capacity x w' = Done 1 w' ∧
    push_front 2 x v w1 = Thrown copy_failure w'' ∧
    size x w'' = Done 0 w'' ∧ capacity x w'' = Done 1 w''.
Proof.
  exists 1%positive, (World ∅ {[1%positive := Buf None 0 0 0]} [false; true]).
  exists (World {[1%positive := Block 1 ∅]}
            {[1%positive := Buf (Some 1%positive) 1 0 0]} []).
  exists (World {[1%positive := Block 1 ∅]}
            {[1%positive := Buf (Some 1%positive) 1 0 0]} []).
  repeat split; try reflexivity.
  - cbn [push_back]. do 2 run_bind.
    rewrite (bind_done _ _ _ _ _ (grow_empty 0 _)).
    vm_compute. reflexivity.
  - cbn [push_front]. do 2 run_bind.
    rewrite (bind_done _ _ _ _ _ (grow_empty 0 _)).
    vm_compute. reflexivity.
Qed.

(** The content after a run of end operations, as a representation. *)
Lemma run_ops_repr (ops : list deque_op) (l : list T) (fuel : nat)
    (w w1 w' : world) (this : objid) :
  circular_buffer_default w = Done this w1 →
  deque_run ops [] = Some l →
  (length ops + 2 ≤ fuel)%nat →
  run_ops fuel this ops w1 = Done tt w' →
  repr w' this l.
Proof.
  intros Hctor Hrun Hfuel Hdone. destruct w as [h o p].
  pose proof (default_spec False h o p
    (λ x w', x = this → w' = w1 →
       repr_at w1 this (Buf None 0 0 0) []) (λ _ _, True)) as Hd.
  unfold wp in Hd. rewrite Hctor in Hd.
  specialize (Hd ltac:(by intros x Hx Hrx -> <-) eq_refl eq_refl).
  destruct w1 as [h1 o1 p1].
  pose proof (run_ops_spec fuel this ops 0 _ [] h1 o1 p1 l Hd Hrun) as Hwp.
  unfold wp in Hwp. rewrite Hdone in Hwp. apply Hwp; simpl; lia.
Qed.

(** * More of the interface *)

(** ** [clear], [reserve], [swap], the destructor *)

(** [clear ()] on a well-formed buffer returns at once, whatever failures
    are scripted: the buffer is empty, and it keeps its storage, capacity
    and head; no other object changes. *)
Theorem clear_keeps_storage fuel this b l w :
  repr_at w this b l → (length l < fuel)%nat →
  match clear fuel this w with
  | Done _ w' =>
      contents w' this = Some [] ∧
      objs w' = <[this := with_size 0 b]> (objs w) ∧
      pending w' = pending w
  | Thrown _ _ | Undefined | Exhausted => False
  end.
Proof.
  intros Hr Hfuel. destruct w as [h o p].
  eapply (clear_spec False); [done|done|].
  intros h' b' Hsh' Hst' _. split; [|done].
  apply repr_contents. exists b'. split; [apply lookup_insert_eq|done].
Qed.

(** [reserve (n)] keeps the content. It never shrinks: with
    [n <= capacity ()] nothing at all changes; otherwise the capacity
    becomes exactly [n]. When it throws, heap and objects are exactly as
    before the call. *)
Theorem reserve_grows_or_keeps fuel this b l n w :
  repr_at w this b l → Z.pos sizeof * n < SIZE_MOD → (length l < fuel)%nat →
  match reserve fuel this n w with
  | Done _ w' =>
      contents w' this = Some l ∧
      capacity this w' = Done (Z.max (capacity_ b) n) w' ∧
      (n ≤ capacity_ b → w' = w)
  | Thrown _ w' =>
      ¬ (calm w ∧ Z.pos sizeof * n ≤ max_bytes) ∧ capacity_ b < n ∧
      heap w' = heap w ∧ objs w' = objs w
  | Undefined | Exhausted => False
  end.
Proof.
  intros Hr Hn Hfuel. destruct w as [h o p]. unfold reserve.
  destruct (decide (n ≤ capacity_ b)) as [Hle|Hgt].
  - eapply (ensure_capacity_enough False); [apply Hr|done|].
    split; [apply repr_contents; by exists b|]. split; [|done].
    rewrite Z.max_l by done. exact (repr_capacity _ _ _ _ Hr).
  - eapply (ensure_capacity_grow False); [done|lia|done|done|..].
    + intros d h' p' b' Hsh' Hst' _.
      assert (repr_at (World h' (<[this:=b']> o) p') this b' l) as Hr'
        by (split; [apply lookup_insert_eq|done]).
      split; [apply repr_contents; by eexists|].
      rewrite Z.max_r by lia. split; [|lia].
      exact (repr_capacity _ _ _ _ Hr').
    + intros e' p' Hp. split; [|split; [lia|done]].
      intros [Hcalm Hsz]. specialize (Hp Hcalm). lia.
Qed.

(** [swap (x, y)] exchanges the two buffers, fields and content, without
    touching the heap, and a second [swap] restores the world. *)
Theorem swap_exchanges x y bx by_ lx ly w :
  x ≠ y → repr_at w x bx lx → repr_at w y by_ ly →
  match swap x y w with
  | Done _ w' =>
      repr_at w' x by_ ly ∧ repr_at w' y bx lx ∧
      heap w' = heap w ∧ swap x y w' = Done tt w
  | Thrown _ _ | Undefined | Exhausted => False
  end.
Proof.
  intros Hxy (Hx & Hshx & Hstx) (Hy & Hshy & Hsty). destruct w as [h o p].
  simpl in Hx, Hy, Hstx, Hsty.
  eapply (swap_spec False); [done|done|done|].
  split; [|split; [|split; [done|]]].
  - split; [|done]. simpl. rewrite lookup_insert_ne by done.
    apply lookup_insert_eq.
  - split; [|done]. apply lookup_insert_eq.
  - unfold swap, bind, get_obj, put_obj.
    repeat (cbn [objs heap pending set_objs];
            first [rewrite lookup_insert_eq
                  |rewrite lookup_insert_ne by done]).
    assert (<[y:=by_]> (<[x:=bx]> (<[y:=bx]> (<[x:=by_]> o))) = o) as ->;
      [|done].
    apply map_eq. intros k.
    destruct (decide (k = y)) as [->|Hky].
    { by rewrite lookup_insert_eq. }
    rewrite lookup_insert_ne by done.
    destruct (decide (k = x)) as [->|Hkx].
    { by rewrite lookup_insert_eq. }
    by rewrite !lookup_insert_ne by done.
Qed.

(** The destructor of a well-formed buffer returns, whatever failures are
    scripted: the object is gone, its storage block is released, and every
    other block is as before. *)
Theorem destructor_releases_storage fuel this b l w :
  repr_at w this b l → (length l < fuel)%nat →
  match destructor fuel this w with
  | Done _ w' =>
      objs w' = delete this (objs w) ∧
      (∀ a, data_ b = Some a → heap w' !! a = None) ∧
      (∀ a, data_ b ≠ Some a → heap w' !! a = heap w !! a) ∧
      pending w' = pending w
  | Thrown _ _ | Undefined | Exhausted => False
  end.
Proof.
  intros Hr Hfuel. destruct w as [h o p].
  eapply (destructor_spec False); [done|done|].
  intros h' Hfr Hgone. done.
Qed.

(** ** The ends *)

(** The pops neither throw nor touch the capacity or the storage pointer:
    [pop_back] only decrements the size, [pop_front] also advances the
    head by one, modulo the capacity. *)
Theorem pops_keep_storage this b l w :
  repr_at w this b l → l ≠ [] →
  match pop_back this w with
  | Done _ w' =>
      repr_at w' this (with_size (size_ b - 1) b) (removelast l) ∧
      pending w' = pending w
  | Thrown _ _ | Undefined | Exhausted => False
  end ∧
  match pop_front this w with
  | Done _ w' =>
      repr_at w' this
        (Buf (data_ b) (capacity_ b) ((head_ b + 1) mod capacity_ b)
           (size_ b - 1)) (drop 1 l) ∧
      pending w' = pending w
  | Thrown _ _ | Undefined | Exhausted => False
  end.
Proof.
  intros Hr Hne. destruct w as [h o p]. split.
  - destruct l as [|v l _] using rev_ind; [done|].
    rewrite removelast_last.
    eapply (pop_back_spec False); [done|].
    intros h' b' Hsh' Hst' _. split; [|done].
    split; [apply lookup_insert_eq|done].
  - destruct l as [|v l]; [done|]. simpl. rewrite drop_0.
    eapply (pop_front_spec False); [done|].
    intros h' b' Hsh' Hst' _. split; [|done].
    split; [apply lookup_insert_eq|done].
Qed.

(** A push into a buffer that has room does not reallocate: capacity and
    storage pointer stay, [push_back] leaves the head and [push_front]
    moves it back by one, modulo the capacity. Such a push has the strong
    guarantee: when the copy throws, heap and objects are as before. *)
Theorem push_with_room_is_strong fuel this b l v w :
  repr_at w this b l → size_ b < capacity_ b → (0 < fuel)%nat →
  match push_back fuel this v w with
  | Done _ w' => repr_at w' this (with_size (size_ b + 1) b) (l ++ [v])
  | Thrown _ w' => ¬ calm w ∧ heap w' = heap w ∧ objs w' = objs w
  | Undefined | Exhausted => False
  end ∧
  match push_front fuel this v w with
  | Done _ w' =>
      repr_at w' this
        (Buf (data_ b) (capacity_ b)
           ((head_ b + capacity_ b - 1) mod capacity_ b) (size_ b + 1))
        (v :: l)
  | Thrown _ w' => ¬ calm w ∧ heap w' = heap w ∧ objs w' = objs w
  | Undefined | Exhausted => False
  end.
Proof.
  intros Hr Hroom Hfuel. destruct w as [h o p]. split.
  - eapply (push_back_room False); [done|done|done|..].
    + intros h' p' b' Hsh' Hst' _. split; [apply lookup_insert_eq|done].
    + intros e p' Hp. done.
  - eapply (push_front_room False); [done|done|done|..].
    + intros h' p' b' Hsh' Hst' _. split; [apply lookup_insert_eq|done].
    + intros e p' Hp. done.
Qed.

(** A copy construction that throws leaves no trace: the elements copied
    so far are destroyed and the new block is released, so heap and
    objects are exactly as before. *)
Theorem failed_copy_leaves_no_trace fuel other l w :
  repr w other l → (length l < fuel)%nat →
  match circular_buffer_copy fuel other w with
  | Done _ _ => True
  | Thrown _ w' => ¬ calm w ∧ heap w' = heap w ∧ objs w' = objs w
  | Undefined | Exhausted => False
  end.
Proof.
  intros [b Hr] Hfuel. destruct w as [h o p].
  eapply (copy_spec False); [done|done|..].
  - done.
  - intros e p' Hp. done.
Qed.

(** ** Iterators *)

Lemma wrap_wrap_l a c : wrap (wrap a + c) = wrap (a + c).
Proof. unfold wrap. by rewrite Z.add_mod_idemp_l. Qed.

Lemma wrap_wrap_r a c : wrap (a + wrap c) = wrap (a + c).
Proof. unfold wrap. by rewrite Z.add_mod_idemp_r. Qed.

Lemma wrap_idemp a : wrap (wrap a) = wrap a.
Proof. unfold wrap. by rewrite Z.mod_mod. Qed.

(** Iterator arithmetic is arithmetic on the offset modulo [2 ^ 64]:
    increment and decrement, and adding and subtracting the same signed
    distance, undo each other; additions compose; and the difference of
    [i + n] and [i] is [n]. *)
Theorem iterator_arithmetic i n m :
  0 ≤ offset_ i < SIZE_MOD → - 2 ^ 63 < n < 2 ^ 63 →
  it_decr (it_incr i) = i ∧ it_incr (it_decr i) = i ∧
  it_sub (it_add i n) n = i ∧
  it_add (it_add i n) m = it_add i (n + m) ∧
  it_diff (it_add i n) i = n.
Proof.
  intros Hi Hn. destruct i as [x k]. simpl in Hi.
  unfold it_decr, it_incr, it_sub, it_add, it_diff; simpl.
  assert (Hsub : ∀ a c, wrap (wrap a - c) = wrap (a - c)).
  { intros a c. replace (wrap a - c) with (wrap a + - c) by lia.
    by rewrite wrap_wrap_l. }
  repeat split.
  - f_equal. rewrite Hsub. replace (k + 1 - 1) with k by lia.
    by apply wrap_small.
  - f_equal. rewrite wrap_wrap_l. replace (k - 1 + 1) with k by lia.
    by apply wrap_small.
  - f_equal. rewrite wrap_wrap_l. replace (k + n + - n) with k by lia.
    by apply wrap_small.
  - f_equal. rewrite wrap_wrap_l. f_equal. lia.
  - rewrite Hsub. replace (k + n - k) with n by lia.
    apply to_ptrdiff_small. lia.
Qed.

(** The order of iterators, as the code has it. Within one buffer it is
    the order of the offsets. Across two buffers [==] and [>] are false,
    and [<], defined as their joint negation, is true in both
    directions. *)
Theorem iterator_order i j :
  let same := bool_decide (buff_ i = buff_ j) in
  it_eq i j = (if same then offset_ i =? offset_ j else false) ∧
  it_gt i j = (if same then offset_ j <? offset_ i else false) ∧
  it_lt i j = (if same then offset_ i <? offset_ j else true) ∧
  it_ge i j = (if same then offset_ j <=? offset_ i else false) ∧
  it_le i j = (if same then offset_ i <=? offset_ j else true) ∧
  it_ne i j = (if same then negb (offset_ i =? offset_ j) else true).
Proof.
  unfold it_le, it_ge, it_lt, it_ne, it_gt, it_eq. simpl.
  destruct (bool_decide (buff_ i = buff_ j)); simpl; [|done].
  repeat split; try done.
  all: destruct (offset_ i =? offset_ j) eqn:E1;
    destruct (offset_ j <? offset_ i) eqn:E2; simpl; symmetry; lia.
Qed.

(** What [operator*], the iterator's [operator[]] and the buffer's
    [operator[]] compute. *)
Lemma deref_run i w :
  deref i w =
  match objs w !! buff_ i with
  | Some b =>
      if capacity_ b =? 0 then Undefined
      else Done (data_ b, wrap (wrap (offset_ i + head_ b) + 0) mod capacity_ b) w
  | None => Undefined
  end.
Proof.
  unfold deref, data, get_real_index, bind, get_obj, ret, undefined.
  destruct (objs w !! buff_ i) as [b|] eqn:E; [|reflexivity].
  rewrite E. by destruct (capacity_ b =? 0).
Qed.

Lemma it_index_run i off w :
  it_index i off w =
  match objs w !! buff_ i with
  | Some b =>
      if capacity_ b =? 0 then Undefined
      else Done (data_ b, wrap (wrap (offset_ i + head_ b) + off) mod capacity_ b) w
  | None => Undefined
  end.
Proof.
  unfold it_index, data, get_real_index, bind, get_obj, ret, undefined.
  destruct (objs w !! buff_ i) as [b|] eqn:E; [|reflexivity].
  rewrite E. by destruct (capacity_ b =? 0).
Qed.

Lemma op_index_run this k w :
  op_index this k w =
  match objs w !! this with
  | Some b =>
      if capacity_ b =? 0 then Undefined
      else Done (data_ b, wrap (head_ b + k) mod capacity_ b) w
  | None => Undefined
  end.
Proof.
  unfold op_index, bind, get_obj, ret, undefined.
  destruct (objs w !! this) as [b|] eqn:E; [|reflexivity].
  by destruct (capacity_ b =? 0).
Qed.

(** The iterator's [operator[]] and [operator*] and the buffer's
    [operator[]] address the same slot: [i[off]] is the element at
    [i + off], and the element at [begin () + k] is the buffer's element
    [k], for all offsets, in range or not. *)
Theorem iterator_index_is_buffer_index i off this k w :
  it_index i off w = deref (it_add i off) w ∧
  deref (it_add (begin this) k) w = op_index this k w.
Proof.
  rewrite it_index_run, !deref_run, op_index_run. simpl. split.
  - destruct (objs w !! buff_ i) as [b|]; [|reflexivity].
    destruct (capacity_ b =? 0); [reflexivity|].
    do 3 f_equal. rewrite Z.add_0_r, wrap_idemp.
    rewrite !wrap_wrap_l. f_equal. lia.
  - destruct (objs w !! this) as [b|]; [|reflexivity].
    destruct (capacity_ b =? 0); [reflexivity|].
    do 3 f_equal. rewrite Z.add_0_r, wrap_idemp.
    rewrite wrap_wrap_l. f_equal. lia.
Qed.

(** [end () - begin ()] is the size, [begin () == end ()] exactly when
    the buffer is empty, and [empty ()] says so. *)
Theorem end_minus_begin_is_size this l w :
  repr w this l →
  ∃ e, end_ this w = Done e w ∧
    it_diff e (begin this) = Z.of_nat (length l) ∧
    it_eq (begin this) e = bool_decide (l = []) ∧
    empty this w = Done (bool_decide (l = [])) w.
Proof.
  intros (b & Hb & Hsh & Hst). shape_facts Hsh.
  pose proof (shape_size _ _ Hsh) as Hlen.
  exists (Iter this (size_ b)).
  unfold end_, empty, size, bind, get_obj, ret. rewrite Hb.
  split; [done|]. unfold it_diff, it_eq, begin. cbn [buff_ offset_].
  rewrite bool_decide_eq_true_2 by done. cbn [andb].
  rewrite Z.sub_0_r, to_ptrdiff_small by lia.
  split; [done|].
  destruct l as [|v l].
  - change (size_ b = 0) in Hlen. rewrite Hlen.
    by rewrite bool_decide_eq_true_2.
  - rewrite bool_decide_eq_false_2 by done. simpl in Hlen.
    replace (0 =? size_ b) with false by (symmetry; lia).
    replace (size_ b =? 0) with false by (symmetry; lia). done.
Qed.

(** ** Element access *)

Lemma bind_undefined {A B} (m : M A) (f : A → M B) w :
  m w = Undefined → bind m f w = Undefined.
Proof. unfold bind. by intros ->. Qed.

(** A slot without a live object cannot be read. *)
Lemma load_dead a j blk w :
  heap w !! a = Some blk → cells blk !! j = None →
  load (Some a, j) w = Undefined.
Proof.
  intros Ha Hj. unfold load; simpl. rewrite Ha, Hj.
  by destruct (bool_decide _).
Qed.

Lemma load_live a j blk v w :
  heap w !! a = Some blk → 0 ≤ j < slots blk → cells blk !! j = Some v →
  load (Some a, j) w = Done v w.
Proof.
  intros Ha Hr Hj. unfold load; simpl. rewrite Ha, Hj.
  by rewrite bool_decide_eq_true_2.
Qed.

(** Every slot of the block of a well-formed buffer is the slot of one
    logical index below the capacity. *)
Lemma stores_slot h b l a j :
  shape b l → stores h b l → data_ b = Some a → 0 ≤ j < capacity_ b →
  ∃ blk, h !! a = Some blk ∧ slots blk = capacity_ b ∧
    cells blk !! j = l !! Z.to_nat ((j - head_ b) mod capacity_ b).
Proof.
  intros Hsh Hst Ha Hj. unfold stores in Hst. rewrite Ha in Hst.
  destruct Hst as (blk & Hblk & Hslots & Hcells).
  exists blk. split; [done|]. split; [done|].
  rewrite <- Hcells by (apply Z.mod_pos_bound; lia).
  f_equal. rewrite Zplus_mod_idemp_r.
  replace (head_ b + (j - head_ b)) with j by lia.
  rewrite Z.mod_small; lia.
Qed.

(** Reading through any address of the storage of an empty buffer is
    undefined. *)
Lemma load_empty w this b j :
  repr_at w this b [] → load (data_ b, j mod capacity_ b) w = Undefined.
Proof.
  intros (Hb & Hsh & Hst). shape_facts Hsh.
  destruct (data_ b) as [a|] eqn:Ha; [|reflexivity].
  assert (capacity_ b ≠ 0) as Hc0.
  { intros E. apply (shape_data _ _ Hsh) in E. congruence. }
  destruct (stores_slot (heap w) b [] a (j mod capacity_ b))
    as (blk & Hblk & _ & Hcell); [done|done|done|apply Z.mod_pos_bound; lia|].
  by eapply load_dead.
Qed.

(** Reading at the slot of a logical index below the capacity: the
    element, or undefined behaviour past the size. *)
Lemma load_slot w this b l i :
  repr_at w this b l → 0 ≤ i < capacity_ b →
  load (data_ b, (head_ b + i) mod capacity_ b) w =
  match l !! Z.to_nat i with Some v => Done v w | None => Undefined end.
Proof.
  intros (Hb & Hsh & Hst) Hi. shape_facts Hsh.
  destruct (shape_data_some _ _ Hsh) as [a Ha]; [lia|].
  unfold stores in Hst. rewrite Ha in *.
  destruct Hst as (blk & Hblk & Hslots & Hcells).
  specialize (Hcells i Hi).
  destruct (l !! Z.to_nat i) as [v|].
  - eapply load_live; [done| |done]. rewrite Hslots.
    apply Z.mod_pos_bound. lia.
  - by eapply load_dead.
Qed.

(** [front ()] and [back ()] read the first and the last element and
    change nothing; on an empty buffer both are undefined. *)
Theorem front_back_read_the_ends this l w :
  repr w this l →
  front this w = match head l with Some v => Done v w | None => Undefined end ∧
  back this w = match last l with Some v => Done v w | None => Undefined end.
Proof.
  intros (b & Hr). pose proof Hr as (Hb & Hsh & Hst). shape_facts Hsh.
  pose proof (shape_size _ _ Hsh) as Hlen.
  assert (Hend : end_ this w = Done (Iter this (size_ b)) w).
  { unfold end_, bind, get_obj, ret. by rewrite Hb. }
  unfold front, back, begin.
  rewrite (bind_done _ _ _ _ _ Hend). unfold it_sub, it_add. cbn [buff_ offset_].
  pose proof (deref_run (Iter this 0) w) as Hd0.
  pose proof (deref_run (Iter this (wrap (size_ b + - (1)))) w) as Hd1.
  cbn [buff_ offset_] in Hd0, Hd1. rewrite Hb in Hd0, Hd1.
  destruct (capacity_ b =? 0) eqn:Ec.
  { assert (l = []) as -> by (destruct l; [done|simpl in Hlen; lia]).
    split; by apply bind_undefined. }
  rewrite (bind_done _ _ _ _ _ Hd0), (bind_done _ _ _ _ _ Hd1).
  destruct (decide (l = [])) as [->|Hne].
  { split; eapply load_empty; done. }
  assert (0 < size_ b) by (destruct l; [done|simpl in Hlen; lia]).
  rewrite (wrap_small (size_ b + - (1))) by (rewrite SIZE_MOD_eq; lia).
  rewrite !(shape_real_index _ _ _ Hsh) by lia.
  rewrite !(load_slot w this b l) by (done || lia).
  split.
  - by destruct l.
  - rewrite last_lookup. rewrite Hlen.
    replace (Z.to_nat (Z.of_nat (length l) + - (1))) with (pred (length l))
      by lia.
    done.
Qed.

(** [operator[]] does no bounds check: the index is taken modulo the
    capacity. An index below the size reads its element; an index from
    the size up to the capacity names a slot without a live object, which
    is undefined behaviour; a larger index wraps around to the slot of
    [index mod capacity]. *)
Theorem index_is_taken_modulo_capacity this b l i w :
  repr_at w this b l → 0 ≤ i → head_ b + i < SIZE_MOD →
  read this i w =
  match l !! Z.to_nat (i mod capacity_ b) with
  | Some v => Done v w
  | None => Undefined
  end.
Proof.
  intros Hr Hi Hsz. pose proof Hr as (Hb & Hsh & Hst). shape_facts Hsh.
  pose proof (shape_size _ _ Hsh) as Hlen.
  unfold read. pose proof (op_index_run this i w) as Hq. rewrite Hb in Hq.
  destruct (capacity_ b =? 0) eqn:Ec.
  { rewrite (bind_undefined _ _ _ Hq).
    assert (l = []) as -> by (destruct l; [done|simpl in Hlen; lia]).
    done. }
  rewrite (bind_done _ _ _ _ _ Hq).
  rewrite wrap_small by lia.
  rewrite <- Zplus_mod_idemp_r.
  apply (load_slot w this b l); [done|]. apply Z.mod_pos_bound. lia.
Qed.

(** Writing through [operator[]] at an index below the size replaces that
    one element. *)
Theorem write_replaces_one_element this l i v w :
  repr w this l → 0 ≤ i < Z.of_nat (length l) →
  match write this i v w with
  | Done _ w' =>
      contents w' this = Some (<[Z.to_nat i := v]> l) ∧
      at_ w' this i = Some v ∧
      objs w' = objs w ∧ pending w' = pending w
  | Thrown _ _ | Undefined | Exhausted => False
  end.
Proof.
  intros (b & Hb & Hsh & Hst) Hi. destruct w as [h o p]. simpl in Hb, Hst.
  shape_facts Hsh. pose proof (shape_size _ _ Hsh) as Hlen.
  destruct (lookup_lt_is_Some_2 l (Z.to_nat i)) as [v0 Hv0]; [lia|].
  destruct (shape_data_some _ _ Hsh) as [a Ha]; [lia|].
  destruct (stores_lookup h b l a i v0) as (blk & Hblk & Hslots & Hj & Hcell);
    [done|done|done|done|lia|].
  pose proof Hst as Hst0. unfold stores in Hst0. rewrite Ha in Hst0.
  destruct Hst0 as (blk' & Hblk' & _ & Hcells).
  assert (blk' = blk) as -> by congruence.
  apply (wp_bind False). unfold op_index. wp_go.
  destruct (capacity_ b =? 0) eqn:E; [lia|]. wp_go.
  rewrite Ha, (shape_op_index _ _ _ Hsh) by lia.
  eapply wp_assign_at; [done..|].
  set (w' := World _ o p).
  assert (Hr' : repr w' this (<[Z.to_nat i := v]> l)).
  { exists b. split; [done|]. split.
    - destruct Hsh. constructor; try done. by rewrite length_insert.
    - unfold stores. rewrite Ha. eexists. simpl. rewrite lookup_insert_eq.
      split; [done|]. split; [done|]. simpl. intros k Hk.
      destruct (decide (k = i)) as [->|Hki].
      + rewrite lookup_insert_eq. rewrite list_lookup_insert_eq; [done|lia].
      + rewrite lookup_insert_ne.
        2:{ intros E'. apply slot_inj in E'; lia. }
        rewrite list_lookup_insert_ne by lia. by apply Hcells. }
  split; [by apply repr_contents|]. split; [|done].
  rewrite (repr_at_index w' this _ i Hr') by (rewrite length_insert; lia).
  apply list_lookup_insert_eq. lia.
Qed.

(** On an empty buffer the pops are undefined behaviour: there is no
    element to destroy. *)
Theorem pop_of_empty_is_undefined this w :
  repr w this [] →
  pop_back this w = Undefined ∧ pop_front this w = Undefined.
Proof.
  intros (b & Hr). pose proof Hr as (Hb & Hsh & Hst). shape_facts Hsh.
  pose proof (shape_size _ _ Hsh) as Hlen. simpl in Hlen.
  split.
  - unfold pop_back.
    assert (Hend : end_ this w = Done (Iter this (size_ b)) w).
    { unfold end_, bind, get_obj, ret. by rewrite Hb. }
    rewrite (bind_done _ _ _ _ _ Hend).
    pose proof (deref_run (it_sub (Iter this (size_ b)) 1) w) as Hd.
    cbn [it_sub it_add buff_ offset_] in Hd. rewrite Hb in Hd.
    destruct (capacity_ b =? 0) eqn:Ec.
    { by apply bind_undefined. }
    rewrite (bind_done _ _ _ _ _ Hd).
    apply bind_undefined. unfold destroy. apply bind_undefined.
    by eapply load_empty.
  - unfold pop_front.
    set (b1 := with_size (wrap (size_ b - 1)) b).
    set (w1 := set_objs (<[this := b1]> (objs w)) w).
    assert (H1 : (let* b0 := get_obj this
                  in put_obj this (with_size (wrap (size_ b0 - 1)) b0)) w
                 = Done tt w1).
    { unfold bind, get_obj, put_obj. by rewrite Hb, Hb. }
    rewrite (bind_done _ _ _ _ _ H1).
    assert (H2 : get_obj this w1 = Done b1 w1).
    { unfold get_obj, w1. simpl. by rewrite lookup_insert_eq. }
    rewrite (bind_done _ _ _ _ _ H2).
    apply bind_undefined. unfold destroy. apply bind_undefined.
    change (data_ b1) with (data_ b). change (head_ b1) with (head_ b).
    destruct (data_ b) as [a|] eqn:Ha; [|reflexivity].
    assert (capacity_ b ≠ 0) as Hc0.
    { intros E. apply (shape_data _ _ Hsh) in E. congruence. }
    destruct (stores_slot (heap w) b [] a (head_ b))
      as (blk & Hblk & _ & Hcell); [done|done|done|lia|].
    by eapply (load_dead a (head_ b) blk w1).
Qed.

(** ** Comparison and assignment *)

(** No two objects of a consistent world share a storage block. *)
Lemma distinct_storage w x y bx by_ a :
  world_inv w → x ≠ y → objs w !! x = Some bx → objs w !! y = Some by_ →
  data_ bx = Some a → data_ bx ≠ data_ by_.
Proof.
  intros [_ Hex] Hxy Hx Hy Ha E. rewrite Ha in E.
  by specialize (Hex x y bx by_ a Hx Hy Ha (eq_sym E)).
Qed.

Lemma op_eq_run x y bx by_ w :
  objs w !! x = Some bx → objs w !! y = Some by_ →
  op_eq x y w =
  Done (bool_decide (data_ bx = data_ by_) && (head_ bx =? head_ by_)
        && (size_ bx =? size_ by_)) w.
Proof. intros Hx Hy. unfold op_eq, bind, get_obj, ret. by rewrite Hx, Hy. Qed.

(** [operator==] compares storage, not content: a buffer that holds
    elements compares equal to itself and to no other object, whatever
    the other one holds. *)
Theorem equality_is_identity_of_storage x y lx by_ w :
  world_inv w → x ≠ y → repr w x lx → lx ≠ [] → objs w !! y = Some by_ →
  op_eq x y w = Done false w ∧ op_eq y x w = Done false w ∧
  op_eq x x w = Done true w.
Proof.
  intros Hw Hxy (bx & Hx & Hsh & Hst) Hne Hy. shape_facts Hsh.
  pose proof (shape_size _ _ Hsh) as Hlen.
  assert (0 < size_ bx) by (destruct lx; [done|simpl in Hlen; lia]).
  destruct (shape_data_some _ _ Hsh) as [a Ha]; [lia|].
  pose proof (distinct_storage w x y bx by_ a Hw Hxy Hx Hy Ha) as Hd.
  rewrite (op_eq_run x y bx by_), (op_eq_run y x by_ bx),
    (op_eq_run x x bx bx) by done.
  rewrite (bool_decide_eq_false_2 (data_ bx = data_ by_)) by done.
  rewrite (bool_decide_eq_false_2 (data_ by_ = data_ bx)) by done.
  rewrite bool_decide_eq_true_2, !Z.eqb_refl by done. done.
Qed.

(** Copy assignment [B = A] between two objects gives [B] the content of
    [A], in a storage of exactly that many elements, and leaves [A] as
    it was. When the copy throws, heap and objects are as before the
    call. *)
Theorem assignment_copies fuel A B la lb w :
  world_inv w → A ≠ B → repr w A la → repr w B lb →
  (length la < fuel)%nat → (length lb < fuel)%nat →
  match op_assign fuel B A w with
  | Done _ w' =>
      contents w' B = Some la ∧ contents w' A = Some la ∧
      capacity B w' = Done (Z.of_nat (length la)) w'
  | Thrown _ w' => ¬ calm w ∧ heap w' = heap w ∧ objs w' = objs w
  | Undefined | Exhausted => False
  end.
Proof.
  intros Hw HAB HrA HrB HfA HfB.
  pose proof HrA as (bA & HA & HshA & HstA).
  pose proof HrB as (bB & HB & HshB & HstB).
  destruct w as [h o p]. simpl in HA, HB, HstA, HstB.
  shape_facts HshA. shape_facts HshB.
  pose proof (shape_size _ _ HshA) as HlenA.
  pose proof (shape_size _ _ HshB) as HlenB.
  pose proof (shape_bytes _ _ HshA) as Hbytes. rewrite max_bytes_eq in Hbytes.
  pose proof sizeof_bound as Hsz.
  unfold op_assign, op_ne. apply (wp_bind False). apply (wp_bind False).
  pose proof (op_eq_run B A bB bA (World h o p) HB HA) as Heq.
  unfold wp at 1. rewrite Heq. apply wp_ret.
  destruct (bool_decide (data_ bB = data_ bA) && (head_ bB =? head_ bA)
            && (size_ bB =? size_ bA)) eqn:E; simpl.
  - apply wp_ret.
    apply andb_true_iff in E as [E _]. apply andb_true_iff in E as [E _].
    apply bool_decide_eq_true in E.
    destruct (data_ bA) as [a|] eqn:Ha.
    { exfalso. eapply (distinct_storage _ A B bA bB a Hw); eauto. congruence. }
    assert (capacity_ bA = 0) as HcA by (by apply (shape_data _ _ HshA)).
    assert (capacity_ bB = 0) as HcB by (by apply (shape_data _ _ HshB)).
    assert (la = []) as -> by (destruct la; [done|simpl in HlenA; lia]).
    assert (lb = []) as -> by (destruct lb; [done|simpl in HlenB; lia]).
    split; [by apply repr_contents|]. split; [by apply repr_contents|].
    assert (HrB0 : repr_at (World h o p) B bB []) by done.
    pose proof (repr_capacity _ _ _ _ HrB0) as Hcap.
    by rewrite HcB in Hcap.
  - unfold circular_buffer_copy. apply wp_bind. wp_go.
    eapply copy_cap_spec; [done|done|done|lia| |lia|..].
    { rewrite SIZE_MOD_eq. nia. }
    + intros tmp d h1 p1 b' Htmp Hsh' Hst' Hfr Hfresh Hp1.
      assert (HtB : tmp ≠ B) by congruence.
      assert (HtA : tmp ≠ A) by congruence.
      apply wp_bind. eapply swap_spec; [apply lookup_insert_eq| |done|].
      { rewrite lookup_insert_ne by done. done. }
      rewrite insert_insert_eq.
      eapply (destructor_spec False tmp fuel lb bB); [|done|].
      { split; [|split; [done|]]; simpl.
        - rewrite lookup_insert_ne by done. apply lookup_insert_eq.
        - eapply stores_frame; [|done]. intros a Ha. apply Hfr.
          unfold stores in HstB. rewrite Ha in HstB.
          destruct HstB as (? & -> & _). done. }
      intros h2 Hfr2 Hgone.
      rewrite delete_insert_ne by done. rewrite delete_insert_id by done.
      assert (HrB' : repr_at (World h2 (<[B:=b']> o) p1) B b' la).
      { split; [apply lookup_insert_eq|]. split; [done|]. simpl.
        eapply stores_frame; [|done]. intros a Ha. apply Hfr2.
        intros Hba. subst b'. simpl in Ha. subst d.
        specialize (Hfresh a eq_refl).
        unfold stores in HstB. rewrite Hba in HstB.
        destruct HstB as (? & ? & _). congruence. }
      assert (HrA' : repr_at (World h2 (<[B:=b']> o) p1) A bA la).
      { split; [simpl; by rewrite lookup_insert_ne|]. split; [done|]. simpl.
        eapply stores_frame; [|done]. intros a Ha.
        rewrite Hfr2.
        - apply Hfr. unfold stores in HstA. rewrite Ha in HstA.
          destruct HstA as (? & -> & _). done.
        - intros Hba.
          eapply (distinct_storage _ A B bA bB a Hw); eauto. congruence. }
      split; [apply repr_contents; by eexists|].
      split; [apply repr_contents; by eexists|].
      pose proof (repr_capacity _ _ _ _ HrB') as Hcap. subst b'.
      simpl in Hcap. rewrite <- HlenA. exact Hcap.
    + intros e p' Hcause. split; [|done]. intros Hcalm.
      unfold calm in Hcalm. simpl in Hcalm. specialize (Hcause Hcalm).
      rewrite max_bytes_eq in Hcause. nia.
Qed.

(** ** [erase (pos)], and [insert] followed by [erase] *)

Lemma it_add_one this d :
  0 ≤ d < 2 ^ 63 → it_add (Iter this d) 1 = Iter this (d + 1).
Proof.
  intros Hd. unfold it_add; simpl. f_equal. apply wrap_small.
  rewrite SIZE_MOD_eq. lia.
Qed.

Lemma erased_one (l : list T) (d : nat) :
  take d l ++ drop (S d) l = delete d l.
Proof. by rewrite delete_take_drop. Qed.

Lemma inserted_erased (l : list T) (v : T) (d : nat) :
  (d ≤ length l)%nat →
  take d (take d l ++ v :: drop d l) ++
  drop (S d) (take d l ++ v :: drop d l) = l.
Proof.
  intros Hd.
  rewrite take_app_length' by (rewrite length_take; lia).
  rewrite drop_app_ge by (rewrite length_take; lia).
  rewrite length_take.
  replace (S d - d `min` length l)%nat with 1%nat by lia.
  simpl. rewrite drop_0. apply take_drop.
Qed.

(** [erase (pos)] removes the one element at [pos] and returns the
    iterator of its successor. It throws only when a copy of an element
    throws during the shift, and the buffer is then still well-formed and
    holds as many elements as before. *)
Theorem erase_at_removes_one fuel this l d w :
  repr w this l → 0 ≤ d < Z.of_nat (length l) → (length l + 2 ≤ fuel)%nat →
  match erase1 fuel this (it_add (begin this) d) w with
  | Done it w' =>
      it = it_add (begin this) d ∧
      contents w' this = Some (delete (Z.to_nat d) l)
  | Thrown _ w' => ¬ calm w ∧ ∃ l', repr w' this l' ∧ length l' = length l
  | Undefined | Exhausted => False
  end.
Proof.
  intros (b & Hr) Hd Hfuel. destruct w as [h o p].
  pose proof Hr as (Hb & Hsh & Hst). shape_facts Hsh.
  pose proof (shape_size _ _ Hsh) as Hlen.
  unfold erase1.
  rewrite it_add_begin by (rewrite SIZE_MOD_eq; lia).
  rewrite it_add_one by lia.
  eapply (erase_spec False); [done|lia|lia|rewrite INT_MAX_eq; lia|done|..].
  - intros h' p' b' _ l' Hsh' Hst'. split; [done|].
    apply repr_contents. exists b'. split; [apply lookup_insert_eq|].
    subst l'. replace (Z.to_nat (d + 1)) with (S (Z.to_nat d)) in * by lia.
    rewrite erased_one in *. done.
  - intros e h' p' l' Hne Hl' Hsh' Hst'. split; [done|].
    exists l'. split; [|done]. by exists b.
Qed.

(** Erasing the element that [insert] has just put in gives back the
    content of before. When one of the two calls throws, the buffer is
    still well-formed, with the elements of before or with one element
    more. *)
Theorem insert_then_erase_restores fuel this l v d w :
  repr w this l → 0 ≤ d ≤ Z.of_nat (length l) → (length l + 3 ≤ fuel)%nat →
  match (let* it := insert fuel this (it_add (begin this) d) v in
         erase1 fuel this it) w with
  | Done it w' => it = it_add (begin this) d ∧ contents w' this = Some l
  | Thrown _ w' =>
      ¬ (calm w ∧ Z.pos sizeof * (2 * Z.of_nat (length l) + 1) ≤ max_bytes) ∧
      ∃ l', repr w' this l' ∧ (l' = l ∨ length l' = S (length l))
  | Undefined | Exhausted => False
  end.
Proof.
  intros (b & Hr) Hd Hfuel. destruct w as [h o p].
  pose proof Hr as (Hb & Hsh & Hst). shape_facts Hsh.
  pose proof (shape_size _ _ Hsh) as Hlen.
  rewrite it_add_begin by (rewrite SIZE_MOD_eq; lia).
  apply (wp_bind False).
  eapply (insert_spec False fuel this b l v d); [done|done|done|done|..].
  - intros h' p' b' l' Hsh' Hst' Hp'.
    assert (Hlen' : length l' = S (length l)).
    { subst l'. rewrite length_app, length_take. simpl. rewrite length_drop. lia. }
    unfold erase1. rewrite it_add_one by lia.
    eapply (erase_spec False);
      [split; [apply lookup_insert_eq|done]|lia|lia|rewrite INT_MAX_eq; lia|lia|..].
    + intros h2 p2 b2 _ l2 Hsh2 Hst2. split; [done|].
      apply repr_contents. exists b2. split; [apply lookup_insert_eq|].
      subst l2 l'. replace (Z.to_nat (d + 1)) with (S (Z.to_nat d)) in * by lia.
      rewrite inserted_erased in * by lia. done.
    + intros e h2 p2 l2 Hne Hl2 Hsh2 Hst2. split.
      * intros [Hcalm _]. unfold calm in Hcalm. simpl in Hcalm. auto.
      * exists l2. split; [|right; congruence].
        exists b'. split; [apply lookup_insert_eq|done].
  - intros e h' p' b' l' Hl' Hsh' Hst' Hcause. split.
    + intros [Hcalm Hsz]. unfold calm in Hcalm. simpl in Hcalm.
      specialize (Hcause Hcalm). lia.
    + exists l'. split; [|done].
      exists b'. split; [apply lookup_insert_eq|done].
Qed.

(** ** The size of the allocation *)

(** [reserve (n)] allocates [sizeof (T) * n] bytes, computed in [size_t].
    When that product wraps around, the allocation succeeds with fewer
    bytes than [n] elements need: the buffer then claims capacity [n] over
    a block of fewer than [n] slots, and if the block has no slot at all
    the next [push_back] constructs its element outside of it. *)
Theorem reserve_overflow_outgrows_storage fuel this b n w :
  repr_at w this b [] → calm w →
  capacity_ b < n → n < SIZE_MOD → SIZE_MOD ≤ Z.pos sizeof * n →
  wrap (Z.pos sizeof * n) ≤ max_bytes → (0 < fuel)%nat →
  match reserve fuel this n w with
  | Done _ w' =>
      ∃ a blk, objs w' !! this = Some (Buf (Some a) n 0 0) ∧
        heap w' !! a = Some blk ∧
        slots blk = wrap (Z.pos sizeof * n) / Z.pos sizeof ∧
        slots blk < n ∧
        (slots blk = 0 → ∀ v, push_back fuel this v w' = Undefined)
  | Thrown _ _ | Undefined | Exhausted => False
  end.
Proof.
  intros (Hb & Hsh & Hst) Hcalm Hgt Hn Hover Hmax Hfuel.
  destruct w as [h o p]. unfold calm in Hcalm. simpl in Hb, Hst, Hcalm.
  subst p. shape_facts Hsh. pose proof (shape_size _ _ Hsh) as Hlen.
  simpl in Hlen. pose proof sizeof_bound as Hsz.
  set (pb := push_back fuel this).
  unfold reserve, ensure_capacity, capacity.
  apply (wp_bind False). wp_go.
  destruct (capacity_ b <? n) eqn:E; [|lia].
  apply wp_bind. unfold circular_buffer_copy_cap.
  destruct (n =? 0) eqn:En; [lia|].
  apply wp_bind. apply wp_bind. apply wp_operator_new.
  { intros p' [=]. }
  { intros p' _ ?. lia. }
  intros p' a' Hp' _ Hfresh. rewrite (Hp' eq_refl).
  unfold end_. wp_go. apply wp_try_catch.
  destruct fuel as [|fuel]; [lia|]. simpl.
  unfold it_ne, it_eq, begin; simpl. rewrite bool_decide_eq_true_2 by done.
  rewrite Hlen. simpl. wp_go. apply wp_new_obj. intros tmp Htmp.
  assert (Htt : tmp ≠ this) by congruence.
  assert (Hne : data_ b ≠ Some a').
  { intros Ha. unfold stores in Hst. rewrite Ha in Hst.
    destruct Hst as (? & ? & _). congruence. }
  set (blk := Block (wrap (Z.pos sizeof * n) / Z.pos sizeof) ∅).
  set (b' := Buf (Some a') n 0 0).
  apply wp_bind. eapply swap_spec; [apply lookup_insert_eq| |done|].
  { rewrite lookup_insert_ne by done. done. }
  rewrite insert_insert_eq.
  eapply (destructor_spec False tmp (S fuel) [] b); [|simpl; lia|].
  { split; [|split; [done|]]; simpl.
    - rewrite lookup_insert_ne by done. apply lookup_insert_eq.
    - eapply stores_frame; [|done]. intros a Ha.
      rewrite lookup_insert_ne; [done|congruence]. }
  intros h2 Hfr2 _.
  rewrite delete_insert_ne by done. rewrite delete_insert_id by done.
  assert (Hblk : h2 !! a' = Some blk).
  { rewrite Hfr2 by done. apply lookup_insert_eq. }
  assert (Hslots : slots blk < n).
  { simpl. apply Z.div_lt_upper_bound; [lia|].
    pose proof (wrap_range (Z.pos sizeof * n)). lia. }
  exists a', blk. split; [apply lookup_insert_eq|].
  split; [done|]. split; [done|]. split; [done|].
  intros H0 v. subst pb. cbn [push_back].
  set (w' := World h2 (<[this:=b']> o) []).
  assert (Hobj : objs w' !! this = Some b') by apply lookup_insert_eq.
  assert (Hsize : size this w' = Done 0 w').
  { unfold size, bind, get_obj, ret. by rewrite Hobj. }
  assert (Hcap : capacity this w' = Done n w').
  { unfold capacity, bind, get_obj, ret. by rewrite Hobj. }
  assert (Hdata : data this w' = Done (Some a') w').
  { unfold data, bind, get_obj, ret. by rewrite Hobj. }
  assert (Htail : tail this w' = Done 0 w').
  { unfold tail, bind, get_obj, ret. rewrite Hobj. simpl. by rewrite En. }
  rewrite (bind_done _ _ _ _ _ Hsize), (bind_done _ _ _ _ _ Hcap).
  replace (0 =? n) with false by (symmetry; lia).
  rewrite (bind_done _ _ _ _ _ Hdata), (bind_done _ _ _ _ _ Htail).
  apply bind_undefined. unfold construct, bind, may_throw, write_cell. simpl.
  rewrite Hblk, H0. by rewrite bool_decide_eq_false_2 by lia.
Qed.

(** * The heap has no block without an owner *)

Lemma settled_refl w : settled w w.
Proof. split; [done|]. intros x b Hx. eauto. Qed.

Lemma settled_trans w1 w2 w3 : settled w1 w2 → settled w2 w3 → settled w1 w3.
Proof.
  intros [Hh1 Ho1] [Hh2 Ho2]. split; [auto|].
  intros x b Hx. destruct (Ho1 x b Hx) as (b1 & Hx1 & Hd1).
  destruct (Ho2 x b1 Hx1) as (b2 & Hx2 & Hd2).
  exists b2. split; [done|congruence].
Qed.

Lemma settled_no_leak w w' : no_leak w → settled w w' → no_leak w'.
Proof.
  intros Hn [Hh Ho] a Ha. destruct (Hn a (Hh a Ha)) as (x & b & Hx & Hd).
  destruct (Ho x b Hx) as (b' & Hx' & Hd'). exists x, b'. split; [done|congruence].
Qed.

Lemma stable_ret {A} (a : A) : stable (T:=T) (ret a).
Proof. intros w. apply wp_ret, settled_refl. Qed.

Lemma stable_throw {A} e : stable (T:=T) (throw (A:=A) e).
Proof. intros w. apply wp_throw, settled_refl. Qed.

Lemma stable_undefined {A} : stable (T:=T) (undefined (A:=A)).
Proof. intros w. exact I. Qed.

Lemma stable_exhausted {A} : stable (T:=T) (exhausted (A:=A)).
Proof. intros w. exact I. Qed.

Lemma stable_bind {A B} (m : @M T A) (f : A → @M T B) :
  stable m → (∀ a, stable (f a)) → stable (bind m f).
Proof.
  intros Hm Hf w. apply wp_bind.
  eapply wp_mono; [apply Hm| |done].
  intros a w1 H1. cbv beta.
  eapply wp_mono; [apply Hf|..]; intros ? w2 H2; cbv beta in *;
    eapply settled_trans; eassumption.
Qed.

Lemma stable_try_catch {A} (m : @M T A) (c : exn → @M T A) :
  stable m → (∀ e, stable (c e)) → stable (try_catch m c).
Proof.
  intros Hm Hc w. apply wp_try_catch.
  eapply wp_mono; [apply Hm|done|].
  intros e w1 H1. cbv beta.
  eapply wp_mono; [apply Hc|..]; intros ? w2 H2; cbv beta in *;
    eapply settled_trans; eassumption.
Qed.

Lemma stable_get_obj this : stable (T:=T) (get_obj this).
Proof.
  intros [h o p]. apply wp_get_obj; [done|]. intros b _. apply settled_refl.
Qed.

Lemma stable_may_throw e : stable (T:=T) (may_throw e).
Proof.
  intros [h o p]. apply wp_may_throw; intros; by split; [|eauto].
Qed.

Lemma stable_load q : stable (T:=T) (load q).
Proof.
  intros [h o p]. destruct q as [[a|] j]; [|exact I].
  apply wp_load; try done. intros. apply settled_refl.
Qed.

Lemma stable_write_cell q c : stable (T:=T) (write_cell q c).
Proof.
  intros [h o p]. destruct q as [[a|] j]; [|exact I].
  apply wp_write_cell; try done. intros blk Hblk _. split; [|by eauto].
  simpl. intros a' Ha'. destruct (decide (a' = a)) as [->|Hne]; [by eauto|].
  by rewrite lookup_insert_ne in Ha'.
Qed.

Lemma stable_new_obj b : stable (T:=T) (new_obj b).
Proof.
  intros [h o p]. apply wp_new_obj. intros this Hfresh. split; [done|].
  simpl. intros x b0 Hx. exists b0. split; [|done].
  rewrite lookup_insert_ne; [done|congruence].
Qed.

Lemma stable_operator_delete d : stable (T:=T) (operator_delete d).
Proof.
  intros [h o p]. destruct d as [a|]; [|apply settled_refl].
  apply wp_operator_delete; [done|]. intros blk Hblk. split; [|by eauto].
  simpl. intros a' Ha'. destruct (decide (a' = a)) as [->|Hne].
  - rewrite lookup_delete_eq in Ha'. by destruct Ha'.
  - by rewrite lookup_delete_ne in Ha'.
Qed.

Lemma stable_at_of_stable {A} this b (m : @M T A) :
  stable m → stable_at this b m.
Proof. intros Hm w _. apply Hm. Qed.

Lemma stable_at_put this b b' :
  data_ b' = data_ b → stable_at (T:=T) this b (put_obj this b').
Proof.
  intros Hd [h o p] Hb. simpl in Hb. apply wp_put_obj; [done|].
  intros _ _. split; [done|]. simpl. intros x b0 Hx.
  destruct (decide (x = this)) as [->|Hne].
  - exists b'. rewrite lookup_insert_eq. split; [done|congruence].
  - exists b0. by rewrite lookup_insert_ne.
Qed.

Lemma stable_at_bind {A B} this b (m : @M T A) (f : A → @M T B) :
  stable_at this b m → (∀ a, stable (f a)) → stable_at this b (bind m f).
Proof.
  intros Hm Hf w Hb. apply wp_bind.
  eapply wp_mono; [by apply Hm| |done].
  intros a w1 H1. cbv beta.
  eapply wp_mono; [apply Hf|..]; intros ? w2 H2; cbv beta in *;
    eapply settled_trans; eassumption.
Qed.

Lemma stable_get_then {A} this (k : circular_buffer → @M T A) :
  (∀ b, stable_at this b (k b)) → stable (bind (get_obj this) k).
Proof.
  intros Hk [h o p]. apply wp_bind. apply wp_get_obj; [done|].
  intros b Hb. by apply Hk.
Qed.

Create HintDb stable.
#[local] Hint Resolve stable_ret stable_throw stable_undefined
  stable_exhausted stable_get_obj stable_may_throw stable_load
  stable_write_cell stable_new_obj stable_operator_delete : stable.

Ltac stable_go :=
  repeat first
    [ solve [eauto 2 with stable]
    | progress cbv zeta
    | lazymatch goal with
      | |- stable (bind (get_obj _) _) => apply stable_get_then; intros ?
      | |- stable (bind _ _) => apply stable_bind; [|intros ?]
      | |- stable (if ?c then _ else _) => destruct c eqn:?
      | |- stable (try_catch _ _) => apply stable_try_catch; [|intros ?]
      | |- stable_at _ _ (bind _ _) => apply stable_at_bind; [|intros ?]
      | |- stable_at _ _ (put_obj _ _) => apply stable_at_put; reflexivity
      | |- stable_at _ _ (if ?c then _ else _) => destruct c eqn:?
      | |- stable_at _ _ _ => apply stable_at_of_stable
      end ].

Lemma stable_data this : stable (T:=T) (data this).
Proof. unfold data. stable_go. Qed.
Lemma stable_size this : stable (T:=T) (size this).
Proof. unfold size. stable_go. Qed.
Lemma stable_capacity this : stable (T:=T) (capacity this).
Proof. unfold capacity. stable_go. Qed.
Lemma stable_end this : stable (T:=T) (end_ this).
Proof. unfold end_. stable_go. Qed.
Lemma stable_tail this : stable (T:=T) (tail this).
Proof. unfold tail. stable_go. Qed.
Lemma stable_op_index this i : stable (T:=T) (op_index this i).
Proof. unfold op_index. stable_go. Qed.
Lemma stable_get_real_index i off : stable (T:=T) (get_real_index i off).
Proof. unfold get_real_index. stable_go. Qed.

#[local] Hint Resolve stable_data stable_size stable_capacity stable_end
  stable_tail stable_op_index stable_get_real_index : stable.

Lemma stable_empty this : stable (T:=T) (empty this).
Proof. unfold empty. stable_go. Qed.
Lemma stable_deref i : stable (T:=T) (deref i).
Proof. unfold deref. stable_go. Qed.
Lemma stable_op_eq x y : stable (T:=T) (op_eq x y).
Proof. unfold op_eq. stable_go. Qed.

#[local] Hint Resolve stable_empty stable_deref stable_op_eq : stable.

Lemma stable_op_ne x y : stable (T:=T) (op_ne x y).
Proof. unfold op_ne. stable_go. Qed.
Lemma stable_destroy q : stable (T:=T) (destroy q).
Proof. unfold destroy. stable_go. Qed.
Lemma stable_assign q v : stable (T:=T) (assign q v).
Proof. unfold assign. stable_go. Qed.
Lemma stable_construct q v : stable (T:=T) (construct q v).
Proof. unfold construct. stable_go. Qed.

#[local] Hint Resolve stable_op_ne stable_destroy stable_assign
  stable_construct : stable.

Lemma stable_iter_swap i j : stable (T:=T) (iter_swap i j).
Proof. unfold iter_swap. stable_go. Qed.
Lemma stable_write this i v : stable (T:=T) (write this i v).
Proof. unfold write. stable_go. Qed.
Lemma stable_pop_back this : stable (T:=T) (pop_back this).
Proof. unfold pop_back. stable_go. Qed.
Lemma stable_pop_front this : stable (T:=T) (pop_front this).
Proof. unfold pop_front. stable_go. Qed.

#[local] Hint Resolve stable_iter_swap stable_write stable_pop_back
  stable_pop_front : stable.

Lemma stable_clear this fuel : stable (T:=T) (clear fuel this).
Proof. induction fuel as [|fuel IH]; simpl; stable_go. Qed.

Lemma stable_pop_loop (pop : @M T unit) delta fuel :
  stable pop → ∀ i, stable (pop_loop fuel pop i delta).
Proof. intros Hp. induction fuel as [|fuel IH]; intros i; simpl; stable_go. Qed.

Lemma stable_destroy_n d n : ∀ from, stable (T:=T) (destroy_n d from n).
Proof. induction n as [|n IH]; intros from; simpl; stable_go. Qed.

#[local] Hint Resolve stable_clear stable_pop_loop stable_destroy_n : stable.

Lemma stable_uninitialized_copy fuel last d :
  ∀ first cur, stable (T:=T) (uninitialized_copy fuel first last d cur).
Proof. induction fuel as [|fuel IH]; intros first cur; simpl; stable_go. Qed.

Lemma stable_insert_shift_up fuel spot :
  ∀ i, stable (T:=T) (insert_shift_up fuel i spot).
Proof. induction fuel as [|fuel IH]; intros i; simpl; stable_go. Qed.

Lemma stable_insert_shift_down fuel spot :
  ∀ i, stable (T:=T) (insert_shift_down fuel i spot).
Proof. induction fuel as [|fuel IH]; intros i; simpl; stable_go. Qed.

Lemma stable_erase_shift_left fuel this delta :
  ∀ i, stable (T:=T) (erase_shift_left fuel this i delta).
Proof. induction fuel as [|fuel IH]; intros i; simpl; stable_go. Qed.

Lemma stable_erase_shift_right fuel this delta :
  ∀ i, stable (T:=T) (erase_shift_right fuel this i delta).
Proof. induction fuel as [|fuel IH]; intros i; simpl; stable_go. Qed.

#[local] Hint Resolve stable_uninitialized_copy stable_insert_shift_up
  stable_insert_shift_down stable_erase_shift_left
  stable_erase_shift_right : stable.

Lemma stable_erase fuel this first last :
  stable (T:=T) (erase fuel this first last).
Proof. unfold erase. stable_go. Qed.

#[local] Hint Resolve stable_erase : stable.

Lemma stable_erase1 fuel this pos : stable (T:=T) (erase1 fuel this pos).
Proof. unfold erase1. stable_go. Qed.

(** ** Allocation, release and exchange of storage *)

Lemma leakfree_of_stable {A} (m : @M T A) : stable m → leakfree m.
Proof.
  intros Hm w Hn. eapply wp_mono; [apply Hm|..];
    intros ? w' Hs; by eapply settled_no_leak.
Qed.

Lemma leakfree_bind {A B} (m : @M T A) (f : A → @M T B) :
  leakfree m → (∀ a, leakfree (f a)) → leakfree (bind m f).
Proof.
  intros Hm Hf w Hn. apply wp_bind.
  eapply wp_mono; [by apply Hm| |done].
  intros a w1 H1. by apply Hf.
Qed.

Lemma leakfree_swap x y : leakfree (T:=T) (swap x y).
Proof.
  intros [h o p] Hn. unfold swap.
  apply wp_bind, wp_get_obj; [done|]. intros bx Hx.
  apply wp_bind, wp_get_obj; [done|]. intros by_ Hy.
  apply wp_bind, wp_put_obj; [done|]. intros _ _.
  apply wp_put_obj; [done|]. intros _ _.
  intros a Ha. destruct (Hn a Ha) as (z & bz & Hz & Hd).
  unfold owned. simpl in *.
  destruct (decide (z = x)) as [->|Hzx].
  { exists y, bx. rewrite lookup_insert_eq. split; [done|congruence]. }
  destruct (decide (z = y)) as [->|Hzy].
  { exists x, by_. split; [|congruence].
    destruct (decide (x = y)) as [->|Hxy]; [done|].
    rewrite lookup_insert_ne by done. apply lookup_insert_eq. }
  exists z, bz. split; [|done]. by rewrite !lookup_insert_ne by done.
Qed.

(** The end of the destructor: the block is released, then the object
    disappears. *)
Lemma leakfree_release this :
  leakfree (T:=T) (let* p := data this in operator_delete p >> end_obj this).
Proof.
  intros [h o p] Hn. unfold data. wp_lax.
  match goal with Hx : o !! this = Some ?b |- _ =>
    destruct (data_ b) as [a|] eqn:Hd end.
  - apply wp_operator_delete; [done|]. intros blk Hblk.
    apply wp_end_obj; [done|]. intros b0 Hb0.
    intros a' Ha'. simpl in Ha'.
    destruct (decide (a' = a)) as [->|Hne].
    { rewrite lookup_delete_eq in Ha'. by destruct Ha'. }
    rewrite lookup_delete_ne in Ha' by done.
    destruct (Hn a' Ha') as (z & bz & Hz & Hdz). unfold owned. simpl in *.
    exists z, bz. split; [|done]. rewrite lookup_delete_ne; [done|].
    intros ->. congruence.
  - apply wp_operator_delete_null.
    apply wp_end_obj; [done|]. intros b0 Hb0.
    intros a' Ha'. destruct (Hn a' Ha') as (z & bz & Hz & Hdz).
    unfold owned. simpl in *.
    exists z, bz. split; [|done]. rewrite lookup_delete_ne; [done|].
    intros ->. congruence.
Qed.

Lemma leakfree_destructor fuel this : leakfree (T:=T) (destructor fuel this).
Proof.
  unfold destructor. apply leakfree_bind.
  - apply leakfree_of_stable, stable_clear.
  - intros _. apply leakfree_release.
Qed.

Lemma leakfree_default : leakfree (T:=T) circular_buffer_default.
Proof. apply leakfree_of_stable, stable_new_obj. Qed.

(** The construction after the allocation: the elements are copied, and
    the new object takes the block; or the copy throws, and the block is
    released. *)
Lemma leakfree_copy_rest fuel other n d w :
  no_leak_but d w →
  wp True
    (let* o := get_obj other in
     let* e := end_ other in
     try_catch (uninitialized_copy fuel (begin other) e d 0)
       (λ e, operator_delete d >> throw e) >>
     new_obj (Buf d n 0 (size_ o)))
    w (λ _, no_leak) (λ _, no_leak).
Proof.
  intros Hn. destruct w as [h o p].
  apply wp_bind, wp_get_obj; [done|]. intros b Hb.
  apply wp_bind. unfold end_. apply wp_bind, wp_get_obj; [done|].
  intros b1 _. apply wp_ret. apply wp_bind. apply wp_try_catch.
  eapply wp_mono; [apply stable_uninitialized_copy|..]; cbv beta.
  - intros _ [h1 o1 p1] [Hh Ho]. apply wp_new_obj. intros tmp Htmp.
    intros a Ha. simpl in *. unfold owned; simpl.
    destruct (Hn a (Hh a Ha)) as [->|(x & bx & Hx & Hd)].
    + exists tmp. eexists. by rewrite lookup_insert_eq.
    + destruct (Ho x bx Hx) as (b' & Hx' & Hd').
      exists x, b'. split; [|congruence].
      rewrite lookup_insert_ne; [done|congruence].
  - intros e [h1 o1 p1] [Hh Ho]. apply wp_bind.
    assert (Hkeep : ∀ a, is_Some (h1 !! a) → d ≠ Some a →
              owned (World h1 o1 p1) a).
    { intros a Ha Hne. destruct (Hn a (Hh a Ha)) as [->|(x & bx & Hx & Hd)];
        [done|].
      destruct (Ho x bx Hx) as (b' & Hx' & Hd').
      exists x, b'. split; [done|congruence]. }
    destruct d as [a0|].
    + apply wp_operator_delete; [done|]. intros blk Hblk. apply wp_throw.
      intros a Ha. simpl in Ha.
      destruct (decide (a = a0)) as [->|Hne].
      { rewrite lookup_delete_eq in Ha. by destruct Ha. }
      rewrite lookup_delete_ne in Ha by done.
      destruct (Hkeep a Ha) as (x & bx & ? & ?); [congruence|].
      by exists x, bx.
    + apply wp_operator_delete_null. apply wp_throw.
      intros a Ha. destruct (Hkeep a Ha) as (x & bx & ? & ?); [done|].
      by exists x, bx.
Qed.

Lemma leakfree_copy_cap fuel other n :
  leakfree (T:=T) (circular_buffer_copy_cap fuel other n).
Proof.
  intros [h o p] Hn. unfold circular_buffer_copy_cap. apply wp_bind.
  destruct (n =? 0).
  - apply wp_ret. apply leakfree_copy_rest.
    intros a Ha. right. by apply Hn.
  - apply wp_bind. apply wp_operator_new.
    + intros p' _ a Ha. destruct (Hn a Ha) as (x & bx & ? & ?). by exists x, bx.
    + intros p' _ _ a Ha. destruct (Hn a Ha) as (x & bx & ? & ?). by exists x, bx.
    + intros p' a' _ _ Hfresh. apply wp_ret. apply leakfree_copy_rest.
      intros a Ha. simpl in Ha.
      destruct (decide (a = a')) as [->|Hne]; [by left|right].
      rewrite lookup_insert_ne in Ha by done.
      destruct (Hn a Ha) as (x & bx & ? & ?). by exists x, bx.
Qed.

Lemma leakfree_copy fuel other :
  leakfree (T:=T) (circular_buffer_copy fuel other).
Proof.
  unfold circular_buffer_copy. apply leakfree_bind.
  - apply leakfree_of_stable, stable_get_obj.
  - intros b. apply leakfree_copy_cap.
Qed.

Lemma leakfree_ensure_capacity fuel this n :
  leakfree (T:=T) (ensure_capacity fuel this n).
Proof.
  unfold ensure_capacity. apply leakfree_bind.
  { apply leakfree_of_stable, stable_capacity. }
  intros c. destruct (c <? n).
  - apply leakfree_bind; [apply leakfree_copy_cap|]. intros tmp.
    apply leakfree_bind; [apply leakfree_swap|]. intros _.
    apply leakfree_destructor.
  - apply leakfree_of_stable, stable_ret.
Qed.

Lemma leakfree_push_back this v : ∀ fuel, leakfree (T:=T) (push_back fuel this v).
Proof.
  induction fuel as [|fuel IH]; simpl.
  { apply leakfree_of_stable, stable_exhausted. }
  apply leakfree_bind; [apply leakfree_of_stable, stable_size|]. intros s.
  apply leakfree_bind; [apply leakfree_of_stable, stable_capacity|]. intros c.
  destruct (s =? c).
  - apply leakfree_bind; [apply leakfree_ensure_capacity|]. intros _. apply IH.
  - apply leakfree_of_stable. stable_go.
Qed.

Lemma leakfree_push_front this v : ∀ fuel, leakfree (T:=T) (push_front fuel this v).
Proof.
  induction fuel as [|fuel IH]; simpl.
  { apply leakfree_of_stable, stable_exhausted. }
  apply leakfree_bind; [apply leakfree_of_stable, stable_size|]. intros s.
  apply leakfree_bind; [apply leakfree_of_stable, stable_capacity|]. intros c.
  destruct (s =? c).
  - apply leakfree_bind; [apply leakfree_ensure_capacity|]. intros _. apply IH.
  - apply leakfree_of_stable. stable_go.
Qed.

Lemma leakfree_insert fuel this pos v :
  leakfree (T:=T) (insert fuel this pos v).
Proof.
  unfold insert. cbv zeta.
  apply leakfree_bind; [apply leakfree_of_stable, stable_size|]. intros s.
  destruct (_ <? _).
  - apply leakfree_bind; [apply leakfree_push_front|]. intros _.
    apply leakfree_of_stable. stable_go.
  - apply leakfree_bind; [apply leakfree_push_back|]. intros _.
    apply leakfree_of_stable. stable_go.
Qed.

Lemma leakfree_op_assign fuel this other :
  leakfree (T:=T) (op_assign fuel this other).
Proof.
  unfold op_assign.
  apply leakfree_bind; [apply leakfree_of_stable, stable_op_ne|]. intros ne.
  destruct ne.
  - apply leakfree_bind; [apply leakfree_copy|]. intros tmp.
    apply leakfree_bind; [apply leakfree_swap|]. intros _.
    apply leakfree_destructor.
  - apply leakfree_of_stable, stable_ret.
Qed.

Lemma leakfree_run_call fuel c : leakfree (T:=T) (run_call fuel c).
Proof.
  destruct c as [|other|this|this other|x y|this op|this n|this pos v
                 |this first last|this pos|this|this index v]; simpl.
  - apply leakfree_bind; [apply leakfree_default|]. intros _.
    apply leakfree_of_stable, stable_ret.
  - apply leakfree_bind; [apply leakfree_copy|]. intros _.
    apply leakfree_of_stable, stable_ret.
  - apply leakfree_destructor.
  - apply leakfree_op_assign.
  - apply leakfree_swap.
  - destruct op; simpl.
    + apply leakfree_push_back.
    + apply leakfree_push_front.
    + apply leakfree_of_stable, stable_pop_back.
    + apply leakfree_of_stable, stable_pop_front.
  - apply leakfree_ensure_capacity.
  - apply leakfree_bind; [apply leakfree_insert|]. intros _.
    apply leakfree_of_stable, stable_ret.
  - apply leakfree_of_stable. stable_go.
  - apply leakfree_of_stable. apply stable_bind; [apply stable_erase1|].
    intros _. apply stable_ret.
  - apply leakfree_of_stable, stable_clear.
  - apply leakfree_of_stable, stable_write.
Qed.

Lemma steps_no_leak cs w w' : steps cs w w' → no_leak w → no_leak w'.
Proof.
  induction 1 as [w|c cs fuel w w1 w2 Hv Hrun Hsteps IH]; [done|].
  intros Hn. apply IH.
  pose proof (leakfree_run_call fuel c w Hn) as Hwp. unfold wp in Hwp.
  destruct (run_call fuel c w); simpl in Hrun; by simplify_eq.
Qed.

(** In every reachable world each allocated block is the storage of a
    live buffer object: no operation of the interface leaks memory,
    whether it returns or throws, and once every buffer is destroyed the
    heap is empty. *)
Theorem reachable_world_has_no_leak w :
  reachable w →
  (∀ a, is_Some (heap w !! a) → owned w a) ∧ (objs w = ∅ → heap w = ∅).
Proof.
  intros (cs & p & Hsteps).
  assert (Hn : no_leak w).
  { eapply steps_no_leak; [done|]. intros a Ha. simpl in Ha.
    rewrite lookup_empty in Ha. by destruct Ha. }
  split; [done|]. intros Hempty. apply map_empty. intros a.
  destruct (heap w !! a) as [blk|] eqn:E; [|done].
  destruct (Hn a) as (x & bx & Hx & _); [by eauto|].
  rewrite Hempty, lookup_empty in Hx. done.
Qed.

(** In every reachable world the storage pointer of an object names an
    allocated block, and no two objects share a block: there is neither a
    dangling pointer nor aliased storage. *)
Theorem reachable_storage_is_exclusive w x y bx by_ a :
  reachable w → objs w !! x = Some bx → data_ bx = Some a →
  is_Some (heap w !! a) ∧
  (objs w !! y = Some by_ → data_ by_ = Some a → x = y).
Proof.
  intros Hr Hx Ha. pose proof (reachable_world_inv w Hr) as [Hok Hex].
  split.
  - destruct (Hok x bx Hx) as (_ & _ & _ & _ & Hd). rewrite Ha in Hd.
    destruct Hd as (blk & Hblk & _). by eauto.
  - intros Hy Hay. by eapply Hex.
Qed.

(** * Growth under end operations *)

Lemma power_of_two_grow c :
  power_of_two_or_zero c →
  power_of_two_or_zero (if c =? 0 then 1 else 2 * c).
Proof.
  intros [->|[k ->]]; simpl.
  - right. by exists 0%nat.
  - right. exists (S k). destruct (2 ^ Z.of_nat k =? 0) eqn:E.
    + assert (0 < 2 ^ Z.of_nat k) by (apply Z.pow_pos_nonneg; lia). lia.
    + rewrite Nat2Z.inj_succ, Z.pow_succ_r by lia. done.
Qed.

Lemma run_ops_capacity fuel this : ∀ ops b q h o p l,
  repr_at (World h o p) this b q →
  power_of_two_or_zero (capacity_ b) →
  deque_run ops q = Some l →
  (length q + length ops + 2 ≤ fuel)%nat →
  wp False (run_ops fuel this ops) (World h o p)
    (λ _ w', ∃ b', repr_at w' this b' l ∧
       power_of_two_or_zero (capacity_ b') ∧ capacity_ b ≤ capacity_ b')
    (λ _ _, True).
Proof.
  induction ops as [|op ops IH]; intros b q h o p l Hr Hpow Hrun Hfuel.
  { simpl in *. simplify_eq. apply wp_ret. exists b. split; [done|]. split; [done|lia]. }
  simpl in Hrun. destruct (deque_step op q) as [q'|] eqn:Hstep; [|done].
  simpl in Hrun, Hfuel.
  pose proof Hr as (Hb & Hsh & Hst).
  shape_facts Hsh. pose proof (shape_size _ _ Hsh) as Hlen.
  assert (Hnext : ∀ c', c' = (if size_ b <? capacity_ b then capacity_ b
                    else if capacity_ b =? 0 then 1 else 2 * capacity_ b) →
            power_of_two_or_zero c' ∧ capacity_ b ≤ c').
  { intros c' ->. destruct (size_ b <? capacity_ b); [split; [done|lia]|].
    split; [by apply power_of_two_grow|]. destruct (capacity_ b =? 0) eqn:E; lia. }
  simpl. apply wp_bind. destruct op as [v|v| |]; simpl in *; simplify_eq.
  - eapply push_back_spec; [done|lia|..]; [|done].
    intros h' p' b' Hsh' Hst' Hcap Hp'. destruct (Hnext _ Hcap) as [Hpow' Hle].
    eapply wp_mono;
      [eapply (IH b'); [split; [apply lookup_insert_eq|done]|done|done|]|..].
    + rewrite length_app. simpl. lia.
    + intros _ w' (b2 & ? & ? & ?). exists b2. split; [done|]. split; [done|lia].
    + done.
  - eapply push_front_spec; [done|lia|..]; [|done].
    intros h' p' b' Hsh' Hst' Hcap Hp'. destruct (Hnext _ Hcap) as [Hpow' Hle].
    eapply wp_mono;
      [eapply (IH b'); [split; [apply lookup_insert_eq|done]|done|done|]|..].
    + simpl. lia.
    + intros _ w' (b2 & ? & ? & ?). exists b2. split; [done|]. split; [done|lia].
    + done.
  - destruct q as [|x q _] using rev_ind; [done|].
    assert (q' = q) as ->.
    { destruct (q ++ [x]) eqn:E; [by destruct q|]. rewrite <- E in Hstep.
      rewrite removelast_last in Hstep. congruence. }
    rewrite length_app in Hlen, Hfuel. simpl in Hlen, Hfuel.
    eapply pop_back_spec; [done|]. intros h' b' Hsh' Hst' _.
    eapply wp_mono;
      [eapply (IH b'); [split; [apply lookup_insert_eq|done]|done|done|lia]|..];
      done.
  - destruct q as [|x q]; [done|]. simplify_eq. simpl in Hlen, Hfuel.
    eapply pop_front_spec; [done|]. intros h' b' Hsh' Hst' _.
    eapply wp_mono;
      [eapply (IH b'); [split; [apply lookup_insert_eq|done]|done|done|lia]|..];
      done.
Qed.

(** Under the end operations the capacity only grows by doubling: started
    from a capacity that is 0 or a power of two (a default-constructed
    buffer, say), it stays one, never shrinks, and holds the content. *)
Theorem end_operations_double_the_capacity fuel this ops b q l w :
  repr_at w this b q →
  power_of_two_or_zero (capacity_ b) →
  deque_run ops q = Some l →
  (length q + length ops + 2 ≤ fuel)%nat →
  match run_ops fuel this ops w with
  | Done _ w' =>
      ∃ c, capacity this w' = Done c w' ∧ power_of_two_or_zero c ∧
        capacity_ b ≤ c ∧ Z.of_nat (length l) ≤ c
  | Thrown _ _ => True
  | Undefined | Exhausted => False
  end.
Proof.
  intros Hr Hpow Hrun Hfuel. destruct w as [h o p].
  eapply wp_mono; [by eapply run_ops_capacity|..]; [|done].
  intros _ w' (b' & Hr' & Hpow' & Hle). exists (capacity_ b').
  split; [exact (repr_capacity _ _ _ _ Hr')|]. split; [done|]. split; [done|].
  destruct Hr' as (_ & Hsh' & _).
  pose proof (shape_size _ _ Hsh'). pose proof (shape_cap _ _ Hsh'). lia.
Qed.

(** When [insert] throws, the buffer is still well-formed, which is the
    basic guarantee of the comment in the source. Either the push has
    failed and the buffer holds the elements of before, or a copy has
    failed in the middle of the shift and the buffer holds one element
    more, not necessarily in the order asked for. *)
Theorem insert_failure_is_basic fuel this l v d w :
  repr w this l → 0 ≤ d ≤ Z.of_nat (length l) → (length l + 3 ≤ fuel)%nat →
  match insert fuel this (it_add (begin this) d) v w with
  | Done _ w' => repr w' this (take (Z.to_nat d) l ++ v :: drop (Z.to_nat d) l)
  | Thrown _ w' =>
      ∃ l', repr w' this l' ∧ (l' = l ∨ length l' = S (length l))
  | Undefined | Exhausted => False
  end.
Proof.
  intros (b & Hr) Hd Hfuel. destruct w as [h o p].
  pose proof Hr as (Hb & Hsh & Hst). shape_facts Hsh.
  pose proof (shape_size _ _ Hsh) as Hlen.
  rewrite it_add_begin by (rewrite SIZE_MOD_eq; lia).
  eapply (insert_spec False fuel this b l v d); [done|done|done|done|..].
  - intros h' p' b' l' Hsh' Hst' _. exists b'.
    split; [apply lookup_insert_eq|done].
  - intros e h' p' b' l' Hl' Hsh' Hst' _.
    exists l'. split; [|done]. exists b'.
    split; [apply lookup_insert_eq|done].
Qed.

(** * Facts for the examples *)

Lemma repr_at_of_repr w x b l :
  repr w x l → objs w !! x = Some b → repr_at w x b l.
Proof. intros (b' & Hb' & Hsh & Hst) Hb. by assert (b' = b) as <- by congruence. Qed.

Lemma repr_at_pending w x b l p :
  repr_at w x b l → repr_at (set_pending p w) x b l.
Proof. done. Qed.

End Proofs.

(** * Examples on concrete worlds *)

Lemma world_default_eq : circular_buffer_default world0 = Done 1%positive world_default.
Proof. vm_compute. reflexivity. Qed.

Lemma world_one_repr : repr world_one 1 [7].
Proof.
  apply (run_ops_repr [PushBack 7] [7] 5 world0 world_default world_one 1);
    [exact world_default_eq|reflexivity|simpl; lia|vm_compute; reflexivity].
Qed.

Lemma sample_world_repr : repr sample_world 1 [0; 1; 2].
Proof.
  apply (run_ops_repr sample_ops [0; 1; 2] 5 world0 world_default sample_world 1);
    [exact world_default_eq|reflexivity|simpl; lia|vm_compute; reflexivity].
Qed.

Lemma sample_world_reachable : reachable sample_world.
Proof.
  exists [NewDefault; AtEnd 1 (PushBack 1); AtEnd 1 (PushBack 2);
          AtEnd 1 (PushFront 0)], [].
  eapply (steps_cons _ _ 5); [reflexivity|vm_compute; reflexivity|].
  eapply (steps_cons _ _ 5); [reflexivity|vm_compute; reflexivity|].
  eapply (steps_cons _ _ 5); [reflexivity|vm_compute; reflexivity|].
  eapply (steps_cons _ _ 5); [reflexivity|vm_compute; reflexivity|].
  apply steps_nil.
Qed.

Lemma C1_end_operations_refine_deque_witness :
  match run_ops 5 1 sample_ops world_default with
  | Done _ w' => contents w' 1 = Some [0; 1; 2]
  | Thrown _ _ =>
      ¬ (calm world0 ∧ Z.pos sizeof * (2 * Z.of_nat (length sample_ops)) ≤ max_bytes)
  | Undefined | Exhausted => False
  end.
Proof.
  apply (C1_end_operations_refine_deque sample_ops [0; 1; 2] 5 world0
           world_default 1).
  - exact world_default_eq.
  - reflexivity.
  - simpl. lia.
Defined.

Lemma C3_push_on_full_doubles_capacity_witness :
  repr world_one 1 [7] ∧ capacity 1 world_one = Done 1 world_one ∧
  (match push_back 5 1 9 world_one with
   | Done _ w' => capacity 1 w' = Done 2 w'
   | Thrown _ _ => ¬ (calm world_one ∧ Z.pos sizeof * 2 ≤ max_bytes)
   | Undefined | Exhausted => False
   end ∧
   match push_front 5 1 9 world_one with
   | Done _ w' => capacity 1 w' = Done 2 w'
   | Thrown _ _ => ¬ (calm world_one ∧ Z.pos sizeof * 2 ≤ max_bytes)
   | Undefined | Exhausted => False
   end).
Proof.
  split; [exact world_one_repr|]. split; [vm_compute; reflexivity|].
  apply (C3_push_on_full_doubles_capacity 5 1 [7] 9 world_one 1).
  - exact world_one_repr.
  - vm_compute. reflexivity.
  - reflexivity.
  - simpl. lia.
Defined.

Lemma C4_insert_places_value_witness :
  repr sample_world 1 [0; 1; 2] ∧
  match insert 6 1 (it_add (begin 1) 1) 9 sample_world with
  | Done it w' =>
      it = it_add (begin 1) 1 ∧
      at_ w' 1 1 = Some 9 ∧
      (∀ i, 0 ≤ i < 1 → at_ w' 1 i = at_ sample_world 1 i) ∧
      (∀ i, 1 ≤ i < Z.of_nat (length [0; 1; 2]) →
         at_ w' 1 (i + 1) = at_ sample_world 1 i) ∧
      size 1 w' = Done (Z.of_nat (length [0; 1; 2]) + 1) w'
  | Thrown _ _ =>
      ¬ (calm sample_world ∧
         Z.pos sizeof * (2 * Z.of_nat (length [0; 1; 2]) + 1) ≤ max_bytes)
  | Undefined | Exhausted => False
  end.
Proof.
  split; [exact sample_world_repr|].
  apply (C4_insert_places_value 6 1 [0; 1; 2] 9 1 sample_world).
  - exact sample_world_repr.
  - simpl. lia.
  - simpl. lia.
Defined.

Lemma C5_erase_range_witness :
  repr sample_world 1 [0; 1; 2] ∧
  match erase 5 1 (it_add (begin 1) 1) (it_add (begin 1) 2) sample_world with
  | Done it w' =>
      2 - 1 ≤ INT_MAX ∧
      it = it_add (begin 1) 1 ∧
      size 1 w' = Done (Z.of_nat (length [0; 1; 2]) - (2 - 1)) w' ∧
      (∀ i, 0 ≤ i < 1 → at_ w' 1 i = at_ sample_world 1 i) ∧
      (∀ i, 2 ≤ i < Z.of_nat (length [0; 1; 2]) →
         at_ w' 1 (i - (2 - 1)) = at_ sample_world 1 i) ∧
      (1 = 2 → contents w' 1 = contents sample_world 1)
  | Thrown _ _ => False
  | Undefined | Exhausted => INT_MAX < 2 - 1
  end.
Proof.
  split; [exact sample_world_repr|].
  apply (C5_erase_range 5 1 [0; 1; 2] 1 2 sample_world).
  - exact sample_world_repr.
  - lia.
  - simpl. lia.
  - simpl. lia.
Defined.

Lemma C6_copy_is_deep_and_compact_witness :
  world_inv sample_world ∧ repr sample_world 1 [0; 1; 2] ∧
  match circular_buffer_copy 4 1 sample_world with
  | Done B w' =>
      B ≠ 1%positive ∧
      contents w' B = Some [0; 1; 2] ∧ contents w' 1 = Some [0; 1; 2] ∧
      capacity B w' = Done (Z.of_nat (length [0; 1; 2])) w' ∧
      (∃ b, objs w' !! B = Some b ∧ head_ b = 0) ∧
      ∀ cs w'', steps cs w' w'' →
        (Forall (λ c, B ∉ target c) cs → contents w'' B = Some [0; 1; 2]) ∧
        (Forall (λ c, 1%positive ∉ target c) cs →
           contents w'' 1 = Some [0; 1; 2])
  | Thrown _ w' => ¬ calm sample_world ∧ contents w' 1 = Some [0; 1; 2]
  | Undefined | Exhausted => False
  end.
Proof.
  split; [exact (reachable_world_inv _ sample_world_reachable)|].
  split; [exact sample_world_repr|].
  apply (C6_copy_is_deep_and_compact 4 1 [0; 1; 2] sample_world).
  - exact (reachable_world_inv _ sample_world_reachable).
  - exact sample_world_repr.
  - simpl. lia.
Defined.

Lemma C7_self_assignment_is_identity_witness :
  objs sample_world !! 1%positive = Some (Buf (Some 3%positive) 4 3 3) ∧
  op_assign 5 1 1 sample_world = Done tt sample_world.
Proof.
  split; [vm_compute; reflexivity|].
  apply (C7_self_assignment_is_identity 5 1 (Buf (Some 3%positive) 4 3 3)
           sample_world).
  vm_compute. reflexivity.
Defined.

Lemma C8_size_within_capacity_witness :
  reachable sample_world ∧
  (0 ≤ 3 ≤ 4 ∧
   ∀ a blk, data 1 sample_world = Done (Some a) sample_world →
     heap sample_world !! a = Some blk → live_count blk ≤ 3).
Proof.
  split; [exact sample_world_reachable|].
  apply (C8_size_within_capacity sample_world 1 3 4).
  - exact sample_world_reachable.
  - vm_compute. reflexivity.
  - vm_compute. reflexivity.
Defined.

Lemma C9_default_buffers_compare_equal_witness :
  ∃ w2, circular_buffer_default world_default = Done 2%positive w2 ∧
    (1%positive ≠ 2%positive ∧
     objs w2 !! 1%positive = Some (Buf None 0 0 0) ∧
     objs w2 !! 2%positive = Some (Buf None 0 0 0) ∧
     op_eq 1 2 w2 = Done true w2 ∧
     op_assign 5 1 2 w2 = Done tt w2).
Proof.
  eexists. split; [vm_compute; reflexivity|].
  apply (C9_default_buffers_compare_equal 5 world0 world_default _ 1 2).
  - exact world_default_eq.
  - vm_compute. reflexivity.
Defined.

Lemma C10_head_within_capacity_witness :
  reachable sample_world ∧
  (0 ≤ 3 < 4 ∧ ∀ i, 0 ≤ i < 3 → 0 ≤ (3 + i) mod 4 < 4).
Proof.
  split; [exact sample_world_reachable|].
  apply (C10_head_within_capacity sample_world 1 (Buf (Some 3%positive) 4 3 3)).
  - exact sample_world_reachable.
  - vm_compute. reflexivity.
  - simpl. lia.
Defined.

(** ** More examples *)

Lemma sample_world_repr_at : repr_at sample_world 1 sample_buf [0; 1; 2].
Proof.
  apply repr_at_of_repr; [exact sample_world_repr|vm_compute; reflexivity].
Qed.

Lemma fragile_world_repr_at : repr_at fragile_world 1 sample_buf [0; 1; 2].
Proof. exact (repr_at_pending _ _ _ _ [true] sample_world_repr_at). Qed.

Lemma world_default_repr_at : repr_at world_default 1 (Buf None 0 0 0) [].
Proof.
  apply repr_at_of_repr; [|reflexivity].
  apply (run_ops_repr [] [] 5 world0 world_default world_default 1);
    [exact world_default_eq|reflexivity|simpl; lia|reflexivity].
Qed.

Lemma pair_world_reachable : reachable pair_world.
Proof.
  exists [NewDefault; AtEnd 1 (PushBack 1); AtEnd 1 (PushBack 2);
          AtEnd 1 (PushFront 0); NewCopy 1; AtEnd 2 PopFront], [].
  do 6 (eapply (steps_cons _ _ 5); [reflexivity|vm_compute; reflexivity|]).
  apply steps_nil.
Qed.

(** The slots of a small concrete block, one index at a time. *)
Ltac solve_stores :=
  unfold stores; simpl; eexists; split; [vm_compute; reflexivity|];
  split; [reflexivity|]; intros i Hi; simpl in Hi;
  destruct (Z.eq_dec i 0) as [->|?]; [vm_compute; reflexivity|];
  destruct (Z.eq_dec i 1) as [->|?]; [vm_compute; reflexivity|];
  destruct (Z.eq_dec i 2) as [->|?]; [vm_compute; reflexivity|];
  destruct (Z.eq_dec i 3) as [->|?];
    [first [exfalso; lia|vm_compute; reflexivity]|];
  lia.

Ltac solve_shape :=
  constructor; simpl; [reflexivity|lia|lia|by vm_compute|split; done].

Lemma pair_world_repr_at_1 : repr_at pair_world 1 sample_buf [0; 1; 2].
Proof.
  split; [vm_compute; reflexivity|]. split; [solve_shape|solve_stores].
Qed.

Lemma pair_world_repr_at_2 : repr_at pair_world 2 pair_buf [1; 2].
Proof.
  split; [vm_compute; reflexivity|]. split; [solve_shape|solve_stores].
Qed.

Lemma clear_keeps_storage_witness :
  match clear 4 1 sample_world with
  | Done _ w' =>
      contents w' 1 = Some [] ∧
      objs w' = <[1%positive := with_size 0 sample_buf]> (objs sample_world) ∧
      pending w' = pending sample_world
  | Thrown _ _ | Undefined | Exhausted => False
  end.
Proof.
  apply (clear_keeps_storage 4 1 sample_buf [0; 1; 2] sample_world);
    [exact sample_world_repr_at|simpl; lia].
Defined.

Lemma reserve_grows_or_keeps_witness :
  match reserve 5 1 10 sample_world with
  | Done _ w' =>
      contents w' 1 = Some [0; 1; 2] ∧
      capacity 1 w' = Done (Z.max (capacity_ sample_buf) 10) w' ∧
      (10 ≤ capacity_ sample_buf → w' = sample_world)
  | Thrown _ w' =>
      ¬ (calm sample_world ∧ Z.pos sizeof * 10 ≤ max_bytes) ∧
      capacity_ sample_buf < 10 ∧
      heap w' = heap sample_world ∧ objs w' = objs sample_world
  | Undefined | Exhausted => False
  end.
Proof.
  apply (reserve_grows_or_keeps 5 1 sample_buf [0; 1; 2] 10 sample_world);
    [exact sample_world_repr_at|vm_compute; reflexivity|simpl; lia].
Defined.

Lemma swap_exchanges_witness :
  match swap 1 2 pair_world with
  | Done _ w' =>
      repr_at w' 1 pair_buf [1; 2] ∧ repr_at w' 2 sample_buf [0; 1; 2] ∧
      heap w' = heap pair_world ∧ swap 1 2 w' = Done tt pair_world
  | Thrown _ _ | Undefined | Exhausted => False
  end.
Proof.
  apply (swap_exchanges 1 2 sample_buf pair_buf [0; 1; 2] [1; 2] pair_world);
    [lia|exact pair_world_repr_at_1|exact pair_world_repr_at_2].
Defined.

Lemma destructor_releases_storage_witness :
  match destructor 4 1 sample_world with
  | Done _ w' =>
      objs w' = delete 1%positive (objs sample_world) ∧
      (∀ a, data_ sample_buf = Some a → heap w' !! a = None) ∧
      (∀ a, data_ sample_buf ≠ Some a → heap w' !! a = heap sample_world !! a) ∧
      pending w' = pending sample_world
  | Thrown _ _ | Undefined | Exhausted => False
  end.
Proof.
  apply (destructor_releases_storage 4 1 sample_buf [0; 1; 2] sample_world);
    [exact sample_world_repr_at|simpl; lia].
Defined.

Lemma pops_keep_storage_witness :
  match pop_back 1 sample_world with
  | Done _ w' =>
      repr_at w' 1 (with_size (size_ sample_buf - 1) sample_buf) [0; 1] ∧
      pending w' = pending sample_world
  | Thrown _ _ | Undefined | Exhausted => False
  end ∧
  match pop_front 1 sample_world with
  | Done _ w' =>
      repr_at w' 1 (Buf (Some 3%positive) 4 0 2) [1; 2] ∧
      pending w' = pending sample_world
  | Thrown _ _ | Undefined | Exhausted => False
  end.
Proof.
  apply (pops_keep_storage 1 sample_buf [0; 1; 2] sample_world);
    [exact sample_world_repr_at|done].
Defined.

Lemma push_with_room_is_strong_witness :
  match push_back 1 1 9 fragile_world with
  | Done _ w' =>
      repr_at w' 1 (with_size (size_ sample_buf + 1) sample_buf) [0; 1; 2; 9]
  | Thrown _ w' =>
      ¬ calm fragile_world ∧
      heap w' = heap fragile_world ∧ objs w' = objs fragile_world
  | Undefined | Exhausted => False
  end ∧
  match push_front 1 1 9 fragile_world with
  | Done _ w' => repr_at w' 1 (Buf (Some 3%positive) 4 2 4) [9; 0; 1; 2]
  | Thrown _ w' =>
      ¬ calm fragile_world ∧
      heap w' = heap fragile_world ∧ objs w' = objs fragile_world
  | Undefined | Exhausted => False
  end.
Proof.
  apply (push_with_room_is_strong 1 1 sample_buf [0; 1; 2] 9 fragile_world);
    [exact fragile_world_repr_at|simpl; lia|lia].
Defined.

Lemma failed_copy_leaves_no_trace_witness :
  match circular_buffer_copy 4 1 fragile_world with
  | Done _ _ => True
  | Thrown _ w' =>
      ¬ calm fragile_world ∧
      heap w' = heap fragile_world ∧ objs w' = objs fragile_world
  | Undefined | Exhausted => False
  end.
Proof.
  apply (failed_copy_leaves_no_trace 4 1 [0; 1; 2] fragile_world);
    [exact (ex_intro _ sample_buf fragile_world_repr_at)|simpl; lia].
Defined.

Lemma iterator_arithmetic_witness :
  it_decr (it_incr (Iter 1 3)) = Iter 1 3 ∧
  it_incr (it_decr (Iter 1 3)) = Iter 1 3 ∧
  it_sub (it_add (Iter 1 3) 2) 2 = Iter 1 3 ∧
  it_add (it_add (Iter 1 3) 2) 5 = it_add (Iter 1 3) (2 + 5) ∧
  it_diff (it_add (Iter 1 3) 2) (Iter 1 3) = 2.
Proof.
  apply (iterator_arithmetic (Iter 1 3) 2 5).
  - vm_compute. split; [discriminate|reflexivity].
  - vm_compute. split; reflexivity.
Defined.

Lemma end_minus_begin_is_size_witness :
  ∃ e, end_ 1 sample_world = Done e sample_world ∧
    it_diff e (begin 1) = 3 ∧
    it_eq (begin 1) e = false ∧
    empty 1 sample_world = Done false sample_world.
Proof.
  apply (end_minus_begin_is_size 1 [0; 1; 2] sample_world).
  exact sample_world_repr.
Defined.

Lemma front_back_read_the_ends_witness :
  front 1 sample_world = Done 0 sample_world ∧
  back 1 sample_world = Done 2 sample_world.
Proof.
  apply (front_back_read_the_ends 1 [0; 1; 2] sample_world).
  exact sample_world_repr.
Defined.

Lemma index_is_taken_modulo_capacity_witness :
  read 1 5 sample_world = Done 1 sample_world.
Proof.
  apply (index_is_taken_modulo_capacity 1 sample_buf [0; 1; 2] 5 sample_world);
    [exact sample_world_repr_at|lia|vm_compute; reflexivity].
Defined.

Lemma write_replaces_one_element_witness :
  match write 1 1 9 sample_world with
  | Done _ w' =>
      contents w' 1 = Some [0; 9; 2] ∧
      at_ w' 1 1 = Some 9 ∧
      objs w' = objs sample_world ∧ pending w' = pending sample_world
  | Thrown _ _ | Undefined | Exhausted => False
  end.
Proof.
  apply (write_replaces_one_element 1 [0; 1; 2] 1 9 sample_world);
    [exact sample_world_repr|simpl; lia].
Defined.

Lemma pop_of_empty_is_undefined_witness :
  pop_back 1 world_default = Undefined ∧ pop_front 1 world_default = Undefined.
Proof.
  apply (pop_of_empty_is_undefined 1 world_default).
  exact (ex_intro _ (Buf None 0 0 0) world_default_repr_at).
Defined.

Lemma equality_is_identity_of_storage_witness :
  op_eq 1 2 pair_world = Done false pair_world ∧
  op_eq 2 1 pair_world = Done false pair_world ∧
  op_eq 1 1 pair_world = Done true pair_world.
Proof.
  apply (equality_is_identity_of_storage 1 2 [0; 1; 2] pair_buf pair_world).
  - exact (reachable_world_inv _ pair_world_reachable).
  - lia.
  - exact (ex_intro _ sample_buf pair_world_repr_at_1).
  - discriminate.
  - vm_compute. reflexivity.
Defined.

Lemma assignment_copies_witness :
  match op_assign 5 2 1 pair_world with
  | Done _ w' =>
      contents w' 2 = Some [0; 1; 2] ∧ contents w' 1 = Some [0; 1; 2] ∧
      capacity 2 w' = Done 3 w'
  | Thrown _ w' =>
      ¬ calm pair_world ∧ heap w' = heap pair_world ∧ objs w' = objs pair_world
  | Undefined | Exhausted => False
  end.
Proof.
  apply (assignment_copies 5 1 2 [0; 1; 2] [1; 2] pair_world).
  - exact (reachable_world_inv _ pair_world_reachable).
  - lia.
  - exact (ex_intro _ sample_buf pair_world_repr_at_1).
  - exact (ex_intro _ pair_buf pair_world_repr_at_2).
  - simpl. lia.
  - simpl. lia.
Defined.

Lemma erase_at_removes_one_witness :
  match erase1 5 1 (it_add (begin 1) 1) sample_world with
  | Done it w' =>
      it = it_add (begin 1) 1 ∧
      contents w' 1 = Some [0; 2]
  | Thrown _ w' =>
      ¬ calm sample_world ∧
      ∃ l', repr w' 1 l' ∧ length l' = length [0; 1; 2]
  | Undefined | Exhausted => False
  end.
Proof.
  apply (erase_at_removes_one 5 1 [0; 1; 2] 1 sample_world);
    [exact sample_world_repr|simpl; lia|simpl; lia].
Defined.

Lemma insert_then_erase_restores_witness :
  match bind (insert 6 1 (it_add (begin 1) 1) 9) (λ it, erase1 6 1 it)
          sample_world with
  | Done it w' => it = it_add (begin 1) 1 ∧ contents w' 1 = Some [0; 1; 2]
  | Thrown _ w' =>
      ¬ (calm sample_world ∧
         Z.pos sizeof * (2 * Z.of_nat (length [0; 1; 2]) + 1) ≤ max_bytes) ∧
      ∃ l', repr w' 1 l' ∧ (l' = [0; 1; 2] ∨ length l' = S (length [0; 1; 2]))
  | Undefined | Exhausted => False
  end.
Proof.
  apply (insert_then_erase_restores 6 1 [0; 1; 2] 9 1 sample_world);
    [exact sample_world_repr|simpl; lia|simpl; lia].
Defined.

Lemma reserve_overflow_outgrows_storage_witness :
  match reserve 1 1 (2 ^ 61) world_default with
  | Done _ w' =>
      ∃ a blk, objs w' !! 1%positive = Some (Buf (Some a) (2 ^ 61) 0 0) ∧
        heap w' !! a = Some blk ∧
        slots blk = wrap (Z.pos sizeof * 2 ^ 61) / Z.pos sizeof ∧
        slots blk < 2 ^ 61 ∧
        (slots blk = 0 → ∀ v, push_back 1 1 v w' = Undefined)
  | Thrown _ _ | Undefined | Exhausted => False
  end.
Proof.
  apply (reserve_overflow_outgrows_storage 1 1 (Buf None 0 0 0) (2 ^ 61)
           world_default).
  - exact world_default_repr_at.
  - reflexivity.
  - vm_compute. reflexivity.
  - vm_compute. reflexivity.
  - vm_compute. discriminate.
  - vm_compute. discriminate.
  - lia.
Defined.

Lemma reachable_world_has_no_leak_witness :
  (∀ a, is_Some (heap pair_world !! a) → owned pair_world a) ∧
  (objs pair_world = ∅ → heap pair_world = ∅).
Proof.
  apply (reachable_world_has_no_leak pair_world).
  exact pair_world_reachable.
Defined.

Lemma reachable_storage_is_exclusive_witness :
  is_Some (heap pair_world !! 3%positive) ∧
  (objs pair_world !! 2%positive = Some pair_buf →
   data_ pair_buf = Some 3%positive → 1%positive = 2%positive).
Proof.
  apply (reachable_storage_is_exclusive pair_world 1 2 sample_buf pair_buf 3).
  - exact pair_world_reachable.
  - vm_compute. reflexivity.
  - reflexivity.
Defined.

Lemma end_operations_double_the_capacity_witness :
  match run_ops 5 1 sample_ops world_default with
  | Done _ w' =>
      ∃ c, capacity 1 w' = Done c w' ∧ power_of_two_or_zero c ∧
        0 ≤ c ∧ 3 ≤ c
  | Thrown _ _ => True
  | Undefined | Exhausted => False
  end.
Proof.
  apply (end_operations_double_the_capacity 5 1 sample_ops (Buf None 0 0 0)
           [] [0; 1; 2] world_default).
  - exact world_default_repr_at.
  - by left.
  - reflexivity.
  - simpl. lia.
Defined.

(** A copy that throws in the middle of the shift: the pushed element is
    in the buffer, at the end where the push has put it. *)
Lemma insert_throws_mid_shift :
  match insert 6 1 (it_add (begin 1) 1) 9 shaky_world with
  | Thrown _ w' => contents w' 1 = Some [0; 1; 2; 9]
  | _ => False
  end.
Proof. vm_compute. reflexivity. Qed.

Lemma insert_failure_is_basic_witness :
  match insert 6 1 (it_add (begin 1) 1) 9 shaky_world with
  | Done _ w' => repr w' 1 [0; 9; 1; 2]
  | Thrown _ w' =>
      ∃ l', repr w' 1 l' ∧ (l' = [0; 1; 2] ∨ length l' = S (length [0; 1; 2]))
  | Undefined | Exhausted => False
  end.
Proof.
  apply (insert_failure_is_basic 6 1 [0; 1; 2] 9 1 shaky_world);
    [exact (ex_intro _ sample_buf
              (repr_at_pending _ _ _ _ [false; true] sample_world_repr_at))
    |simpl; lia|simpl; lia].
Defined.

Lemma push_failure_keeps_content_witness :
  match push_back 5 1 9 fragile_world with
  | Thrown _ w' => repr w' 1 [0; 1; 2]
  | _ => True
  end ∧
  match push_front 5 1 9 fragile_world with
  | Thrown _ w' => repr w' 1 [0; 1; 2]
  | _ => True
  end.
Proof.
  apply (push_failure_keeps_content 5 1 [0; 1; 2] 9 fragile_world);
    [exact (ex_intro _ sample_buf fragile_world_repr_at)|simpl; lia].
Defined.
